(** * sndl.py: sequential numbered file downloader

    A shallow embedding of [src/sndl.py] and the properties of its range
    parser, its enumerator and its fetch loop.

    Python strings are [string]; Python integers are [Z]; the byte strings
    read from a response are [list Byte.byte]; the files of the output
    directory are a finite map from file names to their contents.  A call
    that can raise returns [Exc A], a sum whose left side carries the
    exception.  The code that talks to the outside (connection, response,
    files, standard output, sleep) is written in a state monad whose state
    records what was done, in order. *)

From Stdlib Require Import ZArith Ascii String Decimal DecimalString DecimalZ.
From stdpp Require Import base option list list_numbers strings gmap.

Local Open Scope Z_scope.

(** ** Exceptions *)

(** The exception classes the program meets.  [socket_timeout] and
    [RemoteDisconnected] are the two that [get_content] names in its first
    handler; every other constructor is a subclass of [Exception] that is
    neither of them.  [ConnectionResetError] is what the socket raises when
    the peer resets the connection while the request is sent or the
    response is read: [RemoteDisconnected] is a subclass of it, and it is
    no subclass of [RemoteDisconnected]. *)
Inductive exn : Type :=
  | ValueError (msg : string)
  | TypeError (msg : string)
  | IndexError (msg : string)
  | UnboundLocalError (msg : string)
  | socket_timeout (msg : string)
  | RemoteDisconnected (msg : string)
  | ConnectionResetError (msg : string)
  | OSError (msg : string)
  | HTTPException (msg : string).

Definition Exc (A : Type) : Type := exn + A.

Definition exn_class (e : exn) : string :=
  match e with
  | ValueError _ => "ValueError"
  | TypeError _ => "TypeError"
  | IndexError _ => "IndexError"
  | UnboundLocalError _ => "UnboundLocalError"
  | socket_timeout _ => "socket.timeout"
  | RemoteDisconnected _ => "http.client.RemoteDisconnected"
  | ConnectionResetError _ => "ConnectionResetError"
  | OSError _ => "OSError"
  | HTTPException _ => "http.client.HTTPException"
  end.

(** [str(e)] *)
Definition exn_str (e : exn) : string :=
  match e with
  | ValueError m | TypeError m | IndexError m | UnboundLocalError m
  | socket_timeout m | RemoteDisconnected m | ConnectionResetError m
  | OSError m | HTTPException m => m
  end.

(** ** Strings *)

Definition is_digit (c : ascii) : bool :=
  match c with
  | "0" | "1" | "2" | "3" | "4" | "5" | "6" | "7" | "8" | "9" => true
  | _ => false
  end%char.

Definition digit_val (c : ascii) : Z :=
  match c with
  | "1" => 1 | "2" => 2 | "3" => 3 | "4" => 4 | "5" => 5
  | "6" => 6 | "7" => 7 | "8" => 8 | "9" => 9 | _ => 0
  end%char.

(** Whitespace of [str.strip()] among the ASCII characters: tab, line feed,
    vertical tab, form feed, carriage return, the four separators 28..31 and
    the space. *)
Definition is_space (c : ascii) : bool :=
  let n := N_of_ascii c in
  (((9 <=? n) && (n <=? 13)) || ((28 <=? n) && (n <=? 32)))%N.

Fixpoint all_chars (p : ascii -> bool) (s : string) : bool :=
  match s with
  | EmptyString => true
  | String c t => p c && all_chars p t
  end.

Fixpoint lstrip (s : string) : string :=
  match s with
  | EmptyString => EmptyString
  | String c t => if is_space c then lstrip t else s
  end.

Fixpoint rstrip (s : string) : string :=
  match s with
  | EmptyString => EmptyString
  | String c t =>
      match rstrip t with
      | EmptyString => if is_space c then EmptyString else String c EmptyString
      | t' => String c t'
      end
  end.

(** [s.strip()] *)
Definition strip (s : string) : string := rstrip (lstrip s).

(** [s.split(sep)] for a one-character separator: the fields between the
    separators, empty ones included, never an empty list. *)
Fixpoint split (sep : ascii) (s : string) : list string :=
  match s with
  | EmptyString => [EmptyString]
  | String c t =>
      if Ascii.eqb c sep then EmptyString :: split sep t
      else match split sep t with
           | f :: fs => String c f :: fs
           | [] => [String c EmptyString]
           end
  end.

(** [sep.join(fields)] *)
Fixpoint join (sep : string) (fields : list string) : string :=
  match fields with
  | [] => EmptyString
  | [f] => f
  | f :: fs => f +:+ sep +:+ join sep fs
  end.

(** Does [p] start [s]?  On success the rest of [s] is returned. *)
Fixpoint strip_prefix (p s : string) : option string :=
  match p, s with
  | EmptyString, _ => Some s
  | String a p', String b s' => if Ascii.eqb a b then strip_prefix p' s' else None
  | String _ _, EmptyString => None
  end.

(** [s.count(sub)] for a non-empty [sub]: occurrences from left to right
    that do not overlap. *)
Fixpoint count_from (fuel : nat) (sub s : string) : nat :=
  match fuel with
  | O => O
  | S fuel' =>
      match strip_prefix sub s with
      | Some rest => S (count_from fuel' sub rest)
      | None => match s with
                | EmptyString => O
                | String _ t => count_from fuel' sub t
                end
      end
  end.

Definition count (sub s : string) : nat := count_from (S (String.length s)) sub s.

(** [s.replace(old, new)] for a non-empty [old]. *)
Fixpoint replace_from (fuel : nat) (old new s : string) : string :=
  match fuel with
  | O => s
  | S fuel' =>
      match strip_prefix old s with
      | Some rest => new +:+ replace_from fuel' old new rest
      | None => match s with
                | EmptyString => EmptyString
                | String c t => String c (replace_from fuel' old new t)
                end
      end
  end.

Definition replace (old new s : string) : string :=
  replace_from (S (String.length s)) old new s.

(** [str(i)] for an integer. *)
Definition str (i : Z) : string := NilZero.string_of_int (Z.to_int i).

(** [s.rjust(width, fill)], which is what a format field [{:>0N}] or
    [{:Nd}] does to its rendered argument: pad on the left up to [width],
    never cut. *)
Definition rjust (fill : ascii) (width : nat) (s : string) : string :=
  string_of_list_ascii (repeat fill (width - String.length s)%nat) +:+ s.

(** Decimal digits, with the underscores Python allows between two digits.
    [prev] tells whether the character before was a digit. *)
Fixpoint int_digits (acc : Z) (prev : bool) (s : string) : option Z :=
  match s with
  | EmptyString => if prev then Some acc else None
  | String c t =>
      if is_digit c then int_digits (10 * acc + digit_val c) true t
      else if Ascii.eqb c "_" && prev then int_digits acc false t
      else None
  end.

(** [sys.int_info.default_max_str_digits]: the interpreter converts no
    decimal string of more digits into an integer, unless the limit has been
    lifted.  (The limit came with CPython 3.11 and the security releases of
    3.7 to 3.10; an older interpreter has none.) *)
Definition int_max_str_digits : Z := 4300.

(** What [int] reads after the blanks and the sign. *)
Definition int_body (s : string) : string :=
  match strip s with
  | String "-" t => t
  | String "+" t => t
  | t => t
  end.

(** The digits in the run of digits and underscores that starts [s]: what
    the interpreter counts against the limit. *)
Fixpoint count_digits (s : string) : nat :=
  match s with
  | EmptyString => O
  | String c t =>
      if is_digit c then S (count_digits t)
      else if Ascii.eqb c "_" then count_digits t
      else O
  end.

Definition exceeds_limit (s : string) : bool :=
  int_max_str_digits <? Z.of_nat (count_digits (int_body s)).

(** [int(s)] on an ASCII string; [None] is [ValueError]: the string is no
    decimal literal, or it has more digits than the limit allows. *)
Definition int (s : string) : option Z :=
  if exceeds_limit s then None
  else match strip s with
       | String "-" t => Z.opp <$> int_digits 0 false t
       | String "+" t => int_digits 0 false t
       | t => int_digits 0 false t
       end.

(** The longest prefix of [s] whose characters satisfy [p], and the rest. *)
Fixpoint span (p : ascii -> bool) (s : string) : string * string :=
  match s with
  | EmptyString => (EmptyString, EmptyString)
  | String c t =>
      if p c then let (a, b) := span p t in (String c a, b)
      else (EmptyString, s)
  end.

Definition has_char (c : ascii) (s : string) : bool :=
  negb (all_chars (fun x => negb (Ascii.eqb x c)) s).

(** [s] cut after its last slash: [(s[:k+1], s[k+1:])] for [k = s.rfind('/')],
    and [('', s)] when there is no slash. *)
Fixpoint rpartition_slash (s : string) : string * string :=
  match s with
  | EmptyString => (EmptyString, EmptyString)
  | String c t =>
      if has_char "/" t then let (d, l) := rpartition_slash t in (String c d, l)
      else if Ascii.eqb c "/" then (String c EmptyString, t)
      else (EmptyString, s)
  end.

(** [os.path.basename(p)]: what follows the last slash. *)
Definition basename (p : string) : string := snd (rpartition_slash p).

(** ** The library call [urllib.parse.urlparse]

    [parse_url] reads three attributes of the result. *)
Record ParseResult : Type := mkParseResult {
  pr_scheme : string;
  pr_netloc : string;
  pr_path : string
}.

Definition is_alpha (c : ascii) : bool :=
  let n := N_of_ascii c in
  (((65 <=? n) && (n <=? 90)) || ((97 <=? n) && (n <=? 122)))%N.

Definition is_scheme_char (c : ascii) : bool :=
  is_alpha c || is_digit c || Ascii.eqb c "+" || Ascii.eqb c "-" || Ascii.eqb c ".".

Definition lower_char (c : ascii) : ascii :=
  let n := N_of_ascii c in
  if ((65 <=? n) && (n <=? 90))%N then ascii_of_N (n + 32) else c.

Fixpoint lower (s : string) : string :=
  match s with
  | EmptyString => EmptyString
  | String c t => String (lower_char c) (lower t)
  end.

(** Schemes whose last path segment may carry [;parameters]
    ([urllib.parse.uses_params]). *)
Definition uses_params : list string :=
  [""; "ftp"; "hdl"; "prospero"; "http"; "imap"; "https"; "shttp"; "rtsp";
   "rtspu"; "sip"; "sips"; "mms"; "sftp"; "tel"].

(** A model of the library function for ASCII URLs without control
    characters and without brackets in the authority: the scheme is what
    precedes the first colon when that is a letter followed by letters,
    digits, [+], [-] or [.]; the authority follows [//] up to the next [/],
    [?] or [#]; the path ends at the first [#] or [?], and, for the schemes
    of [uses_params], at the first [;] of its last segment. *)
Definition urlparse (url : string) : ParseResult :=
  let (pre, rest) := span (fun c => negb (Ascii.eqb c ":")) url in
  let (scheme, url1) :=
    match pre, rest with
    | String c0 _, String _ r =>
        if is_alpha c0 && all_chars is_scheme_char pre then (lower pre, r)
        else (EmptyString, url)
    | _, _ => (EmptyString, url)
    end in
  let (netloc, url2) :=
    match strip_prefix "//" url1 with
    | Some r =>
        span (fun c => negb (Ascii.eqb c "/" || Ascii.eqb c "?" || Ascii.eqb c "#")) r
    | None => (EmptyString, url1)
    end in
  let url3 := fst (span (fun c => negb (Ascii.eqb c "#")) url2) in
  let url4 := fst (span (fun c => negb (Ascii.eqb c "?")) url3) in
  let path :=
    if bool_decide (scheme ∈ uses_params) && has_char ";" url4 then
      let (d, l) := rpartition_slash url4 in
      d +:+ fst (span (fun c => negb (Ascii.eqb c ";")) l)
    else url4 in
  mkParseResult scheme netloc path.

(** ** parse_url *)

(** The character class [[0-9,-]]. *)
Definition in_class (c : ascii) : bool :=
  is_digit c || Ascii.eqb c "," || Ascii.eqb c "-".

(** The pattern [\[([0-9,-]+)\]] tried at the start of [s]: an opening
    bracket, the longest run of class characters, which must not be empty,
    and a closing bracket.  No shorter run can match, because the character
    after it would be a class character and not the closing bracket.  The
    result is the group and what follows the match. *)
Definition match_bracket (s : string) : option (string * string) :=
  match s with
  | String "[" t =>
      match span in_class t with
      | (String c r, String "]" rest) => Some (String c r, rest)
      | _ => None
      end
  | _ => None
  end.

(** [re.search(r'\[([0-9,-]+)\]', s)]: the leftmost match, as
    [(s[:m.start()], m.group()[1:-1], s[m.end():])]. *)
Fixpoint search_bracket (s : string) : option (string * string * string) :=
  match match_bracket s with
  | Some (inner, rest) => Some (EmptyString, inner, rest)
  | None =>
      match s with
      | EmptyString => None
      | String c t =>
          match search_bracket t with
          | Some (pre, inner, rest) => Some (String c pre, inner, rest)
          | None => None
          end
      end
  end.

Definition is_Some_bool {A} (x : option A) : bool :=
  match x with Some _ => true | None => false end.

(** The dictionary [parse_url] returns. *)
Record ParsedTarget : Type := mkParsedTarget {
  scheme : string;
  host : string;
  port : Z;
  path : string;
  ranges : list string
}.

Definition marker : string := "[*]".

Definition is_empty (s : string) : bool :=
  match s with EmptyString => true | _ => false end.

(** The message of the [ValueError] of [int(g)].  The interpreter scans the
    run of digits and underscores first; when that run is well formed and
    has too many digits it reports the limit, and otherwise the literal. *)
Definition int_error (g : string) : string :=
  let run := fst (span (fun c => is_digit c || Ascii.eqb c "_") (int_body g)) in
  if is_Some_bool (int_digits 0 false run) && exceeds_limit g then
    "Exceeds the limit (4300 digits) for integer string conversion: value has " +:+
    str (Z.of_nat (count_digits (int_body g))) +:+
    " digits; use sys.set_int_max_str_digits() to increase the limit"
  else "invalid literal for int() with base 10: '" +:+ g +:+ "'".

(** [int(g)] as a call that can raise. *)
Definition int_exc (g : string) : Exc Z :=
  match int g with
  | Some n => inr n
  | None => inl (ValueError (int_error g))
  end.

(** [int(host_port[1]) if len(host_port) == 2 else 0] *)
Definition parse_port (host_port : list string) : Exc Z :=
  match host_port with
  | [_; p] => int_exc p
  | _ => inr 0
  end.

(** [[x.strip() for x in inner.split(',') if not x.strip() == '']] *)
Definition range_tokens (inner : string) : list string :=
  omap (fun x => if is_empty (strip x) then None else Some (strip x)) (split "," inner).

(** The body of [parse_url] after the call of [urlparse]. *)
Definition parse_url_of (parsed_url : ParseResult) : Exc ParsedTarget :=
  let host_port := split ":" (pr_netloc parsed_url) in
  match parse_port host_port with
  | inl e => inl e
  | inr port =>
      let path := pr_path parsed_url in
      match search_bracket path with
      | None => inl (ValueError "The range is not specified.")
      | Some (before, inner, after) =>
          inr {| scheme := pr_scheme parsed_url;
                 host := hd EmptyString host_port;
                 port := port;
                 path := before +:+ marker +:+ after;
                 ranges := range_tokens inner |}
      end
  end.

Definition parse_url (url : string) : Exc ParsedTarget :=
  parse_url_of (urlparse url).

(** ** get_digit and parse_range *)

(** [re.fullmatch(r'([0-9]+)-([0-9]+)', s)]: the two groups.  The first
    group is the whole run of digits that starts [s], since the character
    after it has to be the dash. *)
Definition fullmatch_range (s : string) : option (string * string) :=
  match span is_digit s with
  | (String c a, String "-" (String d b)) =>
      if all_chars is_digit (String d b) then Some (String c a, String d b) else None
  | _ => None
  end.

(** [re.fullmatch(r'([0-9]+)', s)] *)
Definition fullmatch_digits (s : string) : option string :=
  match s with
  | String _ _ => if all_chars is_digit s then Some s else None
  | EmptyString => None
  end.

Definition wrong_range_format : exn := ValueError "Wrong range format.".

Definition get_digit (range_str : string) : Exc nat :=
  match fullmatch_range range_str with
  | Some (g0, _) => inr (String.length g0)
  | None =>
      match fullmatch_digits range_str with
      | Some g => inr (String.length g)
      | None => inl wrong_range_format
      end
  end.

(** [range(a, b)] *)
Definition range (a b : Z) : list Z := seqZ a (b - a).

Definition parse_range (range_str : string) : Exc (list Z) :=
  match fullmatch_range range_str with
  | Some (g0, g1) =>
      match int_exc g0, int_exc g1 with
      | inr begin_, inr end_ =>
          let (begin_, end_) :=
            if begin_ >? end_ then (end_, begin_) else (begin_, end_) in
          inr (range begin_ (end_ + 1))
      | inl e, _ | _, inl e => inl e
      end
  | None =>
      match fullmatch_digits range_str with
      | Some g =>
          match int_exc g with
          | inr n => inr (range n (n + 1))
          | inl e => inl e
          end
      | None => inl wrong_range_format
      end
  end.

(** ['{:>0N}'.format(arg)] for a string [arg] and [N] the digits of
    [digit]: the alignment is to the right, the zero after it sets the fill
    character, and the rest is the width. *)
Definition format_field (digit : nat) (arg : string) : string := rjust "0" digit arg.

(** ** The outside world *)

Abbreviation bytes := (list Byte.byte).

(** One call of [response.read(4096)]: it returns a chunk, and [closed] is
    what [response.isclosed()] answers after it, or it raises. *)
Inductive ReadStep : Type :=
  | ReadReturns (chunk : bytes) (closed : bool)
  | ReadRaises (e : exn).

(** A response: its status line, the value of [getheader('Content-Length')]
    and what the successive reads of its body do.  When the list is used up
    the read returns the empty byte string and the response is closed. *)
Record Response : Type := mkResponse {
  status : Z;
  reason : string;
  content_length_header : option string;
  body : list ReadStep
}.

(** What the server and the transport do with one request. *)
Inductive Attempt : Type :=
  | RequestRaises (e : exn)
  | GetResponseRaises (e : exn)
  | Responds (r : Response).

(** The two classes of [http.client] the program instantiates. *)
Inductive Client : Type := HTTPConnection | HTTPSConnection.

Record Connection : Type := mkConnection {
  conn_class : Client;
  conn_host : string;
  conn_port : Z;
  conn_timeout : Z;
  conn_debuglevel : Z
}.

(** What the program does to the outside, call by call. *)
Inductive Event : Type :=
  | Stdout (text : string)
  | ConnConnect (c : Connection)
  | ConnRequest (method url : string)
  | ConnGetResponse
  | ConnClose
  | ResponseRead (amt : option Z)
  | FileOpen (name : string)
  | FileWrite (name : string) (chunk : bytes)
  | FileClose (name : string)
  | Sleep (seconds : Z).

(** The environment of a run.  [env_connect k] is what the call number [k]
    of [conn.connect()] does ([None]: it returns), [env_attempt k] what
    happens to request number [k], [env_open k name] what [open(name, 'wb')]
    does while request [k] is served.  [env_format template arg] is the
    result of [template.format(arg)] for a template in which the URL path
    brings braces of its own; that part of [str.format] is left to the
    library. *)
Record Env : Type := mkEnv {
  env_connect : nat -> option exn;
  env_attempt : nat -> Attempt;
  env_open : nat -> string -> option exn;
  env_format : string -> string -> Exc string
}.

Record World : Type := mkWorld {
  events : list Event;
  files : gmap string bytes;
  n_connect : nat;
  n_request : nat
}.

Definition initial_world (fs : gmap string bytes) : World :=
  {| events := []; files := fs; n_connect := 0; n_request := 0 |}.

(** ** The monad of the effectful code *)

Definition M (A : Type) : Type := World -> Exc A * World.

Definition ret {A} (a : A) : M A := fun w => (inr a, w).

Definition raise {A} (e : exn) : M A := fun w => (inl e, w).

Definition bind {A B} (m : M A) (k : A -> M B) : M B :=
  fun w => match m w with
           | (inr a, w') => k a w'
           | (inl e, w') => (inl e, w')
           end.

(** [try: m  except Exception as e: h e] *)
Definition try_except {A} (m : M A) (h : exn -> M A) : M A :=
  fun w => match m w with
           | (inl e, w') => h e w'
           | r => r
           end.

(** [try: m  finally: f] *)
Definition try_finally {A} (m : M A) (f : M unit) : M A :=
  fun w => match m w with
           | (r, w') => match f w' with
                        | (inr _, w'') => (r, w'')
                        | (inl e, w'') => (inl e, w'')
                        end
           end.

Definition lift {A} (r : Exc A) : M A := fun w => (r, w).

Declare Scope m_scope.
Delimit Scope m_scope with M.
Notation "x <- m ;; k" := (bind m (fun x => k))
  (at level 100, m at next level, right associativity) : m_scope.
Notation "m ;; k" := (bind m (fun _ => k))
  (at level 100, right associativity) : m_scope.
Local Open Scope m_scope.

Definition emit (e : Event) : M unit :=
  fun w => (inr tt, {| events := events w ++ [e]; files := files w;
                        n_connect := n_connect w; n_request := n_request w |}).

(** [for x in l: f x] *)
Fixpoint for_each {A} (l : list A) (f : A -> M unit) : M unit :=
  match l with
  | [] => ret tt
  | x :: l' => f x ;; for_each l' f
  end.

Definition newline : string := String (ascii_of_N 10) EmptyString.
Definition carriage_return : string := String (ascii_of_N 13) EmptyString.

(** [print(s)] and [print(s, end = '')] *)
Definition print (s : string) : M unit := emit (Stdout (s +:+ newline)).
Definition print_noend (s : string) : M unit := emit (Stdout s).

(** [time.sleep(1)] *)
Definition sleep (seconds : Z) : M unit := emit (Sleep seconds).

Section Program.

Variable env : Env.

(** [conn.connect()] *)
Definition connect (conn : Connection) : M unit :=
  fun w =>
    let w' := {| events := events w ++ [ConnConnect conn]; files := files w;
                 n_connect := S (n_connect w); n_request := n_request w |} in
    match env_connect env (n_connect w) with
    | Some e => (inl e, w')
    | None => (inr tt, w')
    end.

(** [conn.request('GET', url)] followed by [conn.getresponse()] *)
Definition request_getresponse (url : string) : M Response :=
  fun w =>
    let w1 := {| events := events w ++ [ConnRequest "GET" url]; files := files w;
                 n_connect := n_connect w; n_request := S (n_request w) |} in
    match env_attempt env (n_request w) with
    | RequestRaises e => (inl e, w1)
    | GetResponseRaises e => (emit ConnGetResponse ;; raise e) w1
    | Responds r => (emit ConnGetResponse ;; ret r) w1
    end.

(** [open(name, mode = 'wb')]: the file is created, or emptied when it
    exists. *)
Definition open_wb (name : string) : M unit :=
  fun w =>
    match env_open env (pred (n_request w)) name with
    | Some e => (inl e, w)
    | None => (inr tt, {| events := events w ++ [FileOpen name];
                          files := <[name := []]> (files w);
                          n_connect := n_connect w; n_request := n_request w |})
    end.

(** [f.write(chunk)] *)
Definition write (name : string) (chunk : bytes) : M unit :=
  fun w => (inr tt, {| events := events w ++ [FileWrite name chunk];
                        files := alter (fun old => old ++ chunk) name (files w);
                        n_connect := n_connect w; n_request := n_request w |}).

(** [with open(name, mode = 'wb') as f: m]: the file is closed on every
    way out of the block once it is open. *)
Definition with_open {A} (name : string) (m : M A) : M A :=
  open_wb name ;; try_finally m (emit (FileClose name)).

(** The two nested [while] loops of [get_content] over what the reads of
    the body do; the result is what is left of [content_length]. *)
Fixpoint stream (name : string) (steps : list ReadStep) (content_length : Z) : M Z :=
  match steps with
  | [] => emit (ResponseRead (Some 4096)) ;; ret content_length
  | ReadRaises e :: _ => emit (ResponseRead (Some 4096)) ;; raise e
  | ReadReturns [] closed :: rest =>
      emit (ResponseRead (Some 4096)) ;;
      if (content_length <=? 0) || closed then ret content_length
      else stream name rest content_length
  | ReadReturns chunk closed :: rest =>
      emit (ResponseRead (Some 4096)) ;;
      write name chunk ;;
      stream name rest (content_length - Z.of_nat (length chunk))
  end.

(** [response.read()]: the whole body is read and dropped; it raises when
    one of the reads does. *)
Fixpoint read_all_steps (steps : list ReadStep) : M unit :=
  match steps with
  | [] => ret tt
  | ReadRaises e :: _ => raise e
  | ReadReturns _ _ :: rest => read_all_steps rest
  end.

Definition read_all (steps : list ReadStep) : M unit :=
  emit (ResponseRead None) ;; read_all_steps steps.

(** ** get_content *)

(** [int(response.getheader('Content-Length'))]; the header is [None] when
    the response does not carry it. *)
Definition int_header (h : option string) : Exc Z :=
  match h with
  | Some v => int_exc v
  | None => inl (TypeError "int() argument must be a string, a bytes-like object or a real number, not 'NoneType'")
  end.

(** The exceptions of the first handler of [get_content]. *)
Definition is_timeout_or_disconnect (e : exn) : bool :=
  match e with
  | socket_timeout _ | RemoteDisconnected _ => true
  | _ => false
  end.

Definition print_exception (e : exn) : M unit :=
  print ("    Exception: <class '" +:+ exn_class e +:+ "'> " +:+ exn_str e).

Definition get_content (conn : Connection) (content_path file_path : string) : M bool :=
  print "----------------------------------------" ;;
  print (content_path +:+ " => " +:+ file_path) ;;
  try_except
    (response <- request_getresponse content_path ;;
     if status response <? 300 then
       content_length <- lift (int_header (content_length_header response)) ;;
       content_length <-
         with_open file_path (stream file_path (body response) content_length) ;;
       if negb (content_length =? 0) then
         print ("    ==> Disconnected: " +:+ str content_length +:+ " bytes remaining.") ;;
         ret true
       else ret false
     else
       print ("    ==> Result: " +:+ str (status response) +:+ " " +:+ reason response) ;;
       read_all (body response) ;;
       ret false)
    (fun e =>
       if is_timeout_or_disconnect e then print_exception e ;; ret true
       else print_exception e ;; ret false).

(** ** do_reconnecting *)

(** [range(a, -1, -1)]: [a], [a - 1], ..., [0]. *)
Definition range_down (a : Z) : list Z := reverse (seqZ 0 (a + 1)).

Definition default_interval : Z := 60 * 3.

Definition do_reconnecting (conn : Connection) (interval : Z) : M unit :=
  for_each (range_down interval) (fun s =>
    let unit_ := if s =? 1 then "" else "s" in
    print_noend ("        ==> Reconnect after " +:+ rjust " " 3 (str s) +:+
                 " second" +:+ unit_ +:+ "." +:+ carriage_return) ;;
    sleep 1) ;;
  connect conn ;;
  print "        ==> Reconnecting.                    ".

(** ** download *)

(** [template.replace('[*]', '{:>0' + str(digit) + '}').format(arg)].  When
    the template has no brace of its own, every marker has become a field
    that takes the next positional argument and pads it on the left with
    zeros: with one marker the argument is put in its place, with none the
    template is returned, and with two or more the second field finds no
    argument. *)
Definition format_path (template : string) (digit : nat) (arg : string) : Exc string :=
  let spec := "{:>0" +:+ str (Z.of_nat digit) +:+ "}" in
  if has_char "{" template || has_char "}" template then
    env_format env (replace marker spec template) arg
  else
    match count marker template with
    | O => inr template
    | S O => inr (replace marker (format_field digit arg) template)
    | _ => inl (IndexError "Replacement index 1 out of range for positional args tuple")
    end.

(** [for x in l: s = f s x], for a loop that updates a local variable. *)
Fixpoint for_fold {A S} (l : list A) (s : S) (f : S -> A -> M S) : M S :=
  match l with
  | [] => ret s
  | x :: l' => s' <- f s x ;; for_fold l' s' f
  end.

(** The body of the inner loop; [reconnect] is the local variable before
    the iteration and the result is its value after it. *)
Definition download_item (o : ParsedTarget) (conn : Connection) (digit : nat)
    (reconnect : bool) (i : Z) : M bool :=
  (if reconnect then do_reconnecting conn default_interval else ret tt) ;;
  path <- lift (format_path (path o) digit (str i)) ;;
  get_content conn path (basename path).

(** The body of the outer loop. *)
Definition download_range (o : ParsedTarget) (conn : Connection)
    (reconnect : bool) (r : string) : M bool :=
  digit <- lift (get_digit r) ;;
  items <- lift (parse_range r) ;;
  for_fold items reconnect (download_item o conn digit).

Definition default_port (c : Client) : Z :=
  match c with HTTPConnection => 80 | HTTPSConnection => 443 end.

(** Lines 178 to 184: the connection object is built and connected.  A
    scheme other than the two leaves [client] unbound.  With a port, the
    timeout is passed as the third positional argument, which
    [HTTPSConnection] does not take as a timeout: the call raises. *)
Definition open_connection (o : ParsedTarget) (verbose : bool) : M Connection :=
  client <-
    (if String.eqb (scheme o) "http" then ret HTTPConnection
     else if String.eqb (scheme o) "https" then ret HTTPSConnection
     else raise (UnboundLocalError "local variable 'client' referenced before assignment")) ;;
  let timeout := 60 * 5 in
  conn <-
    (if port o =? 0 then ret (mkConnection client (host o) (default_port client) timeout 0)
     else match client with
          | HTTPConnection => ret (mkConnection client (host o) (port o) timeout 0)
          | HTTPSConnection => raise (TypeError "HTTPSConnection.__init__() takes from 2 to 3 positional arguments but 4 were given")
          end) ;;
  let conn := if verbose
              then mkConnection (conn_class conn) (conn_host conn) (conn_port conn)
                                (conn_timeout conn) 1
              else conn in
  connect conn ;;
  print ("Connection: " +:+ scheme o +:+ "://" +:+ conn_host conn +:+ ":" +:+
         str (conn_port conn) +:+ "/") ;;
  ret conn.

(** Lines 186 to 197: the loops, their handler and the final close. *)
Definition fetch_all (o : ParsedTarget) (conn : Connection) : M unit :=
  try_finally
    (try_except
       (for_fold (ranges o) false (download_range o conn) ;; ret tt)
       (fun e => print (exn_str e)))
    (emit ConnClose).

Definition download_of (parsed_url : ParseResult) (verbose : bool) : M unit :=
  o <- lift (parse_url_of parsed_url) ;;
  conn <- open_connection o verbose ;;
  fetch_all o conn.

Definition download (url : string) (verbose : bool) : M unit :=
  download_of (urlparse url) verbose.

End Program.

(** The script ends after [download] returns: exit status 0.  An exception
    that leaves [download] ends the process with a traceback and status 1. *)
Definition exit_status {A} (r : Exc A) : Z :=
  match r with
  | inr _ => 0
  | inl _ => 1
  end.

(** The paths requested during a run, in order. *)
Definition requested (evs : list Event) : list string :=
  omap (fun e => match e with ConnRequest _ url => Some url | _ => None end) evs.

(** What a run added to the events of the world it started from. *)
Definition new_events (w w' : World) : list Event :=
  drop (length (events w)) (events w').

Definition is_sleep (e : Event) : bool :=
  match e with Sleep _ => true | _ => false end.

Definition is_connect (e : Event) : bool :=
  match e with ConnConnect _ => true | _ => false end.

Definition is_file_event (e : Event) : bool :=
  match e with FileOpen _ | FileWrite _ _ | FileClose _ => true | _ => false end.

(** Events that neither use the connection for a new request or a new
    connect, nor wait: output, reading the response at hand, files. *)
Definition is_local (e : Event) : bool :=
  match e with
  | Stdout _ | ConnGetResponse | ResponseRead _
  | FileOpen _ | FileWrite _ _ | FileClose _ => true
  | ConnConnect _ | ConnRequest _ _ | ConnClose | Sleep _ => false
  end.

(** ** The enumeration of a run *)

Fixpoint map_exc {A B} (f : A -> Exc B) (l : list A) : Exc (list B) :=
  match l with
  | [] => inr []
  | x :: l' =>
      match f x with
      | inl e => inl e
      | inr y => match map_exc f l' with
                 | inl e => inl e
                 | inr ys => inr (y :: ys)
                 end
      end
  end.

(** The numbers of one token as they are written into the path: lines 189,
    190 and the field of line 192. *)
Definition token_numbers (r : string) : Exc (list string) :=
  match get_digit r with
  | inl e => inl e
  | inr digit =>
      match parse_range r with
      | inl e => inl e
      | inr items => inr (map (fun i => format_field digit (str i)) items)
      end
  end.

(** The remote paths of one token, and of all the tokens of a target, in
    the order of the two loops of [download]. *)
Definition token_paths (env : Env) (o : ParsedTarget) (r : string) : Exc (list string) :=
  match get_digit r with
  | inl e => inl e
  | inr digit =>
      match parse_range r with
      | inl e => inl e
      | inr items => map_exc (fun i => format_path env (path o) digit (str i)) items
      end
  end.

Definition all_paths (env : Env) (o : ParsedTarget) : Exc (list string) :=
  match map_exc (token_paths env o) (ranges o) with
  | inl e => inl e
  | inr ls => inr (concat ls)
  end.

(** ** The outcome of one attempt, in the words of the specification

    [FetchOutcome] is the variant of section 3 of the specification, with
    the unexpected per-item error of section 7 added.  [fetch_outcome]
    reads the outcome off what the transport and the file system do with
    the attempt, without running the program; the theorems below compare
    [get_content] with it. *)
Inductive FetchOutcome : Type :=
  | Success
  | FailedIncomplete (bytesRemaining : Z)
  | FailedStatus (code : Z) (reason : string)
  | FailedConnection (error : exn)
  | UnexpectedPerItemError (error : exn).

Definition needs_reconnect (out : FetchOutcome) : bool :=
  match out with
  | FailedIncomplete _ | FailedConnection _ => true
  | _ => false
  end.

(** How the handlers of [get_content] sort an exception: the two classes
    of the first handler are a failed connection, every other exception is
    an unexpected error of the item.  What the specification calls a
    timeout or an abrupt disconnect is wider: see
    [timeout_or_abrupt_disconnect]. *)
Definition outcome_of_exn (e : exn) : FetchOutcome :=
  if is_timeout_or_disconnect e then FailedConnection e else UnexpectedPerItemError e.

(** The bytes a body delivers before the streaming loop stops, and what is
    then left of the declared length, or the exception of a read. *)
Fixpoint stream_result (steps : list ReadStep) (content_length : Z) : Exc (bytes * Z) :=
  match steps with
  | [] => inr ([], content_length)
  | ReadRaises e :: _ => inl e
  | ReadReturns [] closed :: rest =>
      if (content_length <=? 0) || closed then inr ([], content_length)
      else stream_result rest content_length
  | ReadReturns chunk closed :: rest =>
      match stream_result rest (content_length - Z.of_nat (length chunk)) with
      | inl e => inl e
      | inr (data, remaining) => inr (chunk ++ data, remaining)
      end
  end.

Fixpoint first_raise (steps : list ReadStep) : option exn :=
  match steps with
  | [] => None
  | ReadRaises e :: _ => Some e
  | ReadReturns _ _ :: rest => first_raise rest
  end.

Definition fetch_outcome (a : Attempt) (open_error : option exn) : FetchOutcome :=
  match a with
  | RequestRaises e | GetResponseRaises e => outcome_of_exn e
  | Responds r =>
      if status r <? 300 then
        match int_header (content_length_header r), open_error with
        | inl e, _ => outcome_of_exn e
        | inr _, Some e => outcome_of_exn e
        | inr n, None =>
            match stream_result (body r) n with
            | inl e => outcome_of_exn e
            | inr (_, remaining) => if remaining =? 0 then Success else FailedIncomplete remaining
            end
        end
      else
        match first_raise (body r) with
        | Some e => outcome_of_exn e
        | None => FailedStatus (status r) (reason r)
        end
  end.

(** ** Scripted environments for the examples *)

(** The requests are answered from a list and time out when it is used up;
    the calls of [connect] are answered from a second list and succeed when
    it is used up; a file opens unless its name is empty. *)
Definition scripted_env (attempts : list Attempt) (connects : list (option exn)) : Env :=
  {| env_connect := fun k => default None (connects !! k);
     env_attempt := fun k => default (RequestRaises (socket_timeout "timed out")) (attempts !! k);
     env_open := fun _ name =>
       if is_empty name then Some (OSError "[Errno 2] No such file or directory: ''")
       else None;
     env_format := fun _ _ => inl (ValueError "Single '}' encountered in format string") |}.

(** A response [200 OK] that declares [declared] bytes and delivers
    [sent] of them in one chunk before the stream ends. *)
Definition ok_response (declared sent : nat) : Attempt :=
  Responds (mkResponse 200 "OK" (Some (str (Z.of_nat declared)))
                       [ReadReturns (replicate sent Byte.x00) false]).

Definition not_found : Attempt :=
  Responds (mkResponse 404 "Not Found" (Some "0") []).

(** ** Definitions used in the statements *)

(** A string that cannot continue a bracket match begun before it: it is
    empty, or starts with a character that is neither in the class nor the
    closing bracket. *)
Definition blocks (b : string) : bool :=
  match b with
  | EmptyString => true
  | String c _ => negb (in_class c) && negb (Ascii.eqb c "]")
  end.

Definition prepend (a : string) (m : string * string * string) : string * string * string :=
  match m with (p, i, r) => (a +:+ p, i, r) end.

(** The value of a string of decimal digits, read from the left. *)
Fixpoint decimal_value (acc : Z) (s : string) : Z :=
  match s with
  | EmptyString => acc
  | String c t => decimal_value (10 * acc + digit_val c) t
  end.

(** Text of a URL path that the format step leaves alone: no brace and no
    marker. *)
Definition plain (s : string) : bool :=
  negb (has_char "{" s) && negb (has_char "}" s) && Nat.eqb (count marker s) 0.

(** The world after some more events. *)
Definition emit_all (evs : list Event) (w : World) : World :=
  {| events := events w ++ evs; files := files w;
     n_connect := n_connect w; n_request := n_request w |}.

(** What one turn of the countdown loop does: the line, then one second of
    sleep. *)
Definition tick (s : Z) : list Event :=
  [Stdout ("        ==> Reconnect after " +:+ rjust " " 3 (str s) +:+ " second" +:+
           (if s =? 1 then "" else "s") +:+ "." +:+ carriage_return);
   Sleep 1].

Definition countdown_events (interval : Z) : list Event :=
  flat_map tick (range_down interval).

(** The world when the countdown is over and [conn.connect()] has been
    called. *)
Definition after_connect (conn : Connection) (evs : list Event) (w : World) : World :=
  {| events := events w ++ evs ++ [ConnConnect conn]; files := files w;
     n_connect := S (n_connect w); n_request := n_request w |}.

(** The seconds of sleep among some events. *)
Definition seconds_slept (evs : list Event) : Z :=
  foldr (fun e acc => match e with Sleep s => s + acc | _ => acc end) 0 evs.

(** The two lines that announce an attempt, and its request. *)
Definition announce (content_path file_path : string) : list Event :=
  [Stdout ("----------------------------------------" +:+ newline);
   Stdout ((content_path +:+ " => " +:+ file_path) +:+ newline);
   ConnRequest "GET" content_path].

Definition exception_line (e : exn) : Event :=
  Stdout (("    Exception: <class '" +:+ exn_class e +:+ "'> " +:+ exn_str e) +:+ newline).

Definition result_line (r : Response) : Event :=
  Stdout (("    ==> Result: " +:+ str (status r) +:+ " " +:+ reason r) +:+ newline).

Definition disconnected_line (remaining : Z) : Event :=
  Stdout (("    ==> Disconnected: " +:+ str remaining +:+ " bytes remaining.") +:+ newline).

(** The world after an attempt that touched no file: the attempt was
    announced, the request was made, [tail] followed. *)
Definition attempted (content_path file_path : string) (tail : list Event) (w : World) : World :=
  {| events := events w ++ announce content_path file_path ++ tail;
     files := files w;
     n_connect := n_connect w;
     n_request := S (n_request w) |}.

(** The world when the destination file has just been opened. *)
Definition opened (content_path file_path : string) (w : World) : World :=
  {| events := events w ++ announce content_path file_path ++ [ConnGetResponse; FileOpen file_path];
     files := <[file_path := []]> (files w);
     n_connect := n_connect w;
     n_request := S (n_request w) |}.

(** A run from [w] to [w'] that only added local events: no request, no
    connect, no sleep. *)
Definition local_extension (w w' : World) : Prop :=
  (exists evs, events w' = events w ++ evs /\ Forall (fun e => is_local e = true) evs) /\
  n_connect w' = n_connect w /\ n_request w' = n_request w.

(** The world after a chunk was read and written. *)
Definition written (name : string) (chunk : bytes) (w : World) : World :=
  {| events := events w ++ [ResponseRead (Some 4096); FileWrite name chunk];
     files := alter (fun old => old ++ chunk) name (files w);
     n_connect := n_connect w; n_request := n_request w |}.

(** Does the attempt get as far as opening the destination file? *)
Definition opens_file (a : Attempt) (open_error : option exn) : bool :=
  match a with
  | Responds r =>
      (status r <? 300) &&
      match int_header (content_length_header r), open_error with
      | inr _, None => true
      | _, _ => false
      end
  | _ => false
  end.

(** What holds of the result of [get_content], whatever the attempt:
    the flag is that of the outcome; the attempt is announced, the request
    is made, and only local events follow; the counters move by one
    request; no file but the destination changes; and the destination is
    opened, after the response has arrived, exactly when [opens_file]
    says so. *)
Definition get_content_post (a : Attempt) (oe : option exn) (cp fp : string)
    (w : World) (res : Exc bool * World) : Prop :=
  fst res = inr (needs_reconnect (fetch_outcome a oe)) /\
  (exists tail,
     events (snd res) = events w ++ announce cp fp ++ tail /\
     Forall (fun e => is_local e = true) tail /\
     (opens_file a oe = false -> Forall (fun e => is_file_event e = false) tail) /\
     (opens_file a oe = true ->
      exists tail', tail = ConnGetResponse :: FileOpen fp :: tail')) /\
  n_connect (snd res) = n_connect w /\
  n_request (snd res) = S (n_request w) /\
  (forall other, other <> fp -> files (snd res) !! other = files w !! other) /\
  (opens_file a oe = false -> files (snd res) = files w).

Definition reconnecting_line : Event :=
  Stdout ("        ==> Reconnecting.                    " +:+ newline).

(** The world after a countdown and a [connect] that returned. *)
Definition reconnected (conn : Connection) (w : World) : World :=
  emit_all [reconnecting_line] (after_connect conn (countdown_events default_interval) w).

Definition is_wait_or_connect (e : Event) : bool := is_sleep e || is_connect e.

(** A step from [w] to [w'] that only added events. *)
Definition grows (w w' : World) : Prop := exists evs, events w' = events w ++ evs.

Definition connection_line (o : ParsedTarget) (conn : Connection) : Event :=
  Stdout (("Connection: " +:+ scheme o +:+ "://" +:+ conn_host conn +:+ ":" +:+
           str (conn_port conn) +:+ "/") +:+ newline).

Definition is_digit_or_dash (c : ascii) : bool := is_digit c || Ascii.eqb c "-".

(** A read of the body, or a write to the file [name]. *)
Definition is_body_event (name : string) (e : Event) : bool :=
  match e with
  | ResponseRead _ => true
  | FileWrite n _ => String.eqb n name
  | _ => false
  end.

(** A step that added events, none of them the close of the connection,
    and changed no file but those named after a path it requested. *)
Definition step_ok (w w' : World) : Prop :=
  exists evs,
    events w' = events w ++ evs /\
    Forall (fun e => e <> ConnClose) evs /\
    (forall name, name ∉ basename <$> requested evs ->
                  files w' !! name = files w !! name).

(** The requests of a step that was to request [ps]: all of them when the
    step returned; a first part of them when it raised, and then what it
    raised is the exception of a connect. *)
Definition requests_upto (env : Env) (ps : list string) {A}
    (res : Exc A * World) (w : World) : Prop :=
  exists evs,
    events (snd res) = events w ++ evs /\
    match fst res with
    | inr _ => requested evs = ps
    | inl e => requested evs `prefix_of` ps /\ exists k, env_connect env k = Some e
    end.

(** A step that added events without a wait or a connect among them. *)
Definition no_wait (w w' : World) : Prop :=
  exists evs, events w' = events w ++ evs /\
              Forall (fun e => is_wait_or_connect e = false) evs.

Definition not_slash (c : ascii) : bool := negb (Ascii.eqb c "/").

(** ** The reconnect policy, in the words of the specification *)

(** The steps of a run that the policy is about: the waits, the connects,
    the requests and the close of the connection.  What is printed, and
    what is done with a response or a file, is left out. *)
Definition is_step (e : Event) : bool :=
  match e with
  | Sleep _ | ConnConnect _ | ConnRequest _ _ | ConnClose => true
  | _ => false
  end.

Definition steps (evs : list Event) : list Event := List.filter is_step evs.

(** Does the attempt number [n], made for the path [p], end with an outcome
    that asks for a reconnect? *)
Definition flagged (env : Env) (n : nat) (p : string) : bool :=
  needs_reconnect (fetch_outcome (env_attempt env n) (env_open env n (basename p))).

(** The steps the policy asks for while the paths [ps] are fetched in
    order, each once.  [flag] tells whether the item before asked for a
    reconnect; [n] and [c] count the requests and the connects made so
    far.  A reconnect is 181 sleeps of one second and then a connect; it
    comes before the request of the next path, and so there is none after
    the last path; when the connect raises, nothing more is requested. *)
Fixpoint policy_steps (env : Env) (conn : Connection) (flag : bool) (n c : nat)
    (ps : list string) : list Event :=
  match ps with
  | [] => []
  | p :: ps' =>
      if flag then
        replicate 181 (Sleep 1) ++
        ConnConnect conn ::
        match env_connect env c with
        | Some _ => []
        | None =>
            ConnRequest "GET" p ::
            policy_steps env conn (flagged env n p) (S n) (S c) ps'
        end
      else
        ConnRequest "GET" p :: policy_steps env conn (flagged env n p) (S n) c ps'
  end.

(** A timeout or an abrupt disconnect of the peer, as section 4.3 of the
    specification has it: the two classes that the handler of [get_content]
    names, and the reset of the connection by the peer. *)
Definition timeout_or_abrupt_disconnect (e : exn) : bool :=
  match e with
  | socket_timeout _ | RemoteDisconnected _ | ConnectionResetError _ => true
  | _ => false
  end.

(** The body of the inner loop of [download] for a path that the format
    step has returned. *)
Definition fetch_item (env : Env) (conn : Connection) (reconnect : bool) (p : string) : M bool :=
  ((if reconnect then do_reconnecting env conn default_interval else ret tt) ;;
   get_content env conn p (basename p))%M.

(** * Properties *)

(** ** Strings *)

#[local] Arguments String.append !_ _ / : simpl nomatch.

Lemma append_nil_r (s : string) : s +:+ "" = s.
Proof. induction s as [|c t IH]; simpl; [reflexivity | now rewrite IH]. Qed.

Lemma append_assoc (a b c : string) : (a +:+ b) +:+ c = a +:+ (b +:+ c).
Proof. induction a as [|x a IH]; simpl; [reflexivity | now rewrite IH]. Qed.

Lemma length_append (a b : string) :
  String.length (a +:+ b) = (String.length a + String.length b)%nat.
Proof. induction a as [|x a IH]; simpl; [reflexivity | now rewrite IH]. Qed.

Lemma all_chars_append p (a b : string) :
  all_chars p (a +:+ b) = all_chars p a && all_chars p b.
Proof.
  induction a as [|x a IH]; simpl; [reflexivity|].
  rewrite IH. now rewrite andb_assoc.
Qed.

Lemma all_chars_impl (p q : ascii -> bool) (s : string) :
  (forall c, p c = true -> q c = true) -> all_chars p s = true -> all_chars q s = true.
Proof.
  intros Hpq. induction s as [|c t IH]; simpl; [reflexivity|].
  intros [Hc Ht]%andb_true_iff. rewrite (Hpq _ Hc). simpl. auto.
Qed.

(** *** span *)

Lemma span_all p (a b : string) :
  all_chars p a = true ->
  span p (a +:+ b) = (a +:+ fst (span p b), snd (span p b)).
Proof.
  induction a as [|x a IH]; simpl.
  - intros _. now destruct (span p b).
  - intros [Hx Ha]%andb_true_iff. rewrite Hx, (IH Ha). reflexivity.
Qed.

Lemma span_stops p (a b : string) x c y :
  span p a = (x, String c y) -> span p (a +:+ b) = (x, String c y +:+ b).
Proof.
  revert x. induction a as [|d a IH]; simpl; intros x H.
  - discriminate.
  - destruct (p d).
    + destruct (span p a) as [x' y'] eqn:E. injection H as <- ->.
      now rewrite (IH x' eq_refl).
    + injection H as <- <- <-. reflexivity.
Qed.

Lemma span_whole p (a : string) x :
  span p a = (x, EmptyString) -> all_chars p a = true /\ x = a.
Proof.
  revert x. induction a as [|d a IH]; simpl; intros x H.
  - injection H as <-. auto.
  - destruct (p d); [|discriminate].
    destruct (span p a) as [x' y'] eqn:E. injection H as <- ->.
    destruct (IH x' eq_refl) as [-> ->]. auto.
Qed.

Lemma span_head_false p c (t : string) :
  p c = false -> span p (String c t) = (EmptyString, String c t).
Proof. intros H. simpl. now rewrite H. Qed.

(** *** The bracket pattern *)

Lemma match_bracket_append_none c (t b : string) :
  match_bracket (String c t) = None -> blocks b = true ->
  match_bracket (String c t +:+ b) = None.
Proof.
  intros H Hb. destruct b as [|d b]; [now rewrite append_nil_r|].
  simpl in Hb. apply andb_true_iff in Hb as [Hd1 Hd2].
  apply negb_true_iff in Hd1, Hd2.
  unfold match_bracket in *. simpl String.append.
  destruct (Ascii.eqb c "[") eqn:Ec.
  - apply Ascii.eqb_eq in Ec as ->.
    destruct (span in_class t) as [x y] eqn:E. destruct y as [|e y].
    + apply span_whole in E as [Ht ->]. rewrite (span_all _ _ _ Ht).
      rewrite (span_head_false _ _ _ Hd1). simpl. rewrite append_nil_r.
      destruct t; [reflexivity|].
      destruct d as [[] [] [] [] [] [] [] []]; try reflexivity; discriminate.
    + rewrite (span_stops _ _ (String d b) _ _ _ E). simpl.
      destruct x; [reflexivity|].
      destruct e as [[] [] [] [] [] [] [] []]; try reflexivity; discriminate.
  - destruct c as [[] [] [] [] [] [] [] []]; try reflexivity; discriminate.
Qed.

Lemma search_bracket_cons c (t : string) :
  search_bracket (String c t) =
  match match_bracket (String c t) with
  | Some (inner, rest) => Some (EmptyString, inner, rest)
  | None => match search_bracket t with
            | Some (pre, inner, rest) => Some (String c pre, inner, rest)
            | None => None
            end
  end.
Proof. reflexivity. Qed.

Lemma search_bracket_append (s b : string) :
  search_bracket s = None -> blocks b = true ->
  search_bracket (s +:+ b) = prepend s <$> search_bracket b.
Proof.
  induction s as [|c t IH]; intros H Hb.
  - simpl. destruct (search_bracket b) as [[[p i] r]|]; reflexivity.
  - rewrite search_bracket_cons in H.
    destruct (match_bracket (String c t)) as [[i r]|] eqn:Em; [discriminate|].
    destruct (search_bracket t) as [[[p i] r]|] eqn:Et; [discriminate|].
    change (String c t +:+ b) with (String c (t +:+ b)).
    rewrite search_bracket_cons.
    change (String c (t +:+ b)) with (String c t +:+ b).
    rewrite (match_bracket_append_none _ _ _ Em Hb), (IH eq_refl Hb).
    destruct (search_bracket b) as [[[p i] r]|]; reflexivity.
Qed.

Lemma match_bracket_open (t : string) :
  match_bracket (String "[" t) =
  match span in_class t with
  | (String c r, String "]" rest) => Some (String c r, rest)
  | _ => None
  end.
Proof. reflexivity. Qed.

Lemma match_bracket_region (inner after : string) :
  inner <> EmptyString -> all_chars in_class inner = true ->
  match_bracket ("[" +:+ inner +:+ "]" +:+ after) = Some (inner, after).
Proof.
  intros Hne Hall.
  change ("[" +:+ inner +:+ "]" +:+ after) with (String "[" (inner +:+ "]" +:+ after)).
  rewrite match_bracket_open, (span_all _ _ _ Hall).
  change (span in_class ("]" +:+ after)) with (EmptyString, String "]" after).
  simpl. rewrite append_nil_r. destruct inner; [congruence | reflexivity].
Qed.

(** The first bracketed region of a path is found where it is. *)
Lemma search_bracket_region (before inner after : string) :
  search_bracket before = None ->
  inner <> EmptyString -> all_chars in_class inner = true ->
  search_bracket (before +:+ "[" +:+ inner +:+ "]" +:+ after) = Some (before, inner, after).
Proof.
  intros Hb Hne Hall.
  rewrite (search_bracket_append _ _ Hb) by reflexivity.
  change ("[" +:+ inner +:+ "]" +:+ after) with (String "[" (inner +:+ "]" +:+ after)).
  rewrite search_bracket_cons.
  change (String "[" (inner +:+ "]" +:+ after)) with ("[" +:+ inner +:+ "]" +:+ after).
  rewrite (match_bracket_region _ _ Hne Hall). simpl. now rewrite append_nil_r.
Qed.

(** An empty pair of brackets is no match, and the search goes on after
    it. *)
Lemma search_bracket_empty_pair (before after : string) :
  search_bracket before = None ->
  search_bracket (before +:+ "[]" +:+ after) = prepend (before +:+ "[]") <$> search_bracket after.
Proof.
  intros Hb. rewrite (search_bracket_append _ _ Hb) by reflexivity.
  change ("[]" +:+ after) with (String "[" (String "]" after)).
  rewrite search_bracket_cons, match_bracket_open.
  change (span in_class (String "]" after)) with (EmptyString, String "]" after).
  cbv iota beta. rewrite search_bracket_cons.
  change (match_bracket (String "]" after)) with (@None (string * string)).
  cbv iota beta.
  destruct (search_bracket after) as [[[p i] r]|]; simpl; [|reflexivity].
  now rewrite append_assoc.
Qed.

(** *** strip, split and join *)

Lemma in_class_not_space c : in_class c = true -> is_space c = false.
Proof.
  destruct c as [[] [] [] [] [] [] [] []]; vm_compute; congruence.
Qed.

Lemma lstrip_id (s : string) :
  all_chars (fun c => negb (is_space c)) s = true -> lstrip s = s.
Proof.
  destruct s as [|c t]; simpl; [reflexivity|].
  intros [Hc _]%andb_true_iff. apply negb_true_iff in Hc. now rewrite Hc.
Qed.

Lemma rstrip_id (s : string) :
  all_chars (fun c => negb (is_space c)) s = true -> rstrip s = s.
Proof.
  induction s as [|c t IH]; simpl; [reflexivity|].
  intros [Hc Ht]%andb_true_iff. apply negb_true_iff in Hc.
  rewrite (IH Ht), Hc. now destruct t.
Qed.

Lemma strip_id (s : string) :
  all_chars (fun c => negb (is_space c)) s = true -> strip s = s.
Proof. intros H. unfold strip. rewrite (lstrip_id _ H). now apply rstrip_id. Qed.

Lemma split_not_nil sep (s : string) : split sep s <> [].
Proof.
  induction s as [|c t IH]; simpl; [discriminate|].
  destruct (Ascii.eqb c sep); [discriminate|].
  destruct (split sep t); [congruence | discriminate].
Qed.

(** The fields of a split, put together again with the separator, are the
    string that was split: no field is lost and none changes place. *)
Lemma join_split sep (s : string) : join (String sep "") (split sep s) = s.
Proof.
  induction s as [|c t IH]; simpl; [reflexivity|].
  pose proof (split_not_nil sep t) as Hne.
  destruct (Ascii.eqb c sep) eqn:E.
  - apply Ascii.eqb_eq in E as ->.
    destruct (split sep t) as [|f fs]; [congruence|].
    change (join (String sep "") ("" :: f :: fs))
      with (String sep (join (String sep "") (f :: fs))).
    now rewrite IH.
  - destruct (split sep t) as [|f fs]; [congruence|].
    destruct fs as [|g fs].
    + simpl in *. now rewrite IH.
    + change (join (String sep "") (String c f :: g :: fs))
        with (String c (join (String sep "") (f :: g :: fs))).
      now rewrite IH.
Qed.

Lemma split_fields p sep (s : string) :
  all_chars p s = true -> Forall (fun f => all_chars p f = true) (split sep s).
Proof.
  induction s as [|c t IH]; simpl.
  - intros _. repeat constructor.
  - intros [Hc Ht]%andb_true_iff. specialize (IH Ht).
    destruct (Ascii.eqb c sep).
    + constructor; [reflexivity | exact IH].
    + destruct (split sep t) as [|f fs]; [repeat constructor; simpl; now rewrite Hc|].
      inversion IH; subst. constructor; [simpl; now rewrite Hc | assumption].
Qed.

Lemma split_no_sep sep (s : string) :
  Forall (fun f => has_char sep f = false) (split sep s).
Proof.
  induction s as [|c t IH]; simpl.
  - repeat constructor.
  - destruct (Ascii.eqb c sep) eqn:E.
    + constructor; [reflexivity | exact IH].
    + destruct (split sep t) as [|f fs].
      * repeat constructor. unfold has_char. simpl. now rewrite E.
      * inversion IH; subst. constructor; [|assumption].
        unfold has_char in *. simpl. rewrite E. simpl. assumption.
Qed.

(** Inside a bracket match there is nothing to strip: the tokens are the
    fields between the commas that are not empty. *)
Lemma range_tokens_filter (inner : string) :
  all_chars in_class inner = true ->
  range_tokens inner = filter (fun x : string => x <> EmptyString) (split "," inner).
Proof.
  intros H. unfold range_tokens.
  pose proof (split_fields _ "," _ H) as Hf.
  induction Hf as [|f fs Hf _ IH]; [reflexivity|].
  assert (strip f = f) as Hs.
  { apply strip_id. eapply all_chars_impl; [|exact Hf].
    intros c Hc. now rewrite (in_class_not_space _ Hc). }
  rewrite filter_cons. cbn [omap list_omap].
  rewrite Hs, IH.
  destruct f; simpl.
  - destruct (decide ("" <> "")); [congruence | reflexivity].
  - destruct (decide (String a f <> "")); [reflexivity | exfalso; auto].
Qed.

(** *** count and replace *)

#[local] Arguments Ascii.eqb : simpl never.

Lemma strip_prefix_length (p s r : string) :
  strip_prefix p s = Some r ->
  String.length s = (String.length p + String.length r)%nat.
Proof.
  revert s. induction p as [|a p IH]; intros s; simpl.
  - now intros [= ->].
  - destruct s as [|b s]; [discriminate|].
    destruct (Ascii.eqb a b); [|discriminate].
    intros H. simpl. now rewrite (IH _ H).
Qed.

Lemma count_from_fuel (sub : string) :
  sub <> EmptyString ->
  forall (f1 f2 : nat) (s : string),
    (String.length s < f1)%nat -> (String.length s < f2)%nat ->
    count_from f1 sub s = count_from f2 sub s.
Proof.
  intros Hsub. induction f1 as [|f1 IH]; intros f2 s H1 H2; [lia|].
  destruct f2 as [|f2]; [lia|]. simpl.
  destruct (strip_prefix sub s) as [r|] eqn:E.
  - apply strip_prefix_length in E.
    assert (String.length sub <> 0)%nat by (destruct sub; simpl; congruence).
    f_equal. apply IH; lia.
  - destruct s as [|c t]; [reflexivity|]. simpl in *. apply IH; lia.
Qed.

Lemma replace_from_absent (old new : string) :
  forall (fuel : nat) (s : string),
    count_from fuel old s = O -> replace_from fuel old new s = s.
Proof.
  induction fuel as [|fuel IH]; intros s; simpl; [reflexivity|].
  destruct (strip_prefix old s); [discriminate|].
  destruct s as [|c t]; [reflexivity|]. intros H. now rewrite (IH _ H).
Qed.

Lemma count_from_S (fuel : nat) (sub s : string) :
  count_from (S fuel) sub s =
  match strip_prefix sub s with
  | Some rest => S (count_from fuel sub rest)
  | None => match s with
            | EmptyString => O
            | String _ t => count_from fuel sub t
            end
  end.
Proof. reflexivity. Qed.

Lemma replace_from_S (fuel : nat) (old new s : string) :
  replace_from (S fuel) old new s =
  match strip_prefix old s with
  | Some rest => new +:+ replace_from fuel old new rest
  | None => match s with
            | EmptyString => EmptyString
            | String c t => String c (replace_from fuel old new t)
            end
  end.
Proof. reflexivity. Qed.

Lemma strip_prefix_append (p r : string) : strip_prefix p (p +:+ r) = Some r.
Proof.
  induction p as [|a p IH]; simpl; [reflexivity|].
  now rewrite Ascii.eqb_refl.
Qed.

Lemma count_cons_zero c (t : string) :
  count marker (String c t) = O ->
  strip_prefix marker (String c t) = None /\ count marker t = O.
Proof.
  unfold count. simpl String.length. rewrite count_from_S.
  destruct (strip_prefix marker (String c t)); [discriminate | auto].
Qed.

(** A marker that starts in the text before an inserted marker ends in that
    text: none runs over into the inserted one. *)
Lemma marker_head_append c (t rest : string) :
  strip_prefix marker (String c t) = None ->
  strip_prefix marker (String c t +:+ marker +:+ rest) = None.
Proof.
  unfold marker. simpl.
  destruct (Ascii.eqb "[" c); [|reflexivity].
  destruct t as [|b t]; [reflexivity|]. simpl.
  destruct (Ascii.eqb "*" b); [|reflexivity].
  destruct t as [|d t]; [reflexivity|]. simpl.
  destruct (Ascii.eqb "]" d); [discriminate | reflexivity].
Qed.

Lemma count_marker_insert (before after : string) :
  count marker before = O ->
  count marker (before +:+ marker +:+ after) = S (count marker after).
Proof.
  induction before as [|c t IH]; intros H.
  - unfold count. change ("" +:+ marker +:+ after) with (marker +:+ after).
    rewrite count_from_S, strip_prefix_append. f_equal.
    apply count_from_fuel; [discriminate | rewrite length_append; simpl; lia | lia].
  - apply count_cons_zero in H as [Hh Ht].
    rewrite <- (IH Ht). unfold count.
    pose proof (marker_head_append _ _ after Hh) as Hh'.
    replace (String c t +:+ marker +:+ after)
      with (String c (t +:+ marker +:+ after)) in * by reflexivity.
    set (u := t +:+ marker +:+ after) in *.
    change (String.length (String c u)) with (S (String.length u)).
    rewrite count_from_S, Hh'. reflexivity.
Qed.

Lemma replace_marker_insert (new before after : string) :
  count marker before = O -> count marker after = O ->
  replace marker new (before +:+ marker +:+ after) = before +:+ new +:+ after.
Proof.
  intros Hb Ha. induction before as [|c t IH].
  - unfold replace. change ("" +:+ marker +:+ after) with (marker +:+ after).
    rewrite replace_from_S, strip_prefix_append.
    change ("" +:+ new +:+ after) with (new +:+ after). f_equal.
    apply replace_from_absent.
    rewrite <- Ha. apply count_from_fuel;
      [discriminate | rewrite length_append; simpl; lia | lia].
  - apply count_cons_zero in Hb as [Hh Ht]. specialize (IH Ht).
    unfold replace in *.
    pose proof (marker_head_append _ _ after Hh) as Hh'.
    replace (String c t +:+ marker +:+ after)
      with (String c (t +:+ marker +:+ after)) in * by reflexivity.
    set (u := t +:+ marker +:+ after) in *.
    change (String.length (String c u)) with (S (String.length u)).
    rewrite replace_from_S, Hh', IH. reflexivity.
Qed.

Lemma split_commas (s : string) :
  all_chars (fun c => Ascii.eqb c ",") s = true ->
  split "," s = replicate (S (String.length s)) EmptyString.
Proof.
  induction s as [|c t IH]; simpl; [reflexivity|].
  intros [Hc Ht]%andb_true_iff. now rewrite Hc, (IH Ht).
Qed.

Lemma range_tokens_commas (s : string) :
  all_chars (fun c => Ascii.eqb c ",") s = true -> range_tokens s = [].
Proof.
  intros H. unfold range_tokens. rewrite (split_commas _ H).
  generalize (S (String.length s)). induction n as [|n IH]; [reflexivity|].
  exact IH.
Qed.

Lemma commas_in_class (s : string) :
  all_chars (fun c => Ascii.eqb c ",") s = true -> all_chars in_class s = true.
Proof.
  apply all_chars_impl. intros c Hc. unfold in_class. rewrite Hc.
  now rewrite orb_true_r.
Qed.

(** ** parse_url *)

(** C7, as the code has it.  When the path is [before[inner]after], with
    [inner] made of digits, commas and hyphens and no such region in
    [before], and the port, if there is one, is a number, [parse_url]
    returns the path with that region replaced by the marker, and the
    tokens are the non-empty fields of [inner] between its commas, in their
    order: the fields joined by commas are [inner] again.  The template has
    exactly one marker when the text around the region has none. *)
Theorem parse_url_template_and_tokens
    (parsed_url : ParseResult) (before inner after : string) (p : Z) :
  pr_path parsed_url = before +:+ "[" +:+ inner +:+ "]" +:+ after ->
  search_bracket before = None ->
  inner <> EmptyString -> all_chars in_class inner = true ->
  parse_port (split ":" (pr_netloc parsed_url)) = inr p ->
  exists o : ParsedTarget,
    parse_url_of parsed_url = inr o /\
    path o = before +:+ marker +:+ after /\
    (count marker before = O -> count marker after = O ->
     count marker (path o) = 1%nat) /\
    ranges o = filter (fun x : string => x <> EmptyString) (split "," inner) /\
    join "," (split "," inner) = inner /\
    Forall (fun f => has_char "," f = false) (split "," inner).
Proof.
  intros Hpath Hfirst Hne Hall Hport.
  unfold parse_url_of. rewrite Hport, Hpath.
  rewrite (search_bracket_region _ _ _ Hfirst Hne Hall).
  eexists. split; [reflexivity|]. cbn [path ranges].
  split; [reflexivity|]. split.
  - intros Hb Ha. now rewrite (count_marker_insert _ _ Hb), Ha.
  - split; [now apply range_tokens_filter|].
    split; [apply join_split | apply split_no_sep].
Qed.

Lemma parse_url_template_and_tokens_witness :
  exists o : ParsedTarget,
    parse_url_of (urlparse "http://www.example.com/c[1,2-5,7,10-13,22-25].jpg") = inr o /\
    path o = "/c" +:+ marker +:+ ".jpg" /\
    (count marker "/c" = O -> count marker ".jpg" = O -> count marker (path o) = 1%nat) /\
    ranges o = filter (fun x : string => x <> EmptyString) (split "," "1,2-5,7,10-13,22-25") /\
    join "," (split "," "1,2-5,7,10-13,22-25") = "1,2-5,7,10-13,22-25" /\
    Forall (fun f => has_char "," f = false) (split "," "1,2-5,7,10-13,22-25").
Proof.
  apply (parse_url_template_and_tokens
           (urlparse "http://www.example.com/c[1,2-5,7,10-13,22-25].jpg")
           "/c" "1,2-5,7,10-13,22-25" ".jpg" 0);
    [reflexivity | reflexivity | discriminate | reflexivity | reflexivity].
Defined.

(** C7, as the claim states it, fails: a path that already holds the text
    of the marker gives a template with two markers, and a bracket that is
    not in the path of the URL is not looked at. *)
Lemma parse_url_two_markers :
  (exists o : ParsedTarget,
     parse_url "http://www.example.com/a[*]/b[1-2].jpg" = inr o /\
     path o = "/a[*]/b[*].jpg" /\
     ranges o = ["1-2"] /\
     count marker (path o) = 2%nat) /\
  parse_url "http://www.example.com/a.jpg?n=[1-2]" =
    inl (ValueError "The range is not specified.").
Proof. split; [eexists; repeat split | reflexivity]. Qed.

(** With two markers the format step has two fields for one argument:
    every item fails before its request. *)
Example two_markers_fetch_nothing :
  let env := scripted_env [ok_response 3 3; ok_response 3 3] [] in
  let res := download env "http://www.example.com/a[*]/b[1-2].jpg" false (initial_world ∅) in
  fst res = inr tt /\ requested (events (snd res)) = [] /\
  last (events (snd res)) = Some ConnClose /\
  events (snd res) !! 2%nat =
    Some (Stdout ("Replacement index 1 out of range for positional args tuple" +:+ newline)).
Proof. vm_compute. repeat split. Qed.

(** C8, as the code has it.  A bracket that holds nothing is not a range
    for [parse_url]: when no other region of the path matches, the call
    raises.  The parser returns no token only for a bracket that holds
    commas and nothing else. *)
Theorem parse_url_empty_bracket
    (parsed_url : ParseResult) (before commas after : string) (p : Z) :
  pr_path parsed_url = before +:+ "[" +:+ commas +:+ "]" +:+ after ->
  all_chars (fun c => Ascii.eqb c ",") commas = true ->
  search_bracket before = None ->
  (commas = EmptyString -> search_bracket after = None) ->
  parse_port (split ":" (pr_netloc parsed_url)) = inr p ->
  parse_url_of parsed_url =
    if is_empty commas then inl (ValueError "The range is not specified.")
    else inr {| scheme := pr_scheme parsed_url;
                host := hd EmptyString (split ":" (pr_netloc parsed_url));
                port := p;
                path := before +:+ marker +:+ after;
                ranges := [] |}.
Proof.
  intros Hpath Hcommas Hfirst Hafter Hport.
  unfold parse_url_of. rewrite Hport, Hpath.
  destruct commas as [|c commas].
  - change (before +:+ "[" +:+ "" +:+ "]" +:+ after) with (before +:+ "[]" +:+ after).
    rewrite (search_bracket_empty_pair _ _ Hfirst), (Hafter eq_refl). reflexivity.
  - rewrite (search_bracket_region _ _ _ Hfirst);
      [|discriminate | now apply commas_in_class].
    now rewrite (range_tokens_commas _ Hcommas).
Qed.

Lemma parse_url_empty_bracket_witness :
  parse_url_of (urlparse "http://www.example.com/a[].jpg") =
    inl (ValueError "The range is not specified.") /\
  parse_url_of (urlparse "http://www.example.com/a[,,].jpg") =
    inr {| scheme := "http"; host := "www.example.com"; port := 0;
           path := "/a[*].jpg"; ranges := [] |}.
Proof.
  split.
  - apply (parse_url_empty_bracket (urlparse "http://www.example.com/a[].jpg")
             "/a" "" ".jpg" 0); reflexivity.
  - apply (parse_url_empty_bracket (urlparse "http://www.example.com/a[,,].jpg")
             "/a" ",," ".jpg" 0); reflexivity.
Defined.

(** C8, as the claim states it, fails: with an empty bracket the parser
    does not return a target without tokens, it raises. *)
Lemma parse_url_empty_bracket_raises :
  parse_url "http://www.example.com/a[].jpg" =
    inl (ValueError "The range is not specified.").
Proof. reflexivity. Qed.

(** ** get_digit, parse_range and the padded numbers *)

Lemma is_digit_not_space c : is_digit c = true -> is_space c = false.
Proof. destruct c as [[] [] [] [] [] [] [] []]; vm_compute; congruence. Qed.

Lemma is_digit_not_sign c :
  is_digit c = true -> Ascii.eqb c "-" = false /\ Ascii.eqb c "+" = false.
Proof. destruct c as [[] [] [] [] [] [] [] []]; vm_compute; intuition congruence. Qed.

Lemma int_digits_decimal (s : string) :
  all_chars is_digit s = true ->
  forall acc prev, (s <> EmptyString \/ prev = true) ->
  int_digits acc prev s = Some (decimal_value acc s).
Proof.
  induction s as [|c t IH]; simpl; intros H acc prev Hne.
  - destruct Hne as [?| ->]; [congruence | reflexivity].
  - apply andb_true_iff in H as [Hc Ht]. rewrite Hc. apply IH; auto.
Qed.

Lemma strip_digits (s : string) : all_chars is_digit s = true -> strip s = s.
Proof.
  intros H. apply strip_id. eapply all_chars_impl; [|exact H].
  intros c Hc. now rewrite (is_digit_not_space _ Hc).
Qed.

Lemma int_body_digits (s : string) : all_chars is_digit s = true -> int_body s = s.
Proof.
  intros H. unfold int_body. rewrite (strip_digits _ H).
  destruct s as [|c t]; [reflexivity|].
  simpl in H. apply andb_true_iff in H as [Hc _].
  destruct c as [[] [] [] [] [] [] [] []]; try reflexivity; discriminate.
Qed.

Lemma count_digits_all (s : string) :
  all_chars is_digit s = true -> count_digits s = String.length s.
Proof.
  induction s as [|c t IH]; [reflexivity|]. simpl.
  intros [Hc Ht]%andb_true_iff. now rewrite Hc, (IH Ht).
Qed.

Lemma exceeds_limit_digits (s : string) :
  all_chars is_digit s = true ->
  exceeds_limit s = (int_max_str_digits <? Z.of_nat (String.length s)).
Proof.
  intros H. unfold exceeds_limit. now rewrite (int_body_digits _ H), (count_digits_all _ H).
Qed.

(** [int] on a group of digits: it fails exactly when the group is longer
    than the limit. *)
Lemma int_digits_limit (s : string) :
  s <> EmptyString -> all_chars is_digit s = true ->
  int s = if int_max_str_digits <? Z.of_nat (String.length s) then None
          else Some (decimal_value 0 s).
Proof.
  intros Hne H. unfold int. rewrite (exceeds_limit_digits _ H).
  destruct (int_max_str_digits <? Z.of_nat (String.length s)); [reflexivity|].
  rewrite (strip_digits _ H).
  destruct s as [|c t]; [congruence|].
  pose proof H as H'. simpl in H'. apply andb_true_iff in H' as [Hc _].
  destruct (is_digit_not_sign _ Hc) as [Hm Hp].
  assert (int_digits 0 false (String c t) = Some (decimal_value 0 (String c t))) as Hd
    by (apply int_digits_decimal; auto).
  destruct c as [[] [] [] [] [] [] [] []]; try exact Hd; discriminate.
Qed.



(** When [int] returns on a group of digits, the group is within the limit
    and the result is its value. *)
Lemma int_exc_digits_inv (s : string) (n : Z) :
  s <> EmptyString -> all_chars is_digit s = true ->
  int_exc s = inr n ->
  n = decimal_value 0 s /\ Z.of_nat (String.length s) <= int_max_str_digits.
Proof.
  intros Hne H. unfold int_exc. rewrite (int_digits_limit _ Hne H).
  destruct (int_max_str_digits <? Z.of_nat (String.length s)) eqn:E; [discriminate|].
  apply Z.ltb_ge in E. intros [= <-]. now split.
Qed.

(** On a group of digits that is too long [int] raises. *)
Lemma int_exc_digits_long (s : string) :
  s <> EmptyString -> all_chars is_digit s = true ->
  int_max_str_digits < Z.of_nat (String.length s) ->
  int_exc s = inl (ValueError (int_error s)).
Proof.
  intros Hne H Hl. unfold int_exc. rewrite (int_digits_limit _ Hne H).
  apply Z.ltb_lt in Hl. now rewrite Hl.
Qed.

Lemma span_digits_dash (a b : string) :
  all_chars is_digit a = true ->
  span is_digit (a +:+ "-" +:+ b) = (a, String "-" b).
Proof.
  intros Ha. rewrite (span_all _ _ _ Ha).
  change (span is_digit ("-" +:+ b)) with (EmptyString, String "-" b).
  simpl. now rewrite append_nil_r.
Qed.

Lemma fullmatch_range_dash (a b : string) :
  a <> EmptyString -> all_chars is_digit a = true ->
  b <> EmptyString -> all_chars is_digit b = true ->
  fullmatch_range (a +:+ "-" +:+ b) = Some (a, b).
Proof.
  intros Ha1 Ha2 Hb1 Hb2. unfold fullmatch_range.
  rewrite (span_digits_dash _ _ Ha2).
  destruct a as [|c a]; [congruence|]. destruct b as [|d b]; [congruence|].
  now rewrite Hb2.
Qed.

(** What [fullmatch_range] accepts, read backwards. *)
Lemma fullmatch_range_inv (s g0 g1 : string) :
  fullmatch_range s = Some (g0, g1) ->
  g0 <> EmptyString /\ g1 <> EmptyString /\
  all_chars is_digit g1 = true /\ g0 = fst (span is_digit s).
Proof.
  unfold fullmatch_range. destruct (span is_digit s) as [x y] eqn:E.
  destruct x as [|c x]; [discriminate|].
  destruct y as [|e y]; [discriminate|].
  destruct y as [|d y];
    [destruct e as [[] [] [] [] [] [] [] []]; discriminate|].
  destruct (all_chars is_digit (String d y)) eqn:Hd;
    [|destruct e as [[] [] [] [] [] [] [] []]; discriminate].
  intros H.
  assert (g0 = String c x /\ g1 = String d y) as [-> ->]
    by (destruct e as [[] [] [] [] [] [] [] []]; try discriminate;
        injection H as <- <-; auto).
  repeat split; try discriminate. exact Hd.
Qed.

Lemma fullmatch_digits_inv (s g : string) :
  fullmatch_digits s = Some g ->
  g = s /\ s <> EmptyString /\ all_chars is_digit s = true.
Proof.
  unfold fullmatch_digits. destruct s as [|c t]; [discriminate|].
  destruct (all_chars is_digit (String c t)) eqn:E; [|discriminate].
  intros [= <-]. repeat split; auto.
Qed.



(** *** Padding *)




(** *** The path of an item *)

Lemma has_char_append c (a b : string) :
  has_char c (a +:+ b) = has_char c a || has_char c b.
Proof. unfold has_char. now rewrite all_chars_append, negb_andb. Qed.

Lemma plain_inv (s : string) :
  plain s = true ->
  has_char "{" s = false /\ has_char "}" s = false /\ count marker s = O.
Proof.
  unfold plain. intros [[H1 H2]%andb_true_iff H3]%andb_true_iff.
  apply negb_true_iff in H1, H2. apply Nat.eqb_eq in H3. auto.
Qed.

(** In a template whose only special text is its one marker, the padded
    number takes the place of the marker. *)
Lemma format_path_plain (env : Env) (before after : string) (digit : nat) (arg : string) :
  plain before = true -> plain after = true ->
  format_path env (before +:+ marker +:+ after) digit arg =
    inr (before +:+ format_field digit arg +:+ after).
Proof.
  intros (Hb1 & Hb2 & Hb3)%plain_inv (Ha1 & Ha2 & Ha3)%plain_inv.
  unfold format_path.
  rewrite !has_char_append, Hb1, Hb2, Ha1, Ha2.
  change (has_char "{" marker) with false. change (has_char "}" marker) with false.
  cbv [orb]. rewrite (count_marker_insert _ _ Hb3), Ha3.
  now rewrite (replace_marker_insert _ _ _ Hb3 Ha3).
Qed.



Lemma decimal_value_nonneg (s : string) (acc : Z) :
  0 <= acc -> 0 <= decimal_value acc s.
Proof.
  revert acc. induction s as [|c t IH]; intros acc H; simpl; [exact H|].
  apply IH. assert (0 <= digit_val c) by
    (destruct c as [[] [] [] [] [] [] [] []]; vm_compute; discriminate).
  lia.
Qed.
















(** The first and the last number of the reversed token of the
    specification. *)
Example reversed_range_100_1 :
  exists numbers,
    token_numbers "100-1" = inr numbers /\ length numbers = 100%nat /\
    head numbers = Some "001" /\ last numbers = Some "100" /\
    numbers !! 9%nat = Some "010".
Proof. eexists. split; [reflexivity|]. vm_compute. repeat split. Qed.

(** A single number keeps its zeros. *)
Example singleton_0007 : token_numbers "0007" = inr ["0007"].
Proof. reflexivity. Qed.



(** ** The effectful code *)

Lemma emit_all_nil (w : World) : emit_all [] w = w.
Proof. destruct w. unfold emit_all. simpl. now rewrite app_nil_r. Qed.

Lemma emit_all_app (a b : list Event) (w : World) :
  emit_all b (emit_all a w) = emit_all (a ++ b) w.
Proof. unfold emit_all. simpl. now rewrite app_assoc. Qed.

Lemma emit_eq (e : Event) (w : World) : emit e w = (inr tt, emit_all [e] w).
Proof. reflexivity. Qed.

Lemma new_events_emit_all (evs : list Event) (w : World) :
  new_events w (emit_all evs w) = evs.
Proof. unfold new_events. simpl. now rewrite drop_app_length. Qed.

(** *** do_reconnecting *)

Lemma countdown_loop (l : list Z) (w : World) :
  for_each l (fun s =>
    let unit_ := if s =? 1 then "" else "s" in
    print_noend ("        ==> Reconnect after " +:+ rjust " " 3 (str s) +:+
                 " second" +:+ unit_ +:+ "." +:+ carriage_return) ;;
    sleep 1) w = (inr tt, emit_all (flat_map tick l) w).
Proof.
  revert w. induction l as [|s l IH]; intros w.
  - simpl. now rewrite emit_all_nil.
  - simpl for_each. unfold bind at 1. unfold bind at 1.
    unfold print_noend, sleep. rewrite !emit_eq, IH, !emit_all_app. reflexivity.
Qed.

Lemma do_reconnecting_eq (env : Env) (conn : Connection) (interval : Z) (w : World) :
  do_reconnecting env conn interval w =
  match env_connect env (n_connect w) with
  | Some e => (inl e, after_connect conn (countdown_events interval) w)
  | None =>
      (inr tt, emit_all [Stdout ("        ==> Reconnecting.                    " +:+ newline)]
                        (after_connect conn (countdown_events interval) w))
  end.
Proof.
  unfold do_reconnecting. unfold bind at 1. rewrite countdown_loop.
  unfold bind, connect, print, emit, emit_all, after_connect, countdown_events. simpl.
  destruct (env_connect env (n_connect w)); simpl; rewrite <- ?app_assoc; reflexivity.
Qed.

Lemma length_range_down (a : Z) : length (range_down a) = Z.to_nat (a + 1).
Proof. unfold range_down. now rewrite length_reverse, length_seqZ. Qed.

Lemma seconds_slept_ticks (l : list Z) :
  seconds_slept (flat_map tick l) = Z.of_nat (length l).
Proof.
  induction l as [|s l IH]; [reflexivity|].
  simpl flat_map. simpl length. unfold seconds_slept in *. simpl foldr.
  rewrite IH. lia.
Qed.

(** C9, what the code does.  The countdown loop runs for [interval],
    [interval - 1], ..., [0]: it prints [interval + 1] lines and sleeps
    [interval + 1] seconds, 181 with the default of 180, before it calls
    [connect] on the connection it was given. *)
Theorem do_reconnecting_waits_one_more (env : Env) (conn : Connection)
    (interval : Z) (w : World) :
  exists tail,
    new_events w (snd (do_reconnecting env conn interval w)) =
      countdown_events interval ++ ConnConnect conn :: tail /\
    length (range_down interval) = Z.to_nat (interval + 1) /\
    seconds_slept (countdown_events interval) = Z.of_nat (Z.to_nat (interval + 1)) /\
    seconds_slept (countdown_events default_interval) = 181 /\
    head (countdown_events default_interval) =
      Some (Stdout ("        ==> Reconnect after 180 seconds." +:+ carriage_return)) /\
    last (countdown_events default_interval) = Some (Sleep 1) /\
    (countdown_events default_interval) !! 360%nat =
      Some (Stdout ("        ==> Reconnect after   0 seconds." +:+ carriage_return)).
Proof.
  rewrite do_reconnecting_eq.
  exists (match env_connect env (n_connect w) with
          | Some _ => []
          | None => [Stdout ("        ==> Reconnecting.                    " +:+ newline)]
          end).
  split.
  - destruct (env_connect env (n_connect w)); unfold new_events, after_connect; simpl;
      rewrite <- ?app_assoc, drop_app_length; reflexivity.
  - split; [apply length_range_down|].
    split; [unfold countdown_events;
            now rewrite seconds_slept_ticks, length_range_down|].
    repeat split; vm_compute; reflexivity.
Qed.

(** *** get_content, case by case *)

Ltac run_get_content :=
  unfold get_content, request_getresponse, with_open, open_wb, read_all, try_except,
    try_finally, print_exception, print, lift, bind, ret, raise, emit, attempted,
    opened, announce, exception_line, result_line, disconnected_line, emit_all;
  cbn [events files n_connect n_request fst snd Nat.pred].

Ltac tidy_events :=
  cbn [events files n_connect n_request Nat.pred];
  rewrite <- ?app_assoc; cbn [app]; try reflexivity.

Lemma get_content_request_raises env conn cp fp w e :
  env_attempt env (n_request w) = RequestRaises e ->
  get_content env conn cp fp w =
    (inr (is_timeout_or_disconnect e), attempted cp fp [exception_line e] w).
Proof.
  intros H. run_get_content. rewrite H.
  destruct (is_timeout_or_disconnect e); tidy_events.
Qed.

Lemma get_content_getresponse_raises env conn cp fp w e :
  env_attempt env (n_request w) = GetResponseRaises e ->
  get_content env conn cp fp w =
    (inr (is_timeout_or_disconnect e),
     attempted cp fp [ConnGetResponse; exception_line e] w).
Proof.
  intros H. run_get_content. rewrite H. cbn [events files n_connect n_request].
  destruct (is_timeout_or_disconnect e); tidy_events.
Qed.

Lemma read_all_steps_eq (steps : list ReadStep) (w : World) :
  read_all_steps steps w =
    (match first_raise steps with Some e => inl e | None => inr tt end, w).
Proof.
  induction steps as [|[chunk closed|e] steps IH]; simpl; auto.
Qed.

Lemma get_content_status_error env conn cp fp w r :
  env_attempt env (n_request w) = Responds r ->
  300 <= status r ->
  get_content env conn cp fp w =
    match first_raise (body r) with
    | Some e =>
        (inr (is_timeout_or_disconnect e),
         attempted cp fp [ConnGetResponse; result_line r; ResponseRead None;
                          exception_line e] w)
    | None =>
        (inr false, attempted cp fp [ConnGetResponse; result_line r; ResponseRead None] w)
    end.
Proof.
  intros H Hs. run_get_content. rewrite H. cbn [events files n_connect n_request].
  destruct (status r <? 300) eqn:E; [lia|].
  cbn [events files n_connect n_request]. rewrite read_all_steps_eq.
  destruct (first_raise (body r)) as [e|].
  - destruct (is_timeout_or_disconnect e); tidy_events.
  - tidy_events.
Qed.

Lemma get_content_bad_length env conn cp fp w r e :
  env_attempt env (n_request w) = Responds r ->
  status r < 300 ->
  int_header (content_length_header r) = inl e ->
  get_content env conn cp fp w =
    (inr (is_timeout_or_disconnect e),
     attempted cp fp [ConnGetResponse; exception_line e] w).
Proof.
  intros H Hs Hh. run_get_content. rewrite H. cbn [events files n_connect n_request].
  destruct (status r <? 300) eqn:E; [|lia]. rewrite Hh.
  destruct (is_timeout_or_disconnect e); tidy_events.
Qed.

Lemma get_content_open_fails env conn cp fp w r n e :
  env_attempt env (n_request w) = Responds r ->
  status r < 300 ->
  int_header (content_length_header r) = inr n ->
  env_open env (n_request w) fp = Some e ->
  get_content env conn cp fp w =
    (inr (is_timeout_or_disconnect e),
     attempted cp fp [ConnGetResponse; exception_line e] w).
Proof.
  intros H Hs Hh Ho. run_get_content. rewrite H. cbn [events files n_connect n_request].
  destruct (status r <? 300) eqn:E; [|lia]. rewrite Hh.
  cbn [events files n_connect n_request Nat.pred]. rewrite Ho.
  destruct (is_timeout_or_disconnect e); tidy_events.
Qed.

Lemma get_content_streams env conn cp fp w r n :
  env_attempt env (n_request w) = Responds r ->
  status r < 300 ->
  int_header (content_length_header r) = inr n ->
  env_open env (n_request w) fp = None ->
  get_content env conn cp fp w =
    match stream fp (body r) n (opened cp fp w) with
    | (inr remaining, w') =>
        if remaining =? 0 then (inr false, emit_all [FileClose fp] w')
        else (inr true, emit_all [FileClose fp; disconnected_line remaining] w')
    | (inl e, w') =>
        (inr (is_timeout_or_disconnect e), emit_all [FileClose fp; exception_line e] w')
    end.
Proof.
  intros H Hs Hh Ho. run_get_content. rewrite H. cbn [events files n_connect n_request].
  destruct (status r <? 300) eqn:E; [|lia]. rewrite Hh.
  cbn [events files n_connect n_request Nat.pred]. rewrite Ho.
  rewrite <- !app_assoc. cbn [app].
  match goal with |- context [stream fp (body r) n ?w0] => destruct (stream fp (body r) n w0) as [[e|remaining] w'] end.
  - destruct (is_timeout_or_disconnect e); tidy_events.
  - destruct (remaining =? 0); cbn [negb]; tidy_events.
Qed.

(** *** The streaming loop *)

Lemma local_extension_refl (w : World) : local_extension w w.
Proof.
  split; [|auto]. exists []. split; [now rewrite app_nil_r | constructor].
Qed.

Lemma local_extension_trans (w1 w2 w3 : World) :
  local_extension w1 w2 -> local_extension w2 w3 -> local_extension w1 w3.
Proof.
  intros [(e1 & H1 & F1) [C1 R1]] [(e2 & H2 & F2) [C2 R2]].
  split; [|split; congruence].
  exists (e1 ++ e2). split; [rewrite H2, H1; now rewrite app_assoc|].
  now apply Forall_app.
Qed.

Lemma local_extension_emit_all (evs : list Event) (w : World) :
  Forall (fun e => is_local e = true) evs -> local_extension w (emit_all evs w).
Proof. intros H. split; [|auto]. exists evs. auto. Qed.

Lemma stream_nil name cl w :
  stream name [] cl w = (inr cl, emit_all [ResponseRead (Some 4096)] w).
Proof. reflexivity. Qed.

Lemma stream_raises name e steps cl w :
  stream name (ReadRaises e :: steps) cl w =
    (inl e, emit_all [ResponseRead (Some 4096)] w).
Proof. reflexivity. Qed.

Lemma stream_empty_read name closed steps cl w :
  stream name (ReadReturns [] closed :: steps) cl w =
    if (cl <=? 0) || closed then (inr cl, emit_all [ResponseRead (Some 4096)] w)
    else stream name steps cl (emit_all [ResponseRead (Some 4096)] w).
Proof.
  cbn [stream]. unfold bind at 1. rewrite emit_eq.
  now destruct ((cl <=? 0) || closed).
Qed.

Lemma stream_chunk name b chunk closed steps cl w :
  stream name (ReadReturns (b :: chunk) closed :: steps) cl w =
    stream name steps (cl - Z.of_nat (length (b :: chunk))) (written name (b :: chunk) w).
Proof.
  cbn [stream]. unfold bind at 1. rewrite emit_eq. unfold bind at 1.
  unfold write, written, emit_all. cbn [events files n_connect n_request].
  now rewrite <- app_assoc.
Qed.

(** The loop returns what [stream_result] computes; it adds local events
    only, leaves the other files alone, and appends to the destination the
    bytes that [stream_result] lists. *)
Lemma stream_spec (name : string) (steps : list ReadStep) :
  forall (content_length : Z) (w : World),
    let res := stream name steps content_length w in
    fst res = match stream_result steps content_length with
              | inl e => inl e
              | inr (_, remaining) => inr remaining
              end /\
    local_extension w (snd res) /\
    (forall other, other <> name -> files (snd res) !! other = files w !! other) /\
    (forall data remaining old,
       stream_result steps content_length = inr (data, remaining) ->
       files w !! name = Some old ->
       files (snd res) !! name = Some (old ++ data)).
Proof.
  induction steps as [|[chunk closed|e] steps IH]; intros cl w res; subst res.
  - rewrite stream_nil. cbn [stream_result fst snd].
    split; [reflexivity|]. split; [apply local_extension_emit_all; repeat constructor|].
    split; [reflexivity|].
    intros data remaining old [= <- <-] Hold. simpl. now rewrite app_nil_r.
  - destruct chunk as [|b chunk].
    + rewrite stream_empty_read. cbn [stream_result].
      destruct ((cl <=? 0) || closed).
      * cbn [fst snd]. split; [reflexivity|].
        split; [apply local_extension_emit_all; repeat constructor|].
        split; [reflexivity|].
        intros data remaining old [= <- <-] Hold. simpl. now rewrite app_nil_r.
      * specialize (IH cl (emit_all [ResponseRead (Some 4096)] w)).
        destruct IH as (Hr & Hl & Ho & Hd).
        split; [exact Hr|]. split.
        { eapply local_extension_trans; [|exact Hl].
          apply local_extension_emit_all; repeat constructor. }
        split; [exact Ho | exact Hd].
    + rewrite stream_chunk. cbn [stream_result].
      specialize (IH (cl - Z.of_nat (length (b :: chunk))) (written name (b :: chunk) w)).
      destruct IH as (Hr & Hl & Ho & Hd).
      split.
      { rewrite Hr. now destruct (stream_result steps _) as [e|[data remaining]]. }
      split.
      { eapply local_extension_trans; [|exact Hl].
        split; [|auto]. exists [ResponseRead (Some 4096); FileWrite name (b :: chunk)].
        split; [reflexivity | repeat constructor]. }
      split.
      { intros other Hne. rewrite (Ho other Hne). unfold written. cbn [files].
        now apply lookup_alter_ne. }
      intros data remaining old Hs Hold.
      destruct (stream_result steps _) as [e|[data' remaining']] eqn:E; [discriminate|].
      injection Hs as <- <-.
      rewrite (Hd data' remaining' (old ++ b :: chunk) eq_refl).
      * now rewrite <- app_assoc.
      * unfold written. cbn [files]. rewrite lookup_alter_eq, Hold. reflexivity.
  - rewrite stream_raises. cbn [stream_result fst snd].
    split; [reflexivity|]. split; [apply local_extension_emit_all; repeat constructor|].
    split; [reflexivity|]. discriminate.
Qed.

(** *** get_content as a whole *)

Lemma needs_reconnect_of_exn (e : exn) :
  needs_reconnect (outcome_of_exn e) = is_timeout_or_disconnect e.
Proof. unfold outcome_of_exn. now destruct (is_timeout_or_disconnect e). Qed.

Lemma post_no_file a oe cp fp w (tail : list Event) :
  opens_file a oe = false ->
  Forall (fun e => is_local e = true) tail ->
  Forall (fun e => is_file_event e = false) tail ->
  get_content_post a oe cp fp w
    (inr (needs_reconnect (fetch_outcome a oe)), attempted cp fp tail w).
Proof.
  intros Hop Hl Hf. unfold get_content_post. cbn [fst snd attempted events files
    n_connect n_request]. split; [reflexivity|]. split.
  - exists tail. split; [reflexivity|]. split; [exact Hl|].
    split; [auto | rewrite Hop; discriminate].
  - auto.
Qed.

Lemma post_streamed a oe cp fp w w' (extra : list Event) :
  opens_file a oe = true ->
  local_extension (opened cp fp w) w' ->
  (forall other, other <> fp -> files w' !! other = files (opened cp fp w) !! other) ->
  Forall (fun e => is_local e = true) extra ->
  get_content_post a oe cp fp w
    (inr (needs_reconnect (fetch_outcome a oe)), emit_all (FileClose fp :: extra) w').
Proof.
  intros Hop [(evs & Hev & Hloc) [Hc Hq]] Hother Hex. unfold get_content_post.
  cbn [fst snd emit_all events files n_connect n_request].
  split; [reflexivity|]. split.
  - exists ([ConnGetResponse; FileOpen fp] ++ evs ++ FileClose fp :: extra). split.
    + rewrite Hev. unfold opened. cbn [events]. now rewrite <- !app_assoc.
    + split; [|split; [rewrite Hop; discriminate | eauto]].
      repeat constructor. apply Forall_app. split; [exact Hloc|].
      constructor; [reflexivity | exact Hex].
  - rewrite Hc, Hq. unfold opened. cbn [n_connect n_request].
    repeat split; try (rewrite Hop; discriminate).
    intros other Hne. rewrite (Hother other Hne). unfold opened. cbn [files].
    now apply lookup_insert_ne.
Qed.

Lemma get_content_spec (env : Env) (conn : Connection) (cp fp : string) (w : World) :
  get_content_post (env_attempt env (n_request w)) (env_open env (n_request w) fp)
    cp fp w (get_content env conn cp fp w).
Proof.
  destruct (env_attempt env (n_request w)) as [e|e|r] eqn:Ha.
  - rewrite (get_content_request_raises _ _ _ _ _ _ Ha).
    rewrite <- needs_reconnect_of_exn.
    apply post_no_file; [reflexivity | repeat constructor | repeat constructor].
  - rewrite (get_content_getresponse_raises _ _ _ _ _ _ Ha).
    rewrite <- needs_reconnect_of_exn.
    apply post_no_file; [reflexivity | repeat constructor | repeat constructor].
  - destruct (Z.ltb_spec (status r) 300) as [Hs|Hs].
    + assert ((status r <? 300) = true) as Hlt by now apply Z.ltb_lt.
      destruct (int_header (content_length_header r)) as [e|n] eqn:Hh.
      * rewrite (get_content_bad_length _ _ _ _ _ _ _ Ha Hs Hh).
        replace (is_timeout_or_disconnect e) with
          (needs_reconnect (fetch_outcome (Responds r) (env_open env (n_request w) fp)))
          by (cbn [fetch_outcome]; rewrite Hlt, Hh; apply needs_reconnect_of_exn).
        apply post_no_file; [|repeat constructor | repeat constructor].
        cbn [opens_file]. now rewrite Hlt, Hh.
      * destruct (env_open env (n_request w) fp) as [e|] eqn:Ho.
        { rewrite (get_content_open_fails _ _ _ _ _ _ _ _ Ha Hs Hh Ho).
          replace (is_timeout_or_disconnect e) with
            (needs_reconnect (fetch_outcome (Responds r) (Some e)))
            by (cbn [fetch_outcome]; rewrite Hlt, Hh; apply needs_reconnect_of_exn).
          apply post_no_file; [|repeat constructor | repeat constructor].
          cbn [opens_file]. now rewrite Hlt, Hh. }
        rewrite (get_content_streams _ _ _ _ _ _ _ Ha Hs Hh Ho).
        assert (opens_file (Responds r) None = true) as Hop
          by (cbn [opens_file]; now rewrite Hlt, Hh).
        destruct (stream_spec fp (body r) n (opened cp fp w)) as (Hr & Hl & Hother & _).
        destruct (stream fp (body r) n (opened cp fp w)) as [res w'] eqn:E.
        cbn [fst snd] in Hr, Hl, Hother.
        destruct res as [e|remaining].
        { replace (is_timeout_or_disconnect e) with
            (needs_reconnect (fetch_outcome (Responds r) None)).
          - apply post_streamed; auto; repeat constructor.
          - cbn [fetch_outcome]. rewrite Hlt, Hh.
            destruct (stream_result (body r) n) as [e'|[data rem]]; [|discriminate].
            injection Hr as ->. apply needs_reconnect_of_exn. }
        assert (fetch_outcome (Responds r) None =
                if remaining =? 0 then Success else FailedIncomplete remaining) as Hout.
        { cbn [fetch_outcome]. rewrite Hlt, Hh.
          destruct (stream_result (body r) n) as [e'|[data rem]]; [discriminate|].
          now injection Hr as ->. }
        destruct (remaining =? 0) eqn:Hz.
        { replace false with (needs_reconnect (fetch_outcome (Responds r) None))
            by now rewrite Hout.
          apply post_streamed; auto. }
        replace true with (needs_reconnect (fetch_outcome (Responds r) None)) at 1
          by now rewrite Hout.
        apply post_streamed; auto; repeat constructor.
    + assert ((status r <? 300) = false) as Hge by (apply Z.ltb_ge; lia).
      rewrite (get_content_status_error _ conn cp fp _ _ Ha Hs).
      assert (opens_file (Responds r) (env_open env (n_request w) fp) = false) as Hop
        by (cbn [opens_file]; now rewrite Hge).
      destruct (first_raise (body r)) as [e|] eqn:Hf.
      * replace (is_timeout_or_disconnect e) with
          (needs_reconnect (fetch_outcome (Responds r) (env_open env (n_request w) fp)))
          by (cbn [fetch_outcome]; rewrite Hge, Hf; apply needs_reconnect_of_exn).
        apply post_no_file; [exact Hop | repeat constructor | repeat constructor].
      * replace false with
          (needs_reconnect (fetch_outcome (Responds r) (env_open env (n_request w) fp)))
          by (cbn [fetch_outcome]; now rewrite Hge, Hf).
        apply post_no_file; [exact Hop | repeat constructor | repeat constructor].
Qed.

Lemma new_events_app (w w' : World) (evs : list Event) :
  events w' = events w ++ evs -> new_events w w' = evs.
Proof. intros H. unfold new_events. rewrite H. apply drop_app_length. Qed.

Lemma announce_no_file cp fp :
  Forall (fun e => is_file_event e = false) (announce cp fp).
Proof. repeat constructor. Qed.

(** When the file is opened and the reads do not raise, the file holds the
    bytes that were read and nothing of what it held before. *)
Lemma get_content_file_contents env conn cp fp w r n data remaining :
  env_attempt env (n_request w) = Responds r ->
  status r < 300 ->
  int_header (content_length_header r) = inr n ->
  env_open env (n_request w) fp = None ->
  stream_result (body r) n = inr (data, remaining) ->
  files (snd (get_content env conn cp fp w)) !! fp = Some data.
Proof.
  intros Ha Hs Hh Ho Hres.
  rewrite (get_content_streams _ _ _ _ _ _ _ Ha Hs Hh Ho).
  destruct (stream_spec fp (body r) n (opened cp fp w)) as (Hr & _ & _ & Hd).
  specialize (Hd data remaining [] Hres).
  destruct (stream fp (body r) n (opened cp fp w)) as [res w'].
  cbn [fst snd] in Hr, Hd. rewrite Hres in Hr. subst res.
  assert (files w' !! fp = Some data) as Hf
    by (apply Hd; unfold opened; cbn [files]; apply lookup_insert_eq).
  now destruct (remaining =? 0).
Qed.

(** C10.  The destination file is opened only in an attempt whose
    response has a status under 300 and a Content-Length that [int]
    accepts, and then after the response has arrived; it is then emptied
    before the body is written to it.  When the request or the response
    raises, when the status is 300 or more, or when the Content-Length is
    missing or is no number, the attempt opens and writes no file and the
    files are what they were. *)
Theorem file_created_only_after_good_response
    (env : Env) (conn : Connection) (cp fp : string) (w : World) :
  let a := env_attempt env (n_request w) in
  let w' := snd (get_content env conn cp fp w) in
  let evs := new_events w w' in
  ((match a with
    | RequestRaises _ | GetResponseRaises _ => True
    | Responds r =>
        300 <= status r \/ exists e, int_header (content_length_header r) = inl e
    end) ->
   files w' = files w /\ Forall (fun e => is_file_event e = false) evs) /\
  ((files w' <> files w \/ Exists (fun e => is_file_event e = true) evs) ->
   exists r n tail,
     a = Responds r /\ status r < 300 /\
     int_header (content_length_header r) = inr n /\
     evs = announce cp fp ++ ConnGetResponse :: FileOpen fp :: tail) /\
  (forall r n data remaining,
     a = Responds r -> status r < 300 ->
     int_header (content_length_header r) = inr n ->
     env_open env (n_request w) fp = None ->
     stream_result (body r) n = inr (data, remaining) ->
     files w' !! fp = Some data) /\
  (forall other, other <> fp -> files w' !! other = files w !! other).
Proof.
  intros a w' evs.
  destruct (get_content_spec env conn cp fp w)
    as (_ & (tail & Hev & _ & Hquiet & Hopen) & _ & _ & Hother & Hsame).
  fold a in Hquiet, Hopen, Hsame. fold w' in Hev, Hother, Hsame.
  assert (evs = announce cp fp ++ tail) as Hevs by (apply new_events_app; exact Hev).
  assert (opens_file a (env_open env (n_request w) fp) = false ->
          files w' = files w /\ Forall (fun e => is_file_event e = false) evs) as Hno.
  { intros Hop. split; [auto|]. rewrite Hevs. apply Forall_app.
    split; [apply announce_no_file | auto]. }
  split; [|split; [|split]].
  - intros Hcase. apply Hno. destruct a as [e|e|r]; try reflexivity.
    cbn [opens_file]. destruct Hcase as [Hs|[e He]].
    + replace (status r <? 300) with false by (symmetry; apply Z.ltb_ge; lia).
      reflexivity.
    + rewrite He. apply andb_false_r.
  - intros Hchanged.
    destruct (opens_file a (env_open env (n_request w) fp)) eqn:Hop.
    + destruct (Hopen eq_refl) as [tail' ->].
      destruct a as [e|e|r]; try discriminate. cbn [opens_file] in Hop.
      apply andb_true_iff in Hop as [Hs Hh]. apply Z.ltb_lt in Hs.
      destruct (int_header (content_length_header r)) as [e|n] eqn:E; [discriminate|].
      exists r, n, tail'. auto.
    + destruct (Hno eq_refl) as [Hf Hq]. destruct Hchanged as [Hc|Hc]; [congruence|].
      exfalso. apply Exists_exists in Hc as (e & Hin & He).
      rewrite Forall_forall in Hq. specialize (Hq e Hin). congruence.
  - intros r n data remaining Ha. subst w'. now apply get_content_file_contents.
  - exact Hother.
Qed.

(** *** The body of the inner loop *)

Lemma requested_app (a b : list Event) : requested (a ++ b) = requested a ++ requested b.
Proof. unfold requested. apply omap_app. Qed.

Lemma requested_local (evs : list Event) :
  Forall (fun e => is_local e = true) evs -> requested evs = [].
Proof.
  induction 1 as [|e evs He _ IH]; [reflexivity|].
  unfold requested in *. cbn [omap list_omap]. rewrite IH.
  now destruct e.
Qed.

Lemma requested_ticks (l : list Z) : requested (flat_map tick l) = [].
Proof. induction l as [|s l IH]; [reflexivity | exact IH]. Qed.

Lemma requested_announce cp fp : requested (announce cp fp) = [cp].
Proof. reflexivity. Qed.

Lemma download_item_plain env o conn digit i w :
  download_item env o conn digit false i w =
  match format_path env (path o) digit (str i) with
  | inl e => (inl e, w)
  | inr p => get_content env conn p (basename p) w
  end.
Proof.
  unfold download_item, bind, ret, lift.
  now destruct (format_path env (path o) digit (str i)).
Qed.

Lemma download_item_reconnect env o conn digit i w :
  download_item env o conn digit true i w =
  match env_connect env (n_connect w) with
  | Some e => (inl e, after_connect conn (countdown_events default_interval) w)
  | None =>
      match format_path env (path o) digit (str i) with
      | inl e => (inl e, reconnected conn w)
      | inr p => get_content env conn p (basename p) (reconnected conn w)
      end
  end.
Proof.
  unfold download_item. unfold bind at 1. rewrite do_reconnecting_eq.
  destruct (env_connect env (n_connect w)); [reflexivity|].
  unfold bind, lift, reconnected, reconnecting_line.
  now destruct (format_path env (path o) digit (str i)).
Qed.

Lemma local_not_wait (evs : list Event) :
  Forall (fun e => is_local e = true) evs ->
  Forall (fun e => is_wait_or_connect e = false) evs.
Proof. intros H. eapply Forall_impl; [exact H|]. intros e. now destruct e. Qed.


(** With the flag, the countdown and the connect come first; the request,
    if it is made at all, is for the path of this item and follows them. *)
Lemma download_item_reconnect_events env o conn digit i w :
  let w' := snd (download_item env o conn digit true i w) in
  exists tail,
    new_events w w' = countdown_events default_interval ++ ConnConnect conn :: tail /\
    requested (countdown_events default_interval) = [] /\
    match env_connect env (n_connect w), format_path env (path o) digit (str i) with
    | None, inr p => requested tail = [p]
    | _, _ => requested tail = []
    end.
Proof.
  rewrite download_item_reconnect.
  assert (requested (countdown_events default_interval) = []) as Hc
    by apply requested_ticks.
  destruct (env_connect env (n_connect w)) as [e|].
  - exists []. cbn [snd]. split; [|auto]. apply new_events_app. reflexivity.
  - destruct (format_path env (path o) digit (str i)) as [e|p].
    + exists [reconnecting_line]. cbn [snd]. split; [|auto]. apply new_events_app.
      unfold reconnected, after_connect, emit_all. cbn [events].
      now rewrite <- !app_assoc.
    + destruct (get_content_spec env conn p (basename p) (reconnected conn w))
        as (_ & (tail & Hev & Hloc & _) & _).
      exists (reconnecting_line :: announce p (basename p) ++ tail). split; [|split; [exact Hc|]].
      * apply new_events_app. rewrite Hev.
        unfold reconnected, after_connect, emit_all. cbn [events].
        now rewrite <- !app_assoc.
      * change (reconnecting_line :: announce p (basename p) ++ tail)
          with ([reconnecting_line] ++ announce p (basename p) ++ tail).
        now rewrite !requested_app, requested_announce, (requested_local _ Hloc).
Qed.

Lemma for_fold_cons {A S} (x : A) (l : list A) (s : S) (f : S -> A -> M S) (w : World) :
  for_fold (x :: l) s f w =
  match f s x w with
  | (inr s', w') => for_fold l s' f w'
  | (inl e, w') => (inl e, w')
  end.
Proof. reflexivity. Qed.

Lemma download_range_eq env o conn b r w :
  download_range env o conn b r w =
  match get_digit r, parse_range r with
  | inr digit, inr items => for_fold items b (download_item env o conn digit) w
  | inl e, _ => (inl e, w)
  | inr _, inl e => (inl e, w)
  end.
Proof.
  unfold download_range, bind, lift.
  destruct (get_digit r); [reflexivity|]. now destruct (parse_range r).
Qed.

(** A file that exists is emptied before the body is written; a 404 on
    the next item leaves the files alone. *)
Example existing_file_is_replaced :
  let env := scripted_env [ok_response 3 3; not_found] [] in
  let old_files : gmap string bytes :=
    {[ "a1.jpg" := [Byte.x01; Byte.x02; Byte.x03; Byte.x04; Byte.x05];
       "a2.jpg" := [Byte.x01] ]} in
  let res := download env "http://www.example.com/a[1-2].jpg" false (initial_world old_files) in
  files (snd res) =
    {[ "a1.jpg" := [Byte.x00; Byte.x00; Byte.x00]; "a2.jpg" := [Byte.x01] ]}.
Proof. vm_compute. reflexivity. Qed.

(** ** The claims about the fetch loop *)




(** The example of the specification, run: 1000 bytes declared, 900
    received, and a second item after it. *)
Example incomplete_then_reconnect :
  let env := scripted_env [ok_response 1000 900; ok_response 3 3] [] in
  let conn := mkConnection HTTPConnection "www.example.com" 80 300 0 in
  let res := download env "http://www.example.com/a[1-2].jpg" false (initial_world ∅) in
  fst res = inr tt /\
  length (events (snd res)) = 386%nat /\
  take 3 (drop 10 (events (snd res))) =
    [FileClose "a1.jpg";
     Stdout ("    ==> Disconnected: 100 bytes remaining." +:+ newline);
     Stdout ("        ==> Reconnect after 180 seconds." +:+ carriage_return)] /\
  take 363 (drop 12 (events (snd res))) =
    countdown_events default_interval ++ [ConnConnect conn] /\
  requested (take 375 (events (snd res))) = ["/a1.jpg"] /\
  requested (drop 375 (events (snd res))) = ["/a2.jpg"] /\
  length <$> files (snd res) = {[ "a1.jpg" := 900%nat; "a2.jpg" := 3%nat ]}.
Proof. vm_compute. repeat split. Qed.

(** *** The two loops *)

Lemma grows_refl (w : World) : grows w w.
Proof. exists []. now rewrite app_nil_r. Qed.

Lemma grows_trans (w1 w2 w3 : World) : grows w1 w2 -> grows w2 w3 -> grows w1 w3.
Proof.
  intros [a Ha] [b Hb]. exists (a ++ b). rewrite Hb, Ha. now rewrite app_assoc.
Qed.

Lemma get_content_grows env conn cp fp w :
  grows w (snd (get_content env conn cp fp w)).
Proof.
  destruct (get_content_spec env conn cp fp w) as (_ & (tail & Hev & _) & _).
  eexists. exact Hev.
Qed.

Lemma reconnected_grows conn w : grows w (reconnected conn w).
Proof.
  eexists. unfold reconnected, after_connect, emit_all. cbn [events].
  now rewrite <- !app_assoc.
Qed.

Lemma download_item_grows env o conn digit rc i w :
  grows w (snd (download_item env o conn digit rc i w)).
Proof.
  destruct rc.
  - rewrite download_item_reconnect.
    destruct (env_connect env (n_connect w)); [eexists; reflexivity|].
    destruct (format_path env (path o) digit (str i)); [apply reconnected_grows|].
    eapply grows_trans; [apply reconnected_grows | apply get_content_grows].
  - rewrite download_item_plain.
    destruct (format_path env (path o) digit (str i));
      [apply grows_refl | apply get_content_grows].
Qed.

Lemma for_fold_grows {A S} (f : S -> A -> M S) (l : list A) :
  (forall s x w, grows w (snd (f s x w))) ->
  forall s w, grows w (snd (for_fold l s f w)).
Proof.
  intros Hf. induction l as [|x l IH]; intros s w; [apply grows_refl|].
  rewrite for_fold_cons. specialize (Hf s x w).
  destruct (f s x w) as [[e|s'] w']; cbn [snd] in *; [exact Hf|].
  eapply grows_trans; [exact Hf | apply IH].
Qed.

Lemma download_range_grows env o conn rc r w :
  grows w (snd (download_range env o conn rc r w)).
Proof.
  rewrite download_range_eq.
  destruct (get_digit r); [apply grows_refl|].
  destruct (parse_range r); [apply grows_refl|].
  apply for_fold_grows. intros. apply download_item_grows.
Qed.

Lemma for_fold_app {A S} (f : S -> A -> M S) (l1 l2 : list A) (s : S) (w : World) :
  for_fold (l1 ++ l2) s f w =
  match for_fold l1 s f w with
  | (inr s', w') => for_fold l2 s' f w'
  | (inl e, w') => (inl e, w')
  end.
Proof.
  revert s w. induction l1 as [|x l1 IH]; intros s w; [reflexivity|].
  cbn [app]. rewrite !for_fold_cons.
  destruct (f s x w) as [[e|s'] w']; [reflexivity | apply IH].
Qed.

(** When every connect returns and the path of the item can be built, the
    item is processed to its end: one request, for that path. *)
Lemma download_item_completes env o conn digit rc i w p :
  (forall k, env_connect env k = None) ->
  format_path env (path o) digit (str i) = inr p ->
  exists b w' evs,
    download_item env o conn digit rc i w = (inr b, w') /\
    events w' = events w ++ evs /\ requested evs = [p].
Proof.
  intros Hc Hp.
  assert (forall w0, exists b w' evs,
            get_content env conn p (basename p) w0 = (inr b, w') /\
            events w' = events w0 ++ evs /\ requested evs = [p]) as Hg.
  { intros w0.
    destruct (get_content_spec env conn p (basename p) w0)
      as (Hflag & (tail & Hev & Hloc & _) & _).
    destruct (get_content env conn p (basename p) w0) as [res w'].
    cbn [fst snd] in *. subst res. eexists _, w', _. split; [reflexivity|].
    split; [exact Hev|].
    now rewrite requested_app, requested_announce, (requested_local _ Hloc). }
  destruct rc.
  - rewrite download_item_reconnect, Hc, Hp.
    destruct (Hg (reconnected conn w)) as (b & w' & evs & Hr & Hev & Hreq).
    exists b, w', (countdown_events default_interval ++ [ConnConnect conn; reconnecting_line] ++ evs).
    split; [exact Hr|]. split.
    + rewrite Hev. unfold reconnected, after_connect, emit_all. cbn [events].
      now rewrite <- !app_assoc.
    + rewrite !requested_app, Hreq. unfold countdown_events.
      now rewrite requested_ticks.
  - rewrite download_item_plain, Hp. apply Hg.
Qed.

Lemma map_exc_cons_inv {A B} (f : A -> Exc B) (x : A) (l : list A) (ys : list B) :
  map_exc f (x :: l) = inr ys ->
  exists y ys', f x = inr y /\ map_exc f l = inr ys' /\ ys = y :: ys'.
Proof.
  cbn [map_exc]. destruct (f x) as [e|y]; [discriminate|].
  destruct (map_exc f l) as [e|ys']; [discriminate|].
  intros [= <-]. eauto.
Qed.

Lemma items_loop_completes env o conn digit (items : list Z) :
  (forall k, env_connect env k = None) ->
  forall ps rc w,
    map_exc (fun i => format_path env (path o) digit (str i)) items = inr ps ->
    exists b w' evs,
      for_fold items rc (download_item env o conn digit) w = (inr b, w') /\
      events w' = events w ++ evs /\ requested evs = ps.
Proof.
  intros Hc. induction items as [|i items IH]; intros ps rc w Hm.
  - injection Hm as <-. exists rc, w, []. cbn [for_fold]. unfold ret.
    split; [reflexivity|]. split; [now rewrite app_nil_r | reflexivity].
  - apply map_exc_cons_inv in Hm as (p & ps' & Hp & Hm & ->).
    destruct (download_item_completes env o conn digit rc i w p Hc Hp)
      as (b & w1 & e1 & Hr & Hev1 & Hq1).
    destruct (IH ps' b w1 Hm) as (b' & w2 & e2 & Hr2 & Hev2 & Hq2).
    exists b', w2, (e1 ++ e2). rewrite for_fold_cons, Hr.
    split; [exact Hr2|]. split.
    + rewrite Hev2, Hev1. now rewrite app_assoc.
    + now rewrite requested_app, Hq1, Hq2.
Qed.

Lemma ranges_loop_completes env o conn (rs : list string) :
  (forall k, env_connect env k = None) ->
  forall pss rc w,
    map_exc (token_paths env o) rs = inr pss ->
    exists b w' evs,
      for_fold rs rc (download_range env o conn) w = (inr b, w') /\
      events w' = events w ++ evs /\ requested evs = concat pss.
Proof.
  intros Hc. induction rs as [|r rs IH]; intros pss rc w Hm.
  - injection Hm as <-. exists rc, w, []. cbn [for_fold]. unfold ret.
    split; [reflexivity|]. split; [now rewrite app_nil_r | reflexivity].
  - apply map_exc_cons_inv in Hm as (ps & pss' & Hp & Hm & ->).
    unfold token_paths in Hp.
    destruct (get_digit r) as [e|digit] eqn:Hd; [discriminate|].
    destruct (parse_range r) as [e|items] eqn:Hr; [discriminate|].
    destruct (items_loop_completes env o conn digit items Hc ps rc w Hp)
      as (b & w1 & e1 & Hr1 & Hev1 & Hq1).
    destruct (IH pss' b w1 Hm) as (b' & w2 & e2 & Hr2 & Hev2 & Hq2).
    exists b', w2, (e1 ++ e2). rewrite for_fold_cons, download_range_eq, Hd, Hr, Hr1.
    split; [exact Hr2|]. split.
    + rewrite Hev2, Hev1. now rewrite app_assoc.
    + cbn [concat]. now rewrite requested_app, Hq1, Hq2.
Qed.

(** What [fetch_all] makes of the result of its loops. *)
Lemma fetch_all_eq env o conn w :
  fetch_all env o conn w =
  match for_fold (ranges o) false (download_range env o conn) w with
  | (inr _, w') => (inr tt, emit_all [ConnClose] w')
  | (inl e, w') => (inr tt, emit_all [Stdout (exn_str e +:+ newline); ConnClose] w')
  end.
Proof.
  unfold fetch_all, try_finally, try_except, bind, ret, print.
  destruct (for_fold (ranges o) false (download_range env o conn) w) as [[e|b] w'].
  - rewrite !emit_eq, emit_all_app. reflexivity.
  - rewrite emit_eq. reflexivity.
Qed.

(** When [open_connection] returns, the connect has been made and
    announced, and nothing else has happened. *)
Lemma open_connection_inv env o verbose w conn w' :
  open_connection env o verbose w = (inr conn, w') ->
  events w' = events w ++ [ConnConnect conn; connection_line o conn] /\
  files w' = files w /\ n_request w' = n_request w.
Proof.
  unfold open_connection, connection_line.
  unfold bind at 1.
  destruct (String.eqb (scheme o) "http").
  - unfold ret at 1. unfold bind at 1.
    destruct (port o =? 0); unfold ret at 1; unfold bind at 1; unfold connect;
      destruct (env_connect env (n_connect w)); try discriminate;
      unfold bind, print, ret; rewrite emit_eq; intros [= <- <-];
      cbn [emit_all events files n_request]; rewrite <- app_assoc; auto.
  - destruct (String.eqb (scheme o) "https"); [|discriminate].
    unfold ret at 1. unfold bind at 1.
    destruct (port o =? 0); [|discriminate].
    unfold ret at 1; unfold bind at 1; unfold connect;
      destruct (env_connect env (n_connect w)); try discriminate;
      unfold bind, print, ret; rewrite emit_eq; intros [= <- <-];
      cbn [emit_all events files n_request]; rewrite <- app_assoc; auto.
Qed.

Lemma download_of_eq env pu verbose o conn w w1 :
  parse_url_of pu = inr o ->
  open_connection env o verbose w = (inr conn, w1) ->
  download_of env pu verbose w = fetch_all env o conn w1.
Proof.
  intros Hp Ho. unfold download_of, bind, lift. now rewrite Hp, Ho.
Qed.

(** C3, as the code has it.  [get_content] never raises, whatever the
    attempt does.  When the connection is open, the paths of all the
    tokens can be built and every later call of [connect] returns, the run
    requests every path of the enumeration, once and in order, closes the
    connection and ends with status 0. *)
Theorem run_completes_when_reconnects_succeed
    (env : Env) (pu : ParseResult) (verbose : bool) (o : ParsedTarget)
    (conn : Connection) (paths : list string) (w0 w1 : World) :
  parse_url_of pu = inr o ->
  open_connection env o verbose w0 = (inr conn, w1) ->
  all_paths env o = inr paths ->
  (forall k, env_connect env k = None) ->
  (forall c cp fp w, exists b, fst (get_content env c cp fp w) = inr b) /\
  exists w',
    download_of env pu verbose w0 = (inr tt, w') /\
    exit_status (fst (download_of env pu verbose w0)) = 0 /\
    requested (new_events w0 w') = paths /\
    last (events w') = Some ConnClose.
Proof.
  intros Hp Ho Ha Hc. split.
  { intros c cp fp w. destruct (get_content_spec env c cp fp w) as (Hflag & _). eauto. }
  rewrite (download_of_eq _ _ _ _ _ _ _ Hp Ho), fetch_all_eq.
  unfold all_paths in Ha.
  destruct (map_exc (token_paths env o) (ranges o)) as [e|pss] eqn:Hm; [discriminate|].
  injection Ha as <-.
  destruct (ranges_loop_completes env o conn (ranges o) Hc pss false w1 Hm)
    as (b & w2 & evs & Hr & Hev & Hq).
  rewrite Hr. eexists. split; [reflexivity|]. split; [reflexivity|].
  destruct (open_connection_inv _ _ _ _ _ _ Ho) as (Hev1 & _).
  cbn [emit_all events]. rewrite Hev, Hev1. split.
  - rewrite (new_events_app w0 _
               ([ConnConnect conn; connection_line o conn] ++ evs ++ [ConnClose])).
    + rewrite !requested_app, Hq. cbn [requested omap list_omap connection_line app].
      now rewrite app_nil_r.
    + cbn [emit_all events]. rewrite Hev, Hev1. now rewrite <- !app_assoc.
  - now rewrite last_snoc.
Qed.

Lemma run_completes_when_reconnects_succeed_witness :
  let env := scripted_env [RequestRaises (socket_timeout "timed out");
                           not_found; ok_response 3 3] [] in
  let w0 := initial_world ∅ in
  (forall c cp fp w, exists b, fst (get_content env c cp fp w) = inr b) /\
  exists w',
    download_of env (urlparse "http://www.example.com/a[1-3].jpg") false w0 = (inr tt, w') /\
    exit_status (fst (download_of env (urlparse "http://www.example.com/a[1-3].jpg") false w0)) = 0 /\
    requested (new_events w0 w') = ["/a1.jpg"; "/a2.jpg"; "/a3.jpg"] /\
    last (events w') = Some ConnClose.
Proof.
  intros env w0.
  apply (run_completes_when_reconnects_succeed env
           (urlparse "http://www.example.com/a[1-3].jpg") false
           {| scheme := "http"; host := "www.example.com"; port := 0;
              path := "/a[*].jpg"; ranges := ["1-3"] |}
           (mkConnection HTTPConnection "www.example.com" 80 300 0)
           ["/a1.jpg"; "/a2.jpg"; "/a3.jpg"] w0
           (emit_all [ConnConnect (mkConnection HTTPConnection "www.example.com" 80 300 0);
                      Stdout ("Connection: http://www.example.com:80/" +:+ newline)]
                     {| events := []; files := ∅; n_connect := 1; n_request := 0 |}));
    [reflexivity | reflexivity | reflexivity | intros k; reflexivity].
Defined.

(** C3, as the claim states it, fails: the first item times out, the
    connect of the countdown that follows is refused, and the two items
    that remain are never requested; the run still ends with status 0. *)
Lemma run_stops_when_reconnect_fails :
  let env := scripted_env [RequestRaises (socket_timeout "timed out");
                           ok_response 3 3; ok_response 3 3]
                          [None; Some (OSError "[Errno 111] Connection refused")] in
  let res := download env "http://www.example.com/a[1-3].jpg" false (initial_world ∅) in
  (exists o, parse_url "http://www.example.com/a[1-3].jpg" = inr o /\
             ranges o = ["1-3"] /\ get_digit "1-3" = inr 1%nat /\
             all_paths env o = inr ["/a1.jpg"; "/a2.jpg"; "/a3.jpg"]) /\
  fst res = inr tt /\
  requested (events (snd res)) = ["/a1.jpg"] /\
  drop 368 (events (snd res)) =
    [ConnConnect (mkConnection HTTPConnection "www.example.com" 80 300 0);
     Stdout ("[Errno 111] Connection refused" +:+ newline);
     ConnClose].
Proof.
  split; [eexists; repeat split|]. vm_compute. repeat split.
Qed.

(** C1, as the code has it.  The tokens are looked at one by one inside
    the loop, after the connection has been opened.  When the target has a
    malformed token, the tokens before it are processed as they would be
    without it; then the message of the exception that stopped the loop,
    which is that of the malformed token unless an earlier one stopped it,
    is printed, the connection is closed, and the run ends with status 0.
    Nothing after the malformed token is processed. *)
Theorem malformed_token_stops_the_loop
    (env : Env) (pu : ParseResult) (verbose : bool) (o : ParsedTarget)
    (good : list string) (bad : string) (rest : list string)
    (conn : Connection) (w0 w1 : World) :
  parse_url_of pu = inr o ->
  ranges o = good ++ bad :: rest ->
  get_digit bad = inl wrong_range_format ->
  open_connection env o verbose w0 = (inr conn, w1) ->
  exists (e : exn) (w2 : World),
    events w1 = events w0 ++ [ConnConnect conn; connection_line o conn] /\
    grows w1 w2 /\
    match for_fold good false (download_range env o conn) w1 with
    | (inr _, w) => e = wrong_range_format /\ w = w2
    | (inl e', w) => e = e' /\ w = w2
    end /\
    download_of env pu verbose w0 =
      (inr tt, emit_all [Stdout (exn_str e +:+ newline); ConnClose] w2) /\
    exit_status (fst (download_of env pu verbose w0)) = 0 /\
    (good = [] ->
     e = wrong_range_format /\
     events w2 = events w0 ++ [ConnConnect conn; connection_line o conn]).
Proof.
  intros Hp Hr Hbad Ho.
  destruct (open_connection_inv _ _ _ _ _ _ Ho) as (Hev1 & _).
  rewrite (download_of_eq _ _ _ _ _ _ _ Hp Ho), fetch_all_eq, Hr, for_fold_app.
  pose proof (for_fold_grows (download_range env o conn) good
                (fun s x w => download_range_grows env o conn s x w) false w1) as Hg.
  destruct (for_fold good false (download_range env o conn) w1) as [[e|b] w2] eqn:E;
    cbn [snd] in Hg.
  - exists e, w2. split; [exact Hev1|]. split; [exact Hg|]. split; [auto|].
    split; [reflexivity|]. split; [reflexivity|].
    intros ->. cbn [for_fold] in E. discriminate.
  - rewrite for_fold_cons, download_range_eq, Hbad.
    exists wrong_range_format, w2. split; [exact Hev1|]. split; [exact Hg|].
    split; [auto|]. split; [reflexivity|]. split; [reflexivity|].
    intros ->. cbn [for_fold] in E. unfold ret in E. injection E as _ <-. auto.
Qed.

Lemma malformed_token_stops_the_loop_witness :
  let env := scripted_env [ok_response 3 3] [] in
  let pu := urlparse "http://www.example.com/a[1,1-2-3,7].jpg" in
  let o := {| scheme := "http"; host := "www.example.com"; port := 0;
              path := "/a[*].jpg"; ranges := ["1"; "1-2-3"; "7"] |} in
  let conn := mkConnection HTTPConnection "www.example.com" 80 300 0 in
  let w0 := initial_world ∅ in
  let w1 := emit_all [ConnConnect conn; connection_line o conn]
                     {| events := []; files := ∅; n_connect := 1; n_request := 0 |} in
  exists (e : exn) (w2 : World),
    events w1 = events w0 ++ [ConnConnect conn; connection_line o conn] /\
    grows w1 w2 /\
    match for_fold ["1"] false (download_range env o conn) w1 with
    | (inr _, w) => e = wrong_range_format /\ w = w2
    | (inl e', w) => e = e' /\ w = w2
    end /\
    download_of env pu false w0 =
      (inr tt, emit_all [Stdout (exn_str e +:+ newline); ConnClose] w2) /\
    exit_status (fst (download_of env pu false w0)) = 0 /\
    (["1"] = [] ->
     e = wrong_range_format /\
     events w2 = events w0 ++ [ConnConnect conn; connection_line o conn]).
Proof.
  intros env pu o conn w0 w1.
  apply (malformed_token_stops_the_loop env pu false o ["1"] "1-2-3" ["7"] conn w0 w1);
    reflexivity.
Defined.

(** A bracket with letters is no match of the pattern: such a URL is
    refused by [parse_url] itself, before any connection, and the
    exception leaves [download]. *)
Example letters_are_no_range :
  let res := download (scripted_env [] []) "http://www.example.com/a[abc].jpg" false
                      (initial_world ∅) in
  res = (inl (ValueError "The range is not specified."), initial_world ∅) /\
  exit_status (fst res) = 1.
Proof. vm_compute. repeat split. Qed.

(** C1, as the claim states it, fails: with a malformed token after a
    good one the connection is opened, the item of the good token is
    fetched and written, the message is printed and the run ends with
    status 0. *)
Lemma malformed_token_after_fetch :
  let env := scripted_env [ok_response 3 3] [] in
  let res := download env "http://www.example.com/a[1,1-2-3,7].jpg" false (initial_world ∅) in
  (exists o, parse_url "http://www.example.com/a[1,1-2-3,7].jpg" = inr o /\
             ranges o = ["1"; "1-2-3"; "7"]) /\
  get_digit "1-2-3" = inl wrong_range_format /\
  fst res = inr tt /\ exit_status (fst res) = 0 /\
  head (events (snd res)) =
    Some (ConnConnect (mkConnection HTTPConnection "www.example.com" 80 300 0)) /\
  requested (events (snd res)) = ["/a1.jpg"] /\
  length <$> files (snd res) = {[ "a1.jpg" := 3%nat ]} /\
  drop 11 (events (snd res)) =
    [Stdout ("Wrong range format." +:+ newline); ConnClose].
Proof.
  split; [eexists; repeat split|]. vm_compute. repeat split.
Qed.

(** ** The reconnect policy over a whole run *)

Lemma steps_app (a b : list Event) : steps (a ++ b) = steps a ++ steps b.
Proof. apply List.filter_app. Qed.

Lemma steps_local (evs : list Event) :
  Forall (fun e => is_local e = true) evs -> steps evs = [].
Proof.
  induction 1 as [|e evs He _ IH]; [reflexivity|].
  unfold steps in *. cbn [List.filter]. rewrite IH. now destruct e.
Qed.

Lemma steps_countdown :
  steps (countdown_events default_interval) = replicate 181 (Sleep 1).
Proof. vm_compute. reflexivity. Qed.

Lemma open_connection_connects env o verbose w conn w' :
  open_connection env o verbose w = (inr conn, w') -> n_connect w' = S (n_connect w).
Proof.
  unfold open_connection. unfold bind at 1.
  destruct (String.eqb (scheme o) "http").
  - unfold ret at 1. unfold bind at 1.
    destruct (port o =? 0); unfold ret at 1; unfold bind at 1; unfold connect;
      destruct (env_connect env (n_connect w)); try discriminate;
      unfold bind, print, ret; rewrite emit_eq; intros [= <- <-]; reflexivity.
  - destruct (String.eqb (scheme o) "https"); [|discriminate].
    unfold ret at 1. unfold bind at 1.
    destruct (port o =? 0); [|discriminate].
    unfold ret at 1; unfold bind at 1; unfold connect;
      destruct (env_connect env (n_connect w)); try discriminate;
      unfold bind, print, ret; rewrite emit_eq; intros [= <- <-]; reflexivity.
Qed.

Lemma fetch_item_reconnect env conn p w :
  fetch_item env conn true p w =
  match env_connect env (n_connect w) with
  | Some e => (inl e, after_connect conn (countdown_events default_interval) w)
  | None => get_content env conn p (basename p) (reconnected conn w)
  end.
Proof.
  unfold fetch_item. unfold bind at 1. rewrite do_reconnecting_eq.
  destruct (env_connect env (n_connect w)); reflexivity.
Qed.

Lemma fetch_item_plain env conn p w :
  fetch_item env conn false p w = get_content env conn p (basename p) w.
Proof. reflexivity. Qed.

(** With its path at hand, an item of the inner loop is [fetch_item]. *)
Lemma download_item_fetch env o conn digit b i p w :
  format_path env (path o) digit (str i) = inr p ->
  download_item env o conn digit b i w = fetch_item env conn b p w.
Proof.
  intros Hp. destruct b.
  - now rewrite download_item_reconnect, fetch_item_reconnect, Hp.
  - now rewrite download_item_plain, fetch_item_plain, Hp.
Qed.

Lemma items_loop_fetch env o conn digit (items : list Z) :
  forall ps b w,
    map_exc (fun i => format_path env (path o) digit (str i)) items = inr ps ->
    for_fold items b (download_item env o conn digit) w =
    for_fold ps b (fetch_item env conn) w.
Proof.
  induction items as [|i items IH]; intros ps b w H.
  - injection H as <-. reflexivity.
  - destruct (map_exc_cons_inv _ _ _ _ H) as (p & ps' & Hp & Hps & ->).
    rewrite !for_fold_cons, (download_item_fetch _ _ _ _ _ _ _ _ Hp).
    destruct (fetch_item env conn b p w) as [[e|b'] w']; [reflexivity|].
    now apply IH.
Qed.

(** The two loops of [download] fetch the paths of the enumeration one
    after the other, the flag going from each to the next. *)
Lemma ranges_loop_fetch env o conn (rs : list string) :
  forall pss b w,
    map_exc (token_paths env o) rs = inr pss ->
    for_fold rs b (download_range env o conn) w =
    for_fold (concat pss) b (fetch_item env conn) w.
Proof.
  induction rs as [|r rs IH]; intros pss b w H.
  - injection H as <-. reflexivity.
  - destruct (map_exc_cons_inv _ _ _ _ H) as (ps & pss' & Hr & Hrs & ->).
    cbn [concat]. rewrite for_fold_cons, for_fold_app, download_range_eq.
    unfold token_paths in Hr.
    destruct (get_digit r) as [e|digit]; [discriminate|].
    destruct (parse_range r) as [e|items]; [discriminate|].
    rewrite (items_loop_fetch _ _ _ _ _ _ _ _ Hr).
    destruct (for_fold ps b (fetch_item env conn) w) as [[e|b'] w']; [reflexivity|].
    now apply IH.
Qed.

Lemma get_content_policy env conn p w :
  exists evs w',
    get_content env conn p (basename p) w = (inr (flagged env (n_request w) p), w') /\
    events w' = events w ++ evs /\
    steps evs = [ConnRequest "GET" p] /\
    n_connect w' = n_connect w /\ n_request w' = S (n_request w).
Proof.
  destruct (get_content_spec env conn p (basename p) w)
    as (Hflag & (tail & Hev & Hloc & _) & Hc & Hr & _).
  destruct (get_content env conn p (basename p) w) as [r w'].
  cbn [fst snd] in *. subst r.
  exists (announce p (basename p) ++ tail), w'.
  split; [reflexivity|]. split; [exact Hev|].
  split; [|split; assumption].
  rewrite steps_app, (steps_local _ Hloc). reflexivity.
Qed.

(** The steps of the loop over the paths are those of the policy. *)
Lemma fetch_loop_policy env conn (ps : list string) :
  forall b w,
    exists evs,
      events (snd (for_fold ps b (fetch_item env conn) w)) = events w ++ evs /\
      steps evs = policy_steps env conn b (n_request w) (n_connect w) ps.
Proof.
  induction ps as [|p ps IH]; intros b w.
  - exists []. split; [cbn; now rewrite app_nil_r | reflexivity].
  - rewrite for_fold_cons. destruct b.
    + rewrite fetch_item_reconnect. cbn [policy_steps].
      destruct (env_connect env (n_connect w)) as [e|] eqn:Hc.
      * exists (countdown_events default_interval ++ [ConnConnect conn]).
        split; [reflexivity|].
        now rewrite steps_app, steps_countdown.
      * set (wr := reconnected conn w).
        destruct (get_content_policy env conn p wr) as (evs & w' & -> & Hev & Hst & Hc' & Hr').
        destruct (IH (flagged env (n_request wr) p) w') as (evs' & Hev' & Hst').
        exists (countdown_events default_interval ++ [ConnConnect conn] ++
                [reconnecting_line] ++ evs ++ evs').
        split.
        { rewrite Hev', Hev. subst wr. unfold reconnected, after_connect.
          cbn [emit_all events]. now rewrite <- !app_assoc. }
        rewrite !steps_app, steps_countdown, Hst, Hst', Hc', Hr'. reflexivity.
    + rewrite fetch_item_plain.
      destruct (get_content_policy env conn p w) as (evs & w' & -> & Hev & Hst & Hc' & Hr').
      destruct (IH (flagged env (n_request w) p) w') as (evs' & Hev' & Hst').
      exists (evs ++ evs'). split.
      { rewrite Hev', Hev. now rewrite <- app_assoc. }
      cbn [policy_steps]. now rewrite steps_app, Hst, Hst', Hc', Hr'.
Qed.

(** C2, as the code has it.  In a run whose paths can all be built, the
    waits, the connects, the requests and the close are those of the
    policy over the enumeration: every path is requested once and in
    order; an item whose attempt is flagged is not requested again; the
    reconnect it asks for, 181 sleeps of one second and a connect on the
    same connection, is made before the request of the next item, of the
    same token or of the next one, and is not made at all after the last
    item; when the connect raises nothing more is requested.  An attempt
    is flagged when its outcome is [FailedIncomplete] or
    [FailedConnection], and the code takes for [FailedConnection] the two
    classes [socket.timeout] and [RemoteDisconnected] only.  A body of 900
    bytes for 1000 declared leaves 100. *)
Theorem reconnect_is_first_step_of_next_item
    (env : Env) (pu : ParseResult) (verbose : bool) (o : ParsedTarget)
    (conn : Connection) (paths : list string) (w0 w1 : World) :
  parse_url_of pu = inr o ->
  open_connection env o verbose w0 = (inr conn, w1) ->
  all_paths env o = inr paths ->
  steps (new_events w0 (snd (download_of env pu verbose w0))) =
    ConnConnect conn ::
    policy_steps env conn false (n_request w0) (S (n_connect w0)) paths ++ [ConnClose] /\
  (forall n p,
     flagged env n p = true <->
     (exists remaining,
        fetch_outcome (env_attempt env n) (env_open env n (basename p)) =
          FailedIncomplete remaining) \/
     (exists e,
        fetch_outcome (env_attempt env n) (env_open env n (basename p)) =
          FailedConnection e)) /\
  (forall e,
     outcome_of_exn e = FailedConnection e <->
     (exists m, e = socket_timeout m) \/ (exists m, e = RemoteDisconnected m)) /\
  fetch_outcome (ok_response 1000 900) None = FailedIncomplete 100.
Proof.
  intros Hp Ho Ha. split; [|split; [|split; [|reflexivity]]].
  - destruct (open_connection_inv _ _ _ _ _ _ Ho) as (Hev1 & _ & Hr1).
    pose proof (open_connection_connects _ _ _ _ _ _ Ho) as Hc1.
    rewrite (download_of_eq _ _ _ _ _ _ _ Hp Ho), fetch_all_eq.
    unfold all_paths in Ha.
    destruct (map_exc (token_paths env o) (ranges o)) as [e|pss] eqn:Hm; [discriminate|].
    injection Ha as <-.
    rewrite (ranges_loop_fetch _ _ _ _ _ _ _ Hm).
    destruct (fetch_loop_policy env conn (concat pss) false w1) as (evs & Hev & Hst).
    rewrite Hr1, Hc1 in Hst.
    destruct (for_fold (concat pss) false (fetch_item env conn) w1) as [[e|b] w2];
      cbn [snd] in Hev |- *.
    + erewrite new_events_app
        by (cbn [emit_all events]; rewrite Hev, Hev1, <- !app_assoc; reflexivity).
      rewrite !steps_app, Hst. reflexivity.
    + erewrite new_events_app
        by (cbn [emit_all events]; rewrite Hev, Hev1, <- !app_assoc; reflexivity).
      rewrite !steps_app, Hst. reflexivity.
  - intros n p. unfold flagged.
    destruct (fetch_outcome (env_attempt env n) (env_open env n (basename p)));
      cbn [needs_reconnect]; split; eauto;
      try discriminate; intros [[x Hx]|[x Hx]]; discriminate.
  - intros e. unfold outcome_of_exn. destruct e; cbn [is_timeout_or_disconnect];
      split; eauto; try discriminate;
      intros [[m Hm]|[m Hm]]; discriminate.
Qed.

Lemma reconnect_is_first_step_of_next_item_witness :
  let env := scripted_env [ok_response 1000 900; ok_response 3 3;
                           RequestRaises (socket_timeout "timed out"); not_found]
                          [] in
  let pu := urlparse "http://www.example.com/a[1-2,7-8].jpg" in
  let conn := mkConnection HTTPConnection "www.example.com" 80 300 0 in
  let w0 := initial_world ∅ in
  steps (new_events w0 (snd (download_of env pu false w0))) =
    ConnConnect conn ::
    policy_steps env conn false (n_request w0) (S (n_connect w0))
      ["/a1.jpg"; "/a2.jpg"; "/a7.jpg"; "/a8.jpg"] ++ [ConnClose] /\
  (forall n p,
     flagged env n p = true <->
     (exists remaining,
        fetch_outcome (env_attempt env n) (env_open env n (basename p)) =
          FailedIncomplete remaining) \/
     (exists e,
        fetch_outcome (env_attempt env n) (env_open env n (basename p)) =
          FailedConnection e)) /\
  (forall e,
     outcome_of_exn e = FailedConnection e <->
     (exists m, e = socket_timeout m) \/ (exists m, e = RemoteDisconnected m)) /\
  fetch_outcome (ok_response 1000 900) None = FailedIncomplete 100.
Proof.
  intros env pu conn w0.
  apply (reconnect_is_first_step_of_next_item env pu false
           {| scheme := "http"; host := "www.example.com"; port := 0;
              path := "/a[*].jpg"; ranges := ["1-2"; "7-8"] |}
           conn ["/a1.jpg"; "/a2.jpg"; "/a7.jpg"; "/a8.jpg"] w0
           (emit_all [ConnConnect conn;
                      Stdout ("Connection: http://www.example.com:80/" +:+ newline)]
                     {| events := []; files := ∅; n_connect := 1; n_request := 0 |}));
    reflexivity.
Defined.

(** The run of the witness, step by step: the first item is incomplete and
    the second starts with the reconnect; the first item of the second
    token times out and the item after it starts with the reconnect; the
    last item is refused and nothing follows it. *)
Example policy_over_two_tokens :
  let env := scripted_env [ok_response 1000 900; ok_response 3 3;
                           RequestRaises (socket_timeout "timed out"); not_found]
                          [] in
  let conn := mkConnection HTTPConnection "www.example.com" 80 300 0 in
  steps (events (snd (download env "http://www.example.com/a[1-2,7-8].jpg" false
                               (initial_world ∅)))) =
    [ConnConnect conn; ConnRequest "GET" "/a1.jpg"] ++
    replicate 181 (Sleep 1) ++
    [ConnConnect conn; ConnRequest "GET" "/a2.jpg"; ConnRequest "GET" "/a7.jpg"] ++
    replicate 181 (Sleep 1) ++
    [ConnConnect conn; ConnRequest "GET" "/a8.jpg"; ConnClose].
Proof. vm_compute. reflexivity. Qed.

(** C2, as the claim states it, fails: the peer resets the connection while
    the first request is sent.  That is an abrupt disconnect, but not one
    of the two classes of the handler: the attempt is reported as an
    unexpected error, [get_content] returns [False], and the second item
    is requested at once, without a wait and without a connect. *)
Lemma reset_is_not_reconnected :
  let e := ConnectionResetError "[Errno 104] Connection reset by peer" in
  let env := scripted_env [RequestRaises e; ok_response 3 3] [] in
  let conn := mkConnection HTTPConnection "www.example.com" 80 300 0 in
  let res := download env "http://www.example.com/a[1-2].jpg" false (initial_world ∅) in
  timeout_or_abrupt_disconnect e = true /\
  fetch_outcome (RequestRaises e) None = UnexpectedPerItemError e /\
  fst (get_content env conn "/a1.jpg" "a1.jpg" (initial_world ∅)) = inr false /\
  fst res = inr tt /\
  take 7 (events (snd res)) =
    [ConnConnect conn;
     Stdout ("Connection: http://www.example.com:80/" +:+ newline);
     Stdout ("----------------------------------------" +:+ newline);
     Stdout ("/a1.jpg => a1.jpg" +:+ newline);
     ConnRequest "GET" "/a1.jpg";
     Stdout ("    Exception: <class 'ConnectionResetError'> " +:+
             "[Errno 104] Connection reset by peer" +:+ newline);
     Stdout ("----------------------------------------" +:+ newline)] /\
  steps (events (snd res)) =
    [ConnConnect conn; ConnRequest "GET" "/a1.jpg"; ConnRequest "GET" "/a2.jpg";
     ConnClose] /\
  seconds_slept (events (snd res)) = 0.
Proof. vm_compute. repeat split. Qed.

(** * Further properties of the code *)

(** ** parse_url: what a returned target says about the URL *)

Lemma span_eq p (s x y : string) :
  span p s = (x, y) -> s = x +:+ y /\ all_chars p x = true.
Proof.
  revert x y. induction s as [|c t IH]; simpl; intros x y H.
  - injection H as <- <-. auto.
  - destruct (p c) eqn:Hc.
    + destruct (span p t) as [x' y'] eqn:E. injection H as <- <-.
      destruct (IH x' y' eq_refl) as [-> Hx]. simpl. now rewrite Hc.
    + injection H as <- <-. auto.
Qed.

Lemma match_bracket_inv (s inner rest : string) :
  match_bracket s = Some (inner, rest) ->
  s = "[" +:+ inner +:+ "]" +:+ rest /\
  inner <> EmptyString /\ all_chars in_class inner = true.
Proof.
  destruct s as [|c t]; [discriminate|].
  destruct (Ascii.eqb c "[") eqn:Ec;
    [|destruct c as [[] [] [] [] [] [] [] []]; discriminate].
  apply Ascii.eqb_eq in Ec as ->. rewrite match_bracket_open.
  destruct (span in_class t) as [x y] eqn:E.
  destruct (span_eq _ _ _ _ E) as [-> Hx].
  destruct x as [|d x]; [discriminate|].
  destruct y as [|e y]; [discriminate|].
  destruct (Ascii.eqb e "]") eqn:Ee;
    [|destruct e as [[] [] [] [] [] [] [] []]; discriminate].
  apply Ascii.eqb_eq in Ee as ->. intros [= <- <-].
  repeat split; [discriminate | exact Hx].
Qed.

Lemma match_bracket_append_some (s x inner rest : string) :
  match_bracket s = Some (inner, rest) ->
  match_bracket (s +:+ x) = Some (inner, rest +:+ x).
Proof.
  intros H. destruct (match_bracket_inv _ _ _ H) as (-> & Hne & Hall).
  rewrite <- (match_bracket_region inner (rest +:+ x) Hne Hall).
  f_equal. simpl. now rewrite !append_assoc.
Qed.

(** A match that [search_bracket] returns is a region of the string, and
    the first one. *)
Lemma search_bracket_inv (s before inner after : string) :
  search_bracket s = Some (before, inner, after) ->
  s = before +:+ "[" +:+ inner +:+ "]" +:+ after /\
  inner <> EmptyString /\ all_chars in_class inner = true /\
  search_bracket before = None.
Proof.
  revert before. induction s as [|c t IH]; intros before H.
  - discriminate.
  - rewrite search_bracket_cons in H.
    destruct (match_bracket (String c t)) as [[i r]|] eqn:Em.
    + injection H as <- <- <-.
      destruct (match_bracket_inv _ _ _ Em) as (-> & Hne & Hall). auto.
    + destruct (search_bracket t) as [[[p i] r]|] eqn:Et; [|discriminate].
      injection H as <- <- <-.
      destruct (IH p eq_refl) as (-> & Hne & Hall & Hp).
      repeat split; auto.
      rewrite search_bracket_cons, Hp.
      destruct (match_bracket (String c p)) as [[i' r']|] eqn:Em'; [|reflexivity].
      apply (match_bracket_append_some _ ("[" +:+ i +:+ "]" +:+ r)) in Em'.
      simpl in Em'. simpl in Em. congruence.
Qed.

Lemma field_digits_dashes (f : string) :
  all_chars in_class f = true -> has_char "," f = false ->
  all_chars is_digit_or_dash f = true.
Proof.
  induction f as [|c f IH]; [reflexivity|].
  unfold has_char. simpl. intros [Hc Hf]%andb_true_iff Hn.
  apply negb_false_iff, andb_true_iff in Hn as [Hn1 Hn2].
  apply negb_true_iff in Hn1.
  assert (is_digit_or_dash c = true) as ->.
  { unfold in_class in Hc. unfold is_digit_or_dash.
    now rewrite Hn1, orb_false_r in Hc. }
  simpl. apply IH; [exact Hf | unfold has_char; now rewrite Hn2].
Qed.

(** X1.  A target that [parse_url] returns tells how the path was cut:
    the path is [before[inner]after] for the first bracketed region, the
    template is [before[*]after], and the tokens are the non-empty fields
    of [inner]; scheme and host are those of the URL.  When the text around
    the region holds no marker, putting the bracket back in the place of
    the marker gives the path again. *)
Theorem parse_url_is_lossless (parsed_url : ParseResult) (o : ParsedTarget) :
  parse_url_of parsed_url = inr o ->
  exists before inner after : string,
    pr_path parsed_url = before +:+ "[" +:+ inner +:+ "]" +:+ after /\
    inner <> EmptyString /\ all_chars in_class inner = true /\
    search_bracket before = None /\
    path o = before +:+ marker +:+ after /\
    ranges o = filter (fun x : string => x <> EmptyString) (split "," inner) /\
    scheme o = pr_scheme parsed_url /\
    host o = hd EmptyString (split ":" (pr_netloc parsed_url)) /\
    parse_port (split ":" (pr_netloc parsed_url)) = inr (port o) /\
    (count marker before = O -> count marker after = O ->
     replace marker ("[" +:+ inner +:+ "]") (path o) = pr_path parsed_url).
Proof.
  unfold parse_url_of.
  destruct (parse_port (split ":" (pr_netloc parsed_url))) as [e|p] eqn:Hport;
    [discriminate|].
  destruct (search_bracket (pr_path parsed_url)) as [[[before inner] after]|] eqn:Hs;
    [|discriminate].
  intros [= <-]. cbn [path ranges scheme host port].
  destruct (search_bracket_inv _ _ _ _ Hs) as (Hpath & Hne & Hall & Hfirst).
  exists before, inner, after.
  repeat split; auto using range_tokens_filter.
  intros Hb Ha. rewrite (replace_marker_insert _ _ _ Hb Ha), Hpath.
  f_equal. simpl. now rewrite !append_assoc.
Qed.

Lemma parse_url_is_lossless_witness :
  exists before inner after : string,
    pr_path (urlparse "http://www.example.com:8080/x/[0001-0025].jpg") =
      before +:+ "[" +:+ inner +:+ "]" +:+ after /\
    inner <> EmptyString /\ all_chars in_class inner = true /\
    search_bracket before = None /\
    "/x/[*].jpg" = before +:+ marker +:+ after /\
    ["0001-0025"] = filter (fun x : string => x <> EmptyString) (split "," inner) /\
    "http" = pr_scheme (urlparse "http://www.example.com:8080/x/[0001-0025].jpg") /\
    "www.example.com" =
      hd EmptyString (split ":" (pr_netloc (urlparse "http://www.example.com:8080/x/[0001-0025].jpg"))) /\
    parse_port (split ":" (pr_netloc (urlparse "http://www.example.com:8080/x/[0001-0025].jpg"))) =
      inr 8080 /\
    (count marker before = O -> count marker after = O ->
     replace marker ("[" +:+ inner +:+ "]") "/x/[*].jpg" =
       pr_path (urlparse "http://www.example.com:8080/x/[0001-0025].jpg")).
Proof.
  apply (parse_url_is_lossless
           (urlparse "http://www.example.com:8080/x/[0001-0025].jpg")
           {| scheme := "http"; host := "www.example.com"; port := 8080;
              path := "/x/[*].jpg"; ranges := ["0001-0025"] |}).
  reflexivity.
Defined.

(** X2.  No token that [parse_url] returns is empty, and every token is
    made of digits and hyphens: no comma, no blank. *)
Theorem parse_url_tokens_are_clean (parsed_url : ParseResult) (o : ParsedTarget) :
  parse_url_of parsed_url = inr o ->
  Forall (fun r : string => r <> EmptyString /\ all_chars is_digit_or_dash r = true)
         (ranges o).
Proof.
  unfold parse_url_of.
  destruct (parse_port (split ":" (pr_netloc parsed_url))) as [e|p]; [discriminate|].
  destruct (search_bracket (pr_path parsed_url)) as [[[before inner] after]|] eqn:Hs;
    [|discriminate].
  intros [= <-]. cbn [ranges].
  destruct (search_bracket_inv _ _ _ _ Hs) as (_ & _ & Hall & _).
  rewrite (range_tokens_filter _ Hall).
  pose proof (split_fields _ "," _ Hall) as Hf.
  pose proof (split_no_sep "," inner) as Hn.
  rewrite Forall_forall in *. intros r [Hr Hin]%list_elem_of_filter.
  split; [exact Hr|]. apply field_digits_dashes; auto.
Qed.

Lemma parse_url_tokens_are_clean_witness :
  Forall (fun r : string => r <> EmptyString /\ all_chars is_digit_or_dash r = true)
         ["1"; "2-5"; "-"; "7--"].
Proof.
  apply (parse_url_tokens_are_clean
           (urlparse "http://www.example.com/c[1,,2-5,-,7--].jpg")
           {| scheme := "http"; host := "www.example.com"; port := 0;
              path := "/c[*].jpg"; ranges := ["1"; "2-5"; "-"; "7--"] |}).
  reflexivity.
Defined.

(** ** parse_url: host and port *)

Lemma split_no_sep_single sep (s : string) :
  has_char sep s = false -> split sep s = [s].
Proof.
  unfold has_char. induction s as [|c t IH]; simpl; [reflexivity|].
  intros [Hc Ht]%negb_false_iff%andb_true_iff. apply negb_true_iff in Hc.
  rewrite Hc, IH; [reflexivity | now rewrite Ht].
Qed.

Lemma split_at_first_sep sep (h t : string) :
  has_char sep h = false ->
  split sep (h +:+ String sep t) = h :: split sep t.
Proof.
  unfold has_char. induction h as [|c h IH]; simpl.
  - intros _. now rewrite Ascii.eqb_refl.
  - intros [Hc Hh]%negb_false_iff%andb_true_iff. apply negb_true_iff in Hc.
    rewrite Hc, IH; [reflexivity | now rewrite Hh].
Qed.

Lemma split_length_has_sep sep (s : string) :
  has_char sep s = true -> (2 <= length (split sep s))%nat.
Proof.
  unfold has_char. induction s as [|c t IH]; simpl; [discriminate|].
  pose proof (split_not_nil sep t) as Hne.
  destruct (Ascii.eqb c sep); simpl.
  - intros _. destruct (split sep t); [congruence | simpl; lia].
  - intros H. specialize (IH H). destruct (split sep t); simpl in *; lia.
Qed.

(** X3.  The authority is cut at its colons.  Without a colon the host is
    the whole authority and the port is 0.  With one colon the host is what
    precedes it and the port is [int] of what follows, and when that is no
    number [parse_url] raises [ValueError] whether or not the path has a
    range.  With two colons or more the port is 0 and the host is what
    precedes the first colon: the rest is dropped without a word. *)
Theorem parse_url_host_and_port (parsed_url : ParseResult) (h rest : string) :
  has_char ":" h = false ->
  (pr_netloc parsed_url = h ->
   parse_port (split ":" (pr_netloc parsed_url)) = inr 0 /\
   hd EmptyString (split ":" (pr_netloc parsed_url)) = h) /\
  (pr_netloc parsed_url = h +:+ ":" +:+ rest -> has_char ":" rest = false ->
   hd EmptyString (split ":" (pr_netloc parsed_url)) = h /\
   (forall n, int rest = Some n ->
              parse_port (split ":" (pr_netloc parsed_url)) = inr n) /\
   (int rest = None -> exists msg, parse_url_of parsed_url = inl (ValueError msg))) /\
  (pr_netloc parsed_url = h +:+ ":" +:+ rest -> has_char ":" rest = true ->
   hd EmptyString (split ":" (pr_netloc parsed_url)) = h /\
   parse_port (split ":" (pr_netloc parsed_url)) = inr 0).
Proof.
  intros Hh. split; [|split].
  - intros ->. now rewrite (split_no_sep_single _ _ Hh).
  - intros Hn Hr.
    assert (split ":" (pr_netloc parsed_url) = [h; rest]) as Hs.
    { rewrite Hn. change (h +:+ ":" +:+ rest) with (h +:+ String ":" rest).
      now rewrite (split_at_first_sep _ _ _ Hh), (split_no_sep_single _ _ Hr). }
    split; [now rewrite Hs|]. split.
    + intros n Hi. rewrite Hs. cbn [parse_port]. unfold int_exc. now rewrite Hi.
    + intros Hi. unfold parse_url_of. rewrite Hs. cbn [parse_port].
      unfold int_exc. rewrite Hi. now eexists.
  - intros Hn Hr. rewrite Hn.
    change (h +:+ ":" +:+ rest) with (h +:+ String ":" rest).
    rewrite (split_at_first_sep _ _ _ Hh). split; [reflexivity|].
    pose proof (split_length_has_sep _ _ Hr) as Hl.
    destruct (split ":" rest) as [|x [|y l]]; simpl in Hl; try lia. reflexivity.
Qed.

Lemma parse_url_host_and_port_witness :
  (pr_netloc (urlparse "http://www.example.com:80x/a[1-3].jpg") = "www.example.com" ->
   parse_port (split ":" (pr_netloc (urlparse "http://www.example.com:80x/a[1-3].jpg"))) = inr 0 /\
   hd EmptyString (split ":" (pr_netloc (urlparse "http://www.example.com:80x/a[1-3].jpg"))) =
     "www.example.com") /\
  (pr_netloc (urlparse "http://www.example.com:80x/a[1-3].jpg") = "www.example.com" +:+ ":" +:+ "80x" ->
   has_char ":" "80x" = false ->
   hd EmptyString (split ":" (pr_netloc (urlparse "http://www.example.com:80x/a[1-3].jpg"))) =
     "www.example.com" /\
   (forall n, int "80x" = Some n ->
      parse_port (split ":" (pr_netloc (urlparse "http://www.example.com:80x/a[1-3].jpg"))) =
        inr n) /\
   (int "80x" = None ->
    exists msg, parse_url_of (urlparse "http://www.example.com:80x/a[1-3].jpg") =
                  inl (ValueError msg))) /\
  (pr_netloc (urlparse "http://www.example.com:80x/a[1-3].jpg") = "www.example.com" +:+ ":" +:+ "80x" ->
   has_char ":" "80x" = true ->
   hd EmptyString (split ":" (pr_netloc (urlparse "http://www.example.com:80x/a[1-3].jpg"))) =
     "www.example.com" /\
   parse_port (split ":" (pr_netloc (urlparse "http://www.example.com:80x/a[1-3].jpg"))) = inr 0).
Proof.
  apply (parse_url_host_and_port (urlparse "http://www.example.com:80x/a[1-3].jpg")
           "www.example.com" "80x").
  reflexivity.
Defined.

(** The three shapes of an authority, on URLs. *)
Example ports_of_urls :
  parse_url "http://www.example.com/a[1-3].jpg" =
    inr (mkParsedTarget "http" "www.example.com" 0 "/a[*].jpg" ["1-3"]) /\
  parse_url "http://www.example.com:8080/a[1-3].jpg" =
    inr (mkParsedTarget "http" "www.example.com" 8080 "/a[*].jpg" ["1-3"]) /\
  parse_url "http://www.example.com:/a[1-3].jpg" =
    inl (ValueError "invalid literal for int() with base 10: ''") /\
  parse_url "http://www.example.com:80:90/a[1-3].jpg" =
    inr (mkParsedTarget "http" "www.example.com" 0 "/a[*].jpg" ["1-3"]).
Proof. repeat split. Qed.

(** ** The tokens that get_digit and parse_range accept *)

Lemma fullmatch_range_shape (s g0 g1 : string) :
  fullmatch_range s = Some (g0, g1) ->
  s = g0 +:+ "-" +:+ g1 /\
  g0 <> EmptyString /\ all_chars is_digit g0 = true /\
  g1 <> EmptyString /\ all_chars is_digit g1 = true.
Proof.
  intros H. destruct (fullmatch_range_inv _ _ _ H) as (H0 & H1 & Hd1 & Hg).
  unfold fullmatch_range in H.
  destruct (span is_digit s) as [x y] eqn:E.
  destruct (span_eq _ _ _ _ E) as [-> Hx]. simpl in Hg. subst x.
  destruct g0 as [|c x]; [congruence|].
  destruct y as [|e y]; [discriminate|].
  destruct (Ascii.eqb e "-") eqn:Ee;
    [|destruct e as [[] [] [] [] [] [] [] []]; destruct y; discriminate].
  apply Ascii.eqb_eq in Ee as ->.
  destruct y as [|d y]; [discriminate|].
  destruct (all_chars is_digit (String d y)); [|discriminate].
  injection H as <-. auto.
Qed.

Lemma fullmatch_range_digits (g : string) :
  all_chars is_digit g = true -> fullmatch_range g = None.
Proof.
  intros H. unfold fullmatch_range. pose proof (span_all is_digit g "" H) as E.
  rewrite append_nil_r in E. rewrite E. simpl. rewrite append_nil_r.
  now destruct g.
Qed.

Lemma fullmatch_digits_all (g : string) :
  g <> EmptyString -> all_chars is_digit g = true -> fullmatch_digits g = Some g.
Proof. intros Hne H. unfold fullmatch_digits. destruct g; [congruence | now rewrite H]. Qed.

(** [parse_range] on one group of digits: the limit of [int] decides. *)
Lemma parse_range_digits (g : string) :
  g <> EmptyString -> all_chars is_digit g = true ->
  parse_range g =
    if int_max_str_digits <? Z.of_nat (String.length g)
    then inl (ValueError (int_error g))
    else inr [decimal_value 0 g].
Proof.
  intros Hne H. unfold parse_range, int_exc.
  rewrite (fullmatch_range_digits _ H), (fullmatch_digits_all _ Hne H).
  rewrite (int_digits_limit _ Hne H).
  destruct (int_max_str_digits <? Z.of_nat (String.length g)); [reflexivity|].
  unfold range. replace (decimal_value 0 g + 1 - decimal_value 0 g) with 1 by lia.
  reflexivity.
Qed.

(** [parse_range] on two groups of digits with a dash between them. *)
Lemma parse_range_dash_limit (x y : string) :
  x <> EmptyString -> all_chars is_digit x = true ->
  y <> EmptyString -> all_chars is_digit y = true ->
  parse_range (x +:+ "-" +:+ y) =
    if int_max_str_digits <? Z.of_nat (String.length x)
    then inl (ValueError (int_error x))
    else if int_max_str_digits <? Z.of_nat (String.length y)
    then inl (ValueError (int_error y))
    else inr (seqZ (Z.min (decimal_value 0 x) (decimal_value 0 y))
                   (Z.max (decimal_value 0 x) (decimal_value 0 y) -
                    Z.min (decimal_value 0 x) (decimal_value 0 y) + 1)).
Proof.
  intros Hx1 Hx2 Hy1 Hy2. unfold parse_range, int_exc.
  rewrite (fullmatch_range_dash _ _ Hx1 Hx2 Hy1 Hy2).
  rewrite (int_digits_limit _ Hx1 Hx2), (int_digits_limit _ Hy1 Hy2).
  destruct (int_max_str_digits <? Z.of_nat (String.length x)); [reflexivity|].
  destruct (int_max_str_digits <? Z.of_nat (String.length y)); [reflexivity|].
  destruct (decimal_value 0 x >? decimal_value 0 y) eqn:E; unfold range;
    do 2 f_equal; lia.
Qed.

Lemma int_error_not_format (g : string) : ValueError (int_error g) <> wrong_range_format.
Proof.
  unfold wrong_range_format, int_error.
  destruct (is_Some_bool _ && exceeds_limit g); intros [= H]; discriminate H.
Qed.

(** X4.  [get_digit] and [parse_range] look for the same two shapes: a run
    of digits, or two runs of digits with one dash between them.  On any
    other string both raise the same [ValueError].  On a token [get_digit]
    always returns, with the length of the first run; [parse_range] returns
    when no run is longer than the limit of [int], and raises another
    [ValueError] when one is: in [download] that exception comes after
    [get_digit] has returned. *)
Theorem tokens_accepted_together (r : string) :
  (get_digit r = inl wrong_range_format /\ parse_range r = inl wrong_range_format /\
   fullmatch_range r = None /\ fullmatch_digits r = None) \/
  (r <> EmptyString /\ all_chars is_digit r = true /\
   get_digit r = inr (String.length r) /\
   (Z.of_nat (String.length r) <= int_max_str_digits ->
    parse_range r = inr [decimal_value 0 r]) /\
   (int_max_str_digits < Z.of_nat (String.length r) ->
    exists msg, parse_range r = inl (ValueError msg) /\
                ValueError msg <> wrong_range_format)) \/
  (exists a b,
     r = a +:+ "-" +:+ b /\
     a <> EmptyString /\ all_chars is_digit a = true /\
     b <> EmptyString /\ all_chars is_digit b = true /\
     get_digit r = inr (String.length a) /\
     (Z.of_nat (String.length a) <= int_max_str_digits ->
      Z.of_nat (String.length b) <= int_max_str_digits ->
      exists items, parse_range r = inr items) /\
     (int_max_str_digits < Z.of_nat (String.length a) \/
      int_max_str_digits < Z.of_nat (String.length b) ->
      exists msg, parse_range r = inl (ValueError msg) /\
                  ValueError msg <> wrong_range_format)).
Proof.
  destruct (fullmatch_range r) as [[g0 g1]|] eqn:E.
  - right. right.
    destruct (fullmatch_range_shape _ _ _ E) as (Hr & Ha1 & Ha2 & Hb1 & Hb2).
    exists g0, g1. repeat (split; [assumption|]).
    split; [unfold get_digit; now rewrite E|].
    rewrite Hr, (parse_range_dash_limit _ _ Ha1 Ha2 Hb1 Hb2).
    destruct (int_max_str_digits <? Z.of_nat (String.length g0)) eqn:L0;
      [|destruct (int_max_str_digits <? Z.of_nat (String.length g1)) eqn:L1].
    + apply Z.ltb_lt in L0. split; [lia|].
      intros _. eexists. split; [reflexivity | apply int_error_not_format].
    + apply Z.ltb_lt in L1. split; [lia|].
      intros _. eexists. split; [reflexivity | apply int_error_not_format].
    + apply Z.ltb_ge in L0, L1. split; [eauto | lia].
  - destruct (fullmatch_digits r) as [g|] eqn:E'.
    + right. left. apply fullmatch_digits_inv in E' as (-> & Hne & Hall).
      split; [exact Hne|]. split; [exact Hall|].
      split.
      { unfold get_digit. now rewrite E, (fullmatch_digits_all _ Hne Hall). }
      rewrite (parse_range_digits _ Hne Hall).
      destruct (int_max_str_digits <? Z.of_nat (String.length r)) eqn:L.
      * apply Z.ltb_lt in L. split; [lia|].
        intros _. eexists. split; [reflexivity | apply int_error_not_format].
      * apply Z.ltb_ge in L. split; [reflexivity | lia].
    + left. unfold get_digit, parse_range. rewrite E, E'. auto.
Qed.

(** A literal of 4301 digits: [get_digit] returns its length and
    [parse_range] raises, with the message of the interpreter; one digit
    less and [parse_range] returns. *)
Example literal_over_the_limit :
  let long := string_of_list_ascii (repeat "1"%char 4301) in
  let short := string_of_list_ascii (repeat "1"%char 4300) in
  get_digit long = inr 4301%nat /\
  parse_range long =
    inl (ValueError
           ("Exceeds the limit (4300 digits) for integer string conversion: " +:+
            "value has 4301 digits; use sys.set_int_max_str_digits() " +:+
            "to increase the limit")) /\
  get_digit short = inr 4300%nat /\
  (exists n, parse_range short = inr [n]).
Proof.
  split; [vm_compute; reflexivity|]. split; [vm_compute; reflexivity|].
  split; [vm_compute; reflexivity|]. eexists. vm_compute. reflexivity.
Qed.

Lemma parse_range_bounds (r : string) (items : list Z) :
  parse_range r = inr items ->
  exists lo hi, 0 <= lo <= hi /\ items = seqZ lo (hi - lo + 1).
Proof.
  intros H.
  destruct (fullmatch_range r) as [[g0 g1]|] eqn:E.
  - destruct (fullmatch_range_shape _ _ _ E) as (-> & Ha1 & Ha2 & Hb1 & Hb2).
    rewrite (parse_range_dash_limit _ _ Ha1 Ha2 Hb1 Hb2) in H.
    destruct (int_max_str_digits <? Z.of_nat (String.length g0)); [discriminate|].
    destruct (int_max_str_digits <? Z.of_nat (String.length g1)); [discriminate|].
    injection H as <-.
    pose proof (decimal_value_nonneg g0 0 (Z.le_refl 0)).
    pose proof (decimal_value_nonneg g1 0 (Z.le_refl 0)).
    exists (Z.min (decimal_value 0 g0) (decimal_value 0 g1)),
           (Z.max (decimal_value 0 g0) (decimal_value 0 g1)).
    split; [lia | reflexivity].
  - destruct (fullmatch_digits r) as [g|] eqn:E';
      [|unfold parse_range in H; rewrite E, E' in H; discriminate].
    apply fullmatch_digits_inv in E' as (-> & Hne & Hall).
    rewrite (parse_range_digits _ Hne Hall) in H.
    destruct (int_max_str_digits <? Z.of_nat (String.length r)); [discriminate|].
    injection H as <-.
    pose proof (decimal_value_nonneg r 0 (Z.le_refl 0)).
    exists (decimal_value 0 r), (decimal_value 0 r). split; [lia|].
    replace (decimal_value 0 r - decimal_value 0 r + 1) with 1 by lia. reflexivity.
Qed.

(** X5.  The numbers of a token are never none: they are the integers from
    a lower bound that is not negative up to an upper bound, each once and
    in ascending order. *)
Theorem parse_range_is_an_interval (r : string) (items : list Z) :
  parse_range r = inr items ->
  exists lo hi : Z,
    0 <= lo <= hi /\
    items = seqZ lo (hi - lo + 1) /\
    length items = Z.to_nat (hi - lo + 1) /\
    items <> [] /\ NoDup items /\
    head items = Some lo /\ last items = Some hi /\
    (forall i, i ∈ items <-> lo <= i <= hi).
Proof.
  intros H. destruct (parse_range_bounds _ _ H) as (lo & hi & Hb & ->).
  exists lo, hi. split; [exact Hb|]. split; [reflexivity|].
  split; [apply length_seqZ|]. split.
  { rewrite seqZ_cons by lia. discriminate. }
  split; [apply NoDup_seqZ|]. split.
  { rewrite seqZ_cons by lia. reflexivity. }
  split.
  { replace (hi - lo + 1) with (Z.of_nat (S (Z.to_nat (hi - lo)))) by lia.
    rewrite seqZ_S, last_snoc. f_equal. lia. }
  intros i. rewrite elem_of_seqZ. lia.
Qed.

Lemma parse_range_is_an_interval_witness :
  exists lo hi : Z,
    0 <= lo <= hi /\
    seqZ 8 3 = seqZ lo (hi - lo + 1) /\
    length (seqZ 8 3) = Z.to_nat (hi - lo + 1) /\
    seqZ 8 3 <> [] /\ NoDup (seqZ 8 3) /\
    head (seqZ 8 3) = Some lo /\ last (seqZ 8 3) = Some hi /\
    (forall i, i ∈ seqZ 8 3 <-> lo <= i <= hi).
Proof. apply (parse_range_is_an_interval "10-08" (seqZ 8 3)). reflexivity. Defined.

Lemma parse_range_dash (x y : string) :
  x <> EmptyString -> all_chars is_digit x = true ->
  y <> EmptyString -> all_chars is_digit y = true ->
  Z.of_nat (String.length x) <= int_max_str_digits ->
  Z.of_nat (String.length y) <= int_max_str_digits ->
  parse_range (x +:+ "-" +:+ y) =
    inr (seqZ (Z.min (decimal_value 0 x) (decimal_value 0 y))
              (Z.max (decimal_value 0 x) (decimal_value 0 y) -
               Z.min (decimal_value 0 x) (decimal_value 0 y) + 1)).
Proof.
  intros Hx1 Hx2 Hy1 Hy2 Lx Ly. rewrite (parse_range_dash_limit _ _ Hx1 Hx2 Hy1 Hy2).
  apply Z.ltb_ge in Lx, Ly. now rewrite Lx, Ly.
Qed.

Lemma get_digit_dash (x y : string) :
  x <> EmptyString -> all_chars is_digit x = true ->
  y <> EmptyString -> all_chars is_digit y = true ->
  get_digit (x +:+ "-" +:+ y) = inr (String.length x).
Proof.
  intros Hx1 Hx2 Hy1 Hy2. unfold get_digit.
  now rewrite (fullmatch_range_dash _ _ Hx1 Hx2 Hy1 Hy2).
Qed.

(** X6.  In a dash token whose two literals [int] can read, the order of
    the two numbers does not change the numbers that are enumerated, from
    the smaller to the greater; it only chooses the width, which is the
    length of the literal written first. *)
Theorem dash_token_bounds_commute (a b : string) :
  a <> EmptyString -> all_chars is_digit a = true ->
  b <> EmptyString -> all_chars is_digit b = true ->
  Z.of_nat (String.length a) <= int_max_str_digits ->
  Z.of_nat (String.length b) <= int_max_str_digits ->
  let va := decimal_value 0 a in
  let vb := decimal_value 0 b in
  parse_range (a +:+ "-" +:+ b) =
    inr (seqZ (Z.min va vb) (Z.max va vb - Z.min va vb + 1)) /\
  parse_range (b +:+ "-" +:+ a) = parse_range (a +:+ "-" +:+ b) /\
  get_digit (a +:+ "-" +:+ b) = inr (String.length a) /\
  get_digit (b +:+ "-" +:+ a) = inr (String.length b) /\
  token_numbers (a +:+ "-" +:+ b) =
    inr (map (fun i => rjust "0" (String.length a) (str i))
             (seqZ (Z.min va vb) (Z.max va vb - Z.min va vb + 1))).
Proof.
  intros Ha1 Ha2 Hb1 Hb2 La Lb va vb.
  pose proof (get_digit_dash a b Ha1 Ha2 Hb1 Hb2) as Hd.
  split; [now apply parse_range_dash|]. split.
  { rewrite !parse_range_dash by assumption. fold va vb. do 2 f_equal; lia. }
  split; [exact Hd|]. split; [now apply get_digit_dash|].
  unfold token_numbers. rewrite Hd, parse_range_dash by assumption. reflexivity.
Qed.

Lemma dash_token_bounds_commute_witness :
  parse_range ("8" +:+ "-" +:+ "011") = inr (seqZ (Z.min 8 11) (Z.max 8 11 - Z.min 8 11 + 1)) /\
  parse_range ("011" +:+ "-" +:+ "8") = parse_range ("8" +:+ "-" +:+ "011") /\
  get_digit ("8" +:+ "-" +:+ "011") = inr 1%nat /\
  get_digit ("011" +:+ "-" +:+ "8") = inr 3%nat /\
  token_numbers ("8" +:+ "-" +:+ "011") =
    inr (map (fun i => rjust "0" 1 (str i)) (seqZ (Z.min 8 11) (Z.max 8 11 - Z.min 8 11 + 1))).
Proof.
  apply (dash_token_bounds_commute "8" "011");
    [discriminate | reflexivity | discriminate | reflexivity
    | vm_compute; discriminate | vm_compute; discriminate].
Defined.

(** ** A literal is written back as it was read *)



(** ** get_content: flag, bytes and file handle *)

(** X8.  [get_content] never raises and returns the flag exactly when the
    outcome of the attempt is [FailedIncomplete] or [FailedConnection]: a
    success, a status of 300 or more and every other exception (a missing
    or malformed Content-Length, a file that cannot be opened, an error of
    the transport that is no timeout) return [False].  Whatever happens it
    makes one request, for its path, and neither connects, waits nor
    closes the connection. *)
Theorem get_content_flag_and_footprint
    (env : Env) (conn : Connection) (cp fp : string) (w : World) :
  let out := fetch_outcome (env_attempt env (n_request w)) (env_open env (n_request w) fp) in
  let res := get_content env conn cp fp w in
  (fst res = inr true <->
   (exists remaining, out = FailedIncomplete remaining) \/ (exists e, out = FailedConnection e)) /\
  (fst res = inr false <->
   out = Success \/ (exists code reason, out = FailedStatus code reason) \/
   (exists e, out = UnexpectedPerItemError e)) /\
  requested (new_events w (snd res)) = [cp] /\
  Forall (fun e => is_wait_or_connect e = false /\ e <> ConnClose) (new_events w (snd res)) /\
  n_request (snd res) = S (n_request w) /\ n_connect (snd res) = n_connect w.
Proof.
  intros out res.
  destruct (get_content_spec env conn cp fp w)
    as (Hflag & (tail & Hev & Hloc & _) & Hc & Hq & _).
  fold out res in Hflag, Hev, Hc, Hq. rewrite Hflag.
  split; [|split; [|split; [|split; [|auto]]]].
  - destruct out; cbn [needs_reconnect]; split; intros H;
      try discriminate; try reflexivity; eauto;
      destruct H as [[? H]|[? H]]; discriminate.
  - destruct out; cbn [needs_reconnect]; split; intros H;
      try discriminate; try reflexivity; eauto 6;
      destruct H as [H|[(? & ? & H)|[? H]]]; discriminate.
  - rewrite (new_events_app _ _ _ Hev).
    now rewrite requested_app, requested_announce, (requested_local _ Hloc).
  - rewrite (new_events_app _ _ _ Hev). apply Forall_app. split.
    + repeat constructor; discriminate.
    + eapply Forall_impl; [exact Hloc|]. intros e He.
      destruct e; try discriminate; split; try reflexivity; discriminate.
Qed.

Lemma stream_result_accounting (steps : list ReadStep) :
  forall (n : Z) (data : bytes) (remaining : Z),
    stream_result steps n = inr (data, remaining) ->
    remaining = n - Z.of_nat (length data).
Proof.
  induction steps as [|[chunk closed|e] steps IH]; intros n data remaining H.
  - injection H as <- <-. simpl. lia.
  - destruct chunk as [|b chunk].
    + cbn [stream_result] in H. destruct ((n <=? 0) || closed).
      * injection H as <- <-. simpl. lia.
      * now apply IH.
    + cbn [stream_result] in H.
      destruct (stream_result steps (n - Z.of_nat (length (b :: chunk))))
        as [e|[data' remaining']] eqn:E; [discriminate|].
      injection H as <- <-. rewrite (IH _ _ _ E).
      cbn [app length]. rewrite length_app. cbn [length]. lia.
  - discriminate.
Qed.

(** X9.  When the response is read without an exception, what
    [get_content] reports as remaining is the declared length less the
    bytes it wrote, the file holds those bytes and nothing else, and the
    flag is raised exactly when the two lengths differ: also when the
    server sent more than it declared. *)
Theorem remaining_is_declared_less_written
    (env : Env) (conn : Connection) (cp fp : string) (w : World)
    (r : Response) (n : Z) (data : bytes) (remaining : Z) :
  env_attempt env (n_request w) = Responds r ->
  status r < 300 ->
  int_header (content_length_header r) = inr n ->
  env_open env (n_request w) fp = None ->
  stream_result (body r) n = inr (data, remaining) ->
  let res := get_content env conn cp fp w in
  remaining = n - Z.of_nat (length data) /\
  files (snd res) !! fp = Some data /\
  fst res = inr (negb (n =? Z.of_nat (length data))) /\
  last (new_events w (snd res)) =
    Some (if n =? Z.of_nat (length data) then FileClose fp
          else disconnected_line (n - Z.of_nat (length data))).
Proof.
  intros Ha Hs Hh Ho Hres res.
  pose proof (stream_result_accounting _ _ _ _ Hres) as Hacc.
  split; [exact Hacc|].
  split; [exact (get_content_file_contents env conn cp fp w r n data remaining
                   Ha Hs Hh Ho Hres)|].
  subst res. rewrite (get_content_streams _ _ _ _ _ _ _ Ha Hs Hh Ho).
  destruct (stream_spec fp (body r) n (opened cp fp w)) as (Hr & Hl & _).
  destruct (stream fp (body r) n (opened cp fp w)) as [res w'].
  cbn [fst snd] in Hr, Hl. rewrite Hres in Hr. subst res.
  destruct Hl as [(evs & Hev & _) _].
  assert (events w' = events w ++ (announce cp fp ++ [ConnGetResponse; FileOpen fp] ++ evs))
    as Hev' by (rewrite Hev; unfold opened; cbn [events]; now rewrite <- !app_assoc).
  assert ((remaining =? 0) = (n =? Z.of_nat (length data))) as Hz.
  { destruct (Z.eqb_spec remaining 0), (Z.eqb_spec n (Z.of_nat (length data)));
      try reflexivity; lia. }
  rewrite <- Hz, <- Hacc. destruct (remaining =? 0); cbn [fst snd negb].
  - split; [reflexivity|].
    erewrite new_events_app
      by (cbn [emit_all events]; rewrite Hev', <- !app_assoc; reflexivity).
    now rewrite !app_assoc, last_snoc.
  - split; [reflexivity|].
    erewrite new_events_app
      by (cbn [emit_all events]; rewrite Hev', <- !app_assoc; reflexivity).
    change [FileClose fp; disconnected_line remaining]
      with ([FileClose fp] ++ [disconnected_line remaining]).
    now rewrite !app_assoc, last_snoc.
Qed.

Lemma remaining_is_declared_less_written_witness :
  let env := scripted_env [ok_response 10 12] [] in
  let res := get_content env (mkConnection HTTPConnection "www.example.com" 80 300 0)
                         "/a1.jpg" "a1.jpg" (initial_world ∅) in
  -2 = 10 - Z.of_nat (length (replicate 12 Byte.x00)) /\
  files (snd res) !! "a1.jpg" = Some (replicate 12 Byte.x00) /\
  fst res = inr (negb (10 =? Z.of_nat (length (replicate 12 Byte.x00)))) /\
  last (new_events (initial_world ∅) (snd res)) =
    Some (if 10 =? Z.of_nat (length (replicate 12 Byte.x00)) then FileClose "a1.jpg"
          else disconnected_line (10 - Z.of_nat (length (replicate 12 Byte.x00)))).
Proof.
  intros env.
  apply (remaining_is_declared_less_written env
           (mkConnection HTTPConnection "www.example.com" 80 300 0)
           "/a1.jpg" "a1.jpg" (initial_world ∅)
           (mkResponse 200 "OK" (Some "10") [ReadReturns (replicate 12 Byte.x00) false])
           10 (replicate 12 Byte.x00) (-2));
    [reflexivity | reflexivity | reflexivity | reflexivity | reflexivity].
Defined.

Lemma stream_body_events (name : string) (steps : list ReadStep) :
  forall (n : Z) (w : World),
    exists evs,
      events (snd (stream name steps n w)) = events w ++ evs /\
      Forall (fun e => is_body_event name e = true) evs.
Proof.
  induction steps as [|[chunk closed|e] steps IH]; intros n w.
  - rewrite stream_nil. eexists. split; [reflexivity | repeat constructor].
  - destruct chunk as [|b chunk].
    + rewrite stream_empty_read. destruct ((n <=? 0) || closed).
      * eexists. split; [reflexivity | repeat constructor].
      * destruct (IH n (emit_all [ResponseRead (Some 4096)] w)) as (evs & Hev & Hf).
        exists (ResponseRead (Some 4096) :: evs). split; [|now constructor].
        rewrite Hev. cbn [emit_all events]. now rewrite <- app_assoc.
    + rewrite stream_chunk.
      destruct (IH (n - Z.of_nat (length (b :: chunk))) (written name (b :: chunk) w))
        as (evs & Hev & Hf).
      exists ([ResponseRead (Some 4096); FileWrite name (b :: chunk)] ++ evs).
      split.
      * rewrite Hev. unfold written. cbn [events]. now rewrite <- app_assoc.
      * apply Forall_app. split; [|exact Hf].
        repeat constructor. cbn [is_body_event]. apply String.eqb_refl.
  - rewrite stream_raises. eexists. split; [reflexivity | repeat constructor].
Qed.

(** X10.  Once the destination file is open it is closed on every way out
    of the attempt, also when a read raises; between the open and the
    close there are only reads of the body and writes to that file; and the
    line that reports the result comes after the close. *)
Theorem file_is_closed_on_every_path
    (env : Env) (conn : Connection) (cp fp : string) (w : World)
    (r : Response) (n : Z) :
  env_attempt env (n_request w) = Responds r ->
  status r < 300 ->
  int_header (content_length_header r) = inr n ->
  env_open env (n_request w) fp = None ->
  exists body_events : list Event,
    new_events w (snd (get_content env conn cp fp w)) =
      announce cp fp ++ [ConnGetResponse; FileOpen fp] ++ body_events ++ [FileClose fp] ++
      match stream_result (body r) n with
      | inl e => [exception_line e]
      | inr (_, remaining) => if remaining =? 0 then [] else [disconnected_line remaining]
      end /\
    Forall (fun e => is_body_event fp e = true) body_events.
Proof.
  intros Ha Hs Hh Ho.
  rewrite (get_content_streams _ _ _ _ _ _ _ Ha Hs Hh Ho).
  destruct (stream_spec fp (body r) n (opened cp fp w)) as (Hr & _).
  destruct (stream_body_events fp (body r) n (opened cp fp w)) as (evs & Hev & Hf).
  destruct (stream fp (body r) n (opened cp fp w)) as [res w'].
  cbn [fst snd] in Hr, Hev. exists evs. split; [|exact Hf].
  assert (events w' = events w ++ (announce cp fp ++ [ConnGetResponse; FileOpen fp] ++ evs))
    as Hev' by (rewrite Hev; unfold opened; cbn [events]; now rewrite <- !app_assoc).
  destruct (stream_result (body r) n) as [e|[data remaining]]; subst res.
  - cbn [snd]. apply new_events_app. cbn [emit_all events].
    rewrite Hev', <- !app_assoc. reflexivity.
  - destruct (remaining =? 0); cbn [snd]; apply new_events_app; cbn [emit_all events];
      rewrite Hev', <- !app_assoc; reflexivity.
Qed.

Lemma file_is_closed_on_every_path_witness :
  let r := mkResponse 200 "OK" (Some "10")
             [ReadReturns [Byte.x01; Byte.x02] false; ReadRaises (OSError "Connection reset by peer")] in
  let env := scripted_env [Responds r] [] in
  exists body_events : list Event,
    new_events (initial_world ∅)
      (snd (get_content env (mkConnection HTTPConnection "www.example.com" 80 300 0)
                        "/a1.jpg" "a1.jpg" (initial_world ∅))) =
      announce "/a1.jpg" "a1.jpg" ++ [ConnGetResponse; FileOpen "a1.jpg"] ++ body_events ++
      [FileClose "a1.jpg"] ++
      match stream_result (body r) 10 with
      | inl e => [exception_line e]
      | inr (_, remaining) => if remaining =? 0 then [] else [disconnected_line remaining]
      end /\
    Forall (fun e => is_body_event "a1.jpg" e = true) body_events.
Proof.
  intros r env.
  apply (file_is_closed_on_every_path env
           (mkConnection HTTPConnection "www.example.com" 80 300 0)
           "/a1.jpg" "a1.jpg" (initial_world ∅) r 10);
    reflexivity.
Defined.

(** ** do_reconnecting: edges *)

(** X11.  [do_reconnecting] makes no request and touches no file.  With a
    negative interval it does not wait at all.  When [connect] raises, the
    exception leaves [do_reconnecting] and the line that announces the
    reconnection is not printed; when it returns, that line is the last
    thing printed. *)
Theorem do_reconnecting_edges (env : Env) (conn : Connection) (interval : Z) (w : World) :
  let res := do_reconnecting env conn interval w in
  files (snd res) = files w /\
  n_request (snd res) = n_request w /\
  requested (new_events w (snd res)) = [] /\
  (interval < 0 -> countdown_events interval = []) /\
  match env_connect env (n_connect w) with
  | Some e =>
      fst res = inl e /\
      new_events w (snd res) = countdown_events interval ++ [ConnConnect conn]
  | None =>
      fst res = inr tt /\
      new_events w (snd res) =
        countdown_events interval ++ [ConnConnect conn; reconnecting_line]
  end.
Proof.
  intros res. subst res. rewrite do_reconnecting_eq.
  assert (requested (countdown_events interval) = []) as Hq by apply requested_ticks.
  assert (interval < 0 -> countdown_events interval = []) as Hneg.
  { intros H. unfold countdown_events, range_down. now rewrite seqZ_nil by lia. }
  destruct (env_connect env (n_connect w)) as [e|]; cbn [fst snd].
  - assert (new_events w (after_connect conn (countdown_events interval) w) =
            countdown_events interval ++ [ConnConnect conn]) as Hn
      by (apply new_events_app; reflexivity).
    rewrite Hn, requested_app, Hq. repeat split; auto.
  - assert (new_events w (emit_all [Stdout ("        ==> Reconnecting.                    " +:+ newline)]
                            (after_connect conn (countdown_events interval) w)) =
            countdown_events interval ++ [ConnConnect conn; reconnecting_line]) as Hn.
    { apply new_events_app. unfold after_connect, emit_all, reconnecting_line.
      cbn [events]. now rewrite <- !app_assoc. }
    rewrite Hn, requested_app, Hq. repeat split; auto.
Qed.

(** ** download: what every run keeps *)

Lemma step_ok_refl (w : World) : step_ok w w.
Proof. exists []. split; [now rewrite app_nil_r|]. split; [constructor | auto]. Qed.

Lemma step_ok_trans (w1 w2 w3 : World) : step_ok w1 w2 -> step_ok w2 w3 -> step_ok w1 w3.
Proof.
  intros (e1 & H1 & F1 & T1) (e2 & H2 & F2 & T2). exists (e1 ++ e2).
  split; [rewrite H2, H1; now rewrite app_assoc|].
  split; [now apply Forall_app|].
  intros name Hn. rewrite requested_app, fmap_app in Hn.
  apply not_elem_of_app in Hn as [Hn1 Hn2]. rewrite (T2 name Hn2). auto.
Qed.

Lemma step_ok_quiet (w w' : World) (evs : list Event) :
  events w' = events w ++ evs -> files w' = files w ->
  Forall (fun e => e <> ConnClose) evs -> step_ok w w'.
Proof. intros He Hf Hc. exists evs. split; [exact He|]. split; [exact Hc|]. now rewrite Hf. Qed.

Lemma local_not_close (evs : list Event) :
  Forall (fun e => is_local e = true) evs -> Forall (fun e => e <> ConnClose) evs.
Proof. intros H. eapply Forall_impl; [exact H|]. intros e He ->. discriminate. Qed.

Lemma ticks_not_close (l : list Z) : Forall (fun e => e <> ConnClose) (flat_map tick l).
Proof. induction l as [|s l IH]; [constructor|]. repeat constructor; try discriminate. exact IH. Qed.

Lemma get_content_step_ok env conn cp w :
  step_ok w (snd (get_content env conn cp (basename cp) w)).
Proof.
  destruct (get_content_spec env conn cp (basename cp) w)
    as (_ & (tail & Hev & Hloc & _) & _ & _ & Hother & _).
  exists (announce cp (basename cp) ++ tail). split; [exact Hev|]. split.
  - apply Forall_app. split; [repeat constructor; discriminate | now apply local_not_close].
  - intros name Hn. apply Hother. intros ->. apply Hn.
    rewrite requested_app, requested_announce. cbn. left.
Qed.

Lemma after_connect_step_ok conn interval w :
  step_ok w (after_connect conn (countdown_events interval) w).
Proof.
  eapply step_ok_quiet; [reflexivity | reflexivity|].
  apply Forall_app. split; [apply ticks_not_close | repeat constructor; discriminate].
Qed.

Lemma reconnected_step_ok conn w : step_ok w (reconnected conn w).
Proof.
  eapply step_ok_trans; [apply (after_connect_step_ok conn default_interval)|].
  eapply step_ok_quiet; [reflexivity | reflexivity | repeat constructor; discriminate].
Qed.

Lemma download_item_step_ok env o conn digit rc i w :
  step_ok w (snd (download_item env o conn digit rc i w)).
Proof.
  destruct rc.
  - rewrite download_item_reconnect.
    destruct (env_connect env (n_connect w)); [apply after_connect_step_ok|].
    destruct (format_path env (path o) digit (str i)); [apply reconnected_step_ok|].
    eapply step_ok_trans; [apply reconnected_step_ok | apply get_content_step_ok].
  - rewrite download_item_plain.
    destruct (format_path env (path o) digit (str i));
      [apply step_ok_refl | apply get_content_step_ok].
Qed.

Lemma for_fold_step_ok {A S} (f : S -> A -> M S) (l : list A) :
  (forall s x w, step_ok w (snd (f s x w))) ->
  forall s w, step_ok w (snd (for_fold l s f w)).
Proof.
  intros Hf. induction l as [|x l IH]; intros s w; [apply step_ok_refl|].
  rewrite for_fold_cons. specialize (Hf s x w).
  destruct (f s x w) as [[e|s'] w']; cbn [snd] in *; [exact Hf|].
  eapply step_ok_trans; [exact Hf | apply IH].
Qed.

Lemma download_range_step_ok env o conn rc r w :
  step_ok w (snd (download_range env o conn rc r w)).
Proof.
  rewrite download_range_eq.
  destruct (get_digit r); [apply step_ok_refl|].
  destruct (parse_range r); [apply step_ok_refl|].
  apply for_fold_step_ok. intros. apply download_item_step_ok.
Qed.

(** The ways [open_connection] can end. *)
Lemma open_connection_cases env o verbose w :
  let res := open_connection env o verbose w in
  match fst res with
  | inr conn =>
      events (snd res) = events w ++ [ConnConnect conn; connection_line o conn] /\
      files (snd res) = files w
  | inl e =>
      snd res = w \/
      exists conn, events (snd res) = events w ++ [ConnConnect conn] /\
                   files (snd res) = files w
  end.
Proof.
  intros res.
  destruct (open_connection env o verbose w) as [[e|conn] w'] eqn:E; subst res;
    cbn [fst snd].
  - revert E. unfold open_connection. unfold bind at 1.
    destruct (String.eqb (scheme o) "http").
    + unfold ret at 1. unfold bind at 1.
      destruct (port o =? 0); unfold ret at 1; unfold bind at 1; unfold connect;
        destruct (env_connect env (n_connect w)); try discriminate;
        intros [= <- <-]; right; eexists; split; reflexivity.
    + destruct (String.eqb (scheme o) "https"); [|intros [= <- <-]; now left].
      unfold ret at 1. unfold bind at 1.
      destruct (port o =? 0); [|intros [= <- <-]; now left].
      unfold ret at 1; unfold bind at 1; unfold connect;
        destruct (env_connect env (n_connect w)); try discriminate;
        intros [= <- <-]; right; eexists; split; reflexivity.
  - destruct (open_connection_inv _ _ _ _ _ _ E) as (H1 & H2 & _). auto.
Qed.

Lemma fetch_all_step env o conn w :
  exists evs,
    fst (fetch_all env o conn w) = inr tt /\
    events (snd (fetch_all env o conn w)) = events w ++ evs ++ [ConnClose] /\
    Forall (fun e => e <> ConnClose) evs /\
    requested (evs ++ [ConnClose]) = requested evs /\
    (forall name, name ∉ basename <$> requested evs ->
                  files (snd (fetch_all env o conn w)) !! name = files w !! name).
Proof.
  rewrite fetch_all_eq.
  destruct (for_fold_step_ok (download_range env o conn) (ranges o)
              (fun s x w => download_range_step_ok env o conn s x w) false w)
    as (evs & Hev & Hc & Hf).
  assert (forall l : list Event, requested (l ++ [ConnClose]) = requested l) as Hrc
    by (intros l; rewrite requested_app; cbn; apply app_nil_r).
  destruct (for_fold (ranges o) false (download_range env o conn) w) as [[e|b] w'];
    cbn [fst snd] in *.
  - exists (evs ++ [Stdout (exn_str e +:+ newline)]). split; [reflexivity|].
    split; [cbn [emit_all events]; rewrite Hev; now rewrite <- !app_assoc|].
    split; [apply Forall_app; split; [exact Hc | repeat constructor; discriminate]|].
    split; [apply Hrc|].
    intros name Hn. apply Hf. rewrite requested_app in Hn. cbn in Hn.
    now rewrite app_nil_r in Hn.
  - exists evs. split; [reflexivity|].
    split; [cbn [emit_all events]; now rewrite Hev, <- !app_assoc|]. auto.
Qed.

Lemma download_of_unfold env pu verbose w :
  download_of env pu verbose w =
  match parse_url_of pu with
  | inl e => (inl e, w)
  | inr o =>
      match open_connection env o verbose w with
      | (inl e, w1) => (inl e, w1)
      | (inr conn, w1) => fetch_all env o conn w1
      end
  end.
Proof.
  unfold download_of, bind, lift. destruct (parse_url_of pu); [reflexivity|].
  now destruct (open_connection env _ verbose w) as [[e|conn] w1].
Qed.

Lemma new_events_same (w : World) : new_events w w = [].
Proof. unfold new_events. apply drop_all. Qed.

Lemma download_run_shape
    (env : Env) (pu : ParseResult) (verbose : bool) (w : World) :
  let res := download_of env pu verbose w in
  match fst res with
  | inr _ =>
      exists conn evs,
        new_events w (snd res) = ConnConnect conn :: evs ++ [ConnClose] /\
        Forall (fun e => e <> ConnClose) evs
  | inl _ =>
      files (snd res) = files w /\
      (new_events w (snd res) = [] \/
       exists conn, new_events w (snd res) = [ConnConnect conn])
  end /\
  (forall name, name ∉ basename <$> requested (new_events w (snd res)) ->
                files (snd res) !! name = files w !! name).
Proof.
  intros res. subst res. rewrite download_of_unfold.
  destruct (parse_url_of pu) as [e|o].
  { cbn [fst snd]. rewrite new_events_same. auto. }
  pose proof (open_connection_cases env o verbose w) as Ho.
  destruct (open_connection env o verbose w) as [[e|conn] w1]; cbn [fst snd] in Ho.
  - cbn [fst snd]. destruct Ho as [->|(conn & Hev & Hf)].
    + rewrite new_events_same. auto.
    + rewrite (new_events_app _ _ _ Hev), Hf. split; [eauto|]. auto.
  - destruct Ho as [Hev1 Hf1].
    destruct (fetch_all_step env o conn w1) as (evs & Hr & Hev & Hc & Hq & Hf).
    rewrite Hr.
    assert (new_events w (snd (fetch_all env o conn w1)) =
            ConnConnect conn :: (connection_line o conn :: evs) ++ [ConnClose]) as Hn.
    { apply new_events_app. rewrite Hev, Hev1. now rewrite <- !app_assoc. }
    rewrite Hn. split.
    + exists conn, (connection_line o conn :: evs). split; [reflexivity|].
      constructor; [discriminate | exact Hc].
    + intros name Hname. rewrite Hf, Hf1; [reflexivity|].
      intros Hin. apply Hname.
      change (ConnConnect conn :: (connection_line o conn :: evs) ++ [ConnClose])
        with ([ConnConnect conn; connection_line o conn] ++ evs ++ [ConnClose]).
      rewrite requested_app, Hq. exact Hin.
Qed.

(** X12.  Whenever [download] returns, the connection was opened first
    and closed last, once; whenever an exception leaves [download], no
    request was made, no file was touched and the connection was not
    closed: the exception came from [parse_url], from building the
    connection or from the first connect. *)
Theorem download_closes_what_it_opened
    (env : Env) (pu : ParseResult) (verbose : bool) (w : World) :
  let res := download_of env pu verbose w in
  match fst res with
  | inr _ =>
      exit_status (fst res) = 0 /\
      exists conn evs,
        new_events w (snd res) = ConnConnect conn :: evs ++ [ConnClose] /\
        Forall (fun e => e <> ConnClose) evs
  | inl _ =>
      exit_status (fst res) = 1 /\
      files (snd res) = files w /\
      requested (new_events w (snd res)) = [] /\
      Forall (fun e => e <> ConnClose) (new_events w (snd res))
  end.
Proof.
  intros res. destruct (download_run_shape env pu verbose w) as [H _].
  fold res in H. destruct (fst res) as [e|[]].
  - destruct H as [Hf [->|[conn ->]]]; repeat split; auto;
      repeat constructor; discriminate.
  - auto.
Qed.

(** X13.  In every run, whatever fails, a file changes only if it is
    named after the last segment of a path that was requested. *)
Theorem files_changed_are_requested
    (env : Env) (pu : ParseResult) (verbose : bool) (w : World) (name : string) :
  let res := download_of env pu verbose w in
  name ∉ basename <$> requested (new_events w (snd res)) ->
  files (snd res) !! name = files w !! name.
Proof.
  intros res. destruct (download_run_shape env pu verbose w) as [_ H]. apply H.
Qed.

Lemma files_changed_are_requested_witness :
  let env := scripted_env [ok_response 3 3; not_found; ok_response 2 2] [] in
  let old_files : gmap string bytes := {[ "a2.jpg" := [Byte.x01]; "b.txt" := [Byte.x02] ]} in
  let res := download_of env (urlparse "http://www.example.com/x/a[1-3].jpg") false
                         (initial_world old_files) in
  files (snd res) !! "b.txt" = old_files !! "b.txt".
Proof.
  intros env old_files.
  apply (files_changed_are_requested env
           (urlparse "http://www.example.com/x/a[1-3].jpg") false
           (initial_world old_files) "b.txt").
  vm_compute. intros H. repeat (apply elem_of_cons in H as [H|H]; [discriminate|]).
  now apply elem_of_nil in H.
Defined.



(** The three ways a run can fail before its loop, on URLs. *)
Example failures_before_the_loop :
  let env := scripted_env [ok_response 3 3] [Some (OSError "[Errno 111] Connection refused")] in
  sum_map exn_class id (fst (download env "ftp://www.example.com/a[1].jpg" false (initial_world ∅))) =
    inl "UnboundLocalError" /\
  snd (download env "ftp://www.example.com/a[1].jpg" false (initial_world ∅)) = initial_world ∅ /\
  sum_map exn_class id
    (fst (download env "https://www.example.com:8443/a[1].jpg" false (initial_world ∅))) =
    inl "TypeError" /\
  fst (download env "http://www.example.com:8080/a[1].jpg" true (initial_world ∅)) =
    inl (OSError "[Errno 111] Connection refused") /\
  events (snd (download env "http://www.example.com:8080/a[1].jpg" true (initial_world ∅))) =
    [ConnConnect (mkConnection HTTPConnection "www.example.com" 8080 300 1)].
Proof. vm_compute. repeat split. Qed.

(** X15.  A path that already holds the text of the marker cannot be
    downloaded: when the template has two markers or more and no brace,
    the format step of the first item raises, so that the run, once
    connected, makes no request at all and still ends with status 0. *)
Theorem two_markers_request_nothing
    (env : Env) (pu : ParseResult) (verbose : bool) (o : ParsedTarget)
    (conn : Connection) (w0 w1 : World) :
  parse_url_of pu = inr o ->
  open_connection env o verbose w0 = (inr conn, w1) ->
  has_char "{" (path o) = false -> has_char "}" (path o) = false ->
  (2 <= count marker (path o))%nat ->
  fst (download_of env pu verbose w0) = inr tt /\
  requested (new_events w0 (snd (download_of env pu verbose w0))) = [] /\
  files (snd (download_of env pu verbose w0)) = files w0 /\
  (forall digit arg,
     format_path env (path o) digit arg =
       inl (IndexError "Replacement index 1 out of range for positional args tuple")).
Proof.
  intros Hp Ho Hb1 Hb2 Hc.
  assert (forall digit arg,
            format_path env (path o) digit arg =
              inl (IndexError "Replacement index 1 out of range for positional args tuple"))
    as Hfmt.
  { intros digit arg. unfold format_path. rewrite Hb1, Hb2. cbv [orb].
    destruct (count marker (path o)) as [|[|k]]; try lia. reflexivity. }
  assert (forall rs w, snd (for_fold rs false (download_range env o conn) w) = w) as Hloop.
  { intros rs w. destruct rs as [|r rs]; [reflexivity|].
    rewrite for_fold_cons, download_range_eq.
    destruct (get_digit r) as [e|digit] eqn:Hd; [reflexivity|].
    destruct (parse_range r) as [e|items] eqn:Hr; [reflexivity|].
    destruct (parse_range_bounds _ _ Hr) as (lo & hi & Hb & ->).
    rewrite seqZ_cons by lia.
    now rewrite for_fold_cons, download_item_plain, Hfmt. }
  destruct (open_connection_inv _ _ _ _ _ _ Ho) as (Hev1 & Hf1 & _).
  rewrite (download_of_eq _ _ _ _ _ _ _ Hp Ho), fetch_all_eq.
  specialize (Hloop (ranges o) w1).
  destruct (for_fold (ranges o) false (download_range env o conn) w1) as [[e|b] w2];
    cbn [snd] in Hloop; subst w2; cbn [fst snd emit_all files];
    (split; [reflexivity|]); (split; [|split; [exact Hf1 | exact Hfmt]]).
  - erewrite new_events_app
      by (cbn [emit_all events]; rewrite Hev1, <- !app_assoc; reflexivity).
    reflexivity.
  - erewrite new_events_app
      by (cbn [emit_all events]; rewrite Hev1, <- !app_assoc; reflexivity).
    reflexivity.
Qed.

Lemma two_markers_request_nothing_witness :
  let env := scripted_env [ok_response 3 3; ok_response 3 3] [] in
  let pu := urlparse "http://www.example.com/a[*]/b[1-2].jpg" in
  let o := {| scheme := "http"; host := "www.example.com"; port := 0;
              path := "/a[*]/b[*].jpg"; ranges := ["1-2"] |} in
  let w0 := initial_world ∅ in
  fst (download_of env pu false w0) = inr tt /\
  requested (new_events w0 (snd (download_of env pu false w0))) = [] /\
  files (snd (download_of env pu false w0)) = files w0 /\
  (forall digit arg,
     format_path env (path o) digit arg =
       inl (IndexError "Replacement index 1 out of range for positional args tuple")).
Proof.
  intros env pu o w0.
  apply (two_markers_request_nothing env pu false o
           (mkConnection HTTPConnection "www.example.com" 80 300 0) w0
           (emit_all [ConnConnect (mkConnection HTTPConnection "www.example.com" 80 300 0);
                      Stdout ("Connection: http://www.example.com:80/" +:+ newline)]
                     {| events := []; files := ∅; n_connect := 1; n_request := 0 |}));
    [reflexivity | reflexivity | reflexivity | reflexivity | vm_compute; lia].
Defined.

(** ** download: the order of the requests *)

Lemma download_item_requests env o conn digit rc i w p :
  format_path env (path o) digit (str i) = inr p ->
  requests_upto env [p] (download_item env o conn digit rc i w) w.
Proof.
  intros Hp.
  assert (forall w0, requests_upto env [p] (get_content env conn p (basename p) w0) w0) as Hg.
  { intros w0.
    destruct (get_content_spec env conn p (basename p) w0)
      as (Hflag & (tail & Hev & Hloc & _) & _).
    eexists. split; [exact Hev|]. rewrite Hflag.
    now rewrite requested_app, requested_announce, (requested_local _ Hloc). }
  destruct rc.
  - rewrite download_item_reconnect, Hp.
    destruct (env_connect env (n_connect w)) as [e|] eqn:Hc.
    + eexists. split; [reflexivity|]. cbn [fst].
      rewrite requested_app. unfold countdown_events. rewrite requested_ticks.
      split; [apply prefix_nil | eauto].
    + destruct (Hg (reconnected conn w)) as (evs & Hev & Hq).
      exists (countdown_events default_interval ++ [ConnConnect conn; reconnecting_line] ++ evs).
      split.
      * rewrite Hev. unfold reconnected, after_connect, emit_all. cbn [events].
        now rewrite <- !app_assoc.
      * assert (requested (countdown_events default_interval ++
                           [ConnConnect conn; reconnecting_line] ++ evs) = requested evs) as ->.
        { rewrite !requested_app. unfold countdown_events. now rewrite requested_ticks. }
        exact Hq.
  - rewrite download_item_plain, Hp. apply Hg.
Qed.

Lemma requests_upto_seq {A B} env (ps qs : list string)
    (r1 : Exc A * World) (k : A -> World -> Exc B * World) (w : World) :
  requests_upto env ps r1 w ->
  (forall a w', requests_upto env qs (k a w') w') ->
  requests_upto env (ps ++ qs)
    (match r1 with (inr a, w') => k a w' | (inl e, w') => (inl e, w') end) w.
Proof.
  intros (e1 & Hev1 & Hq1) Hk. destruct r1 as [[e|a] w']; cbn [fst snd] in *.
  - exists e1. split; [exact Hev1|]. cbn [fst]. destruct Hq1 as [Hq1 Hc].
    split; [now apply prefix_app_r | exact Hc].
  - destruct (Hk a w') as (e2 & Hev2 & Hq2). exists (e1 ++ e2).
    split; [rewrite Hev2, Hev1; now rewrite app_assoc|].
    rewrite requested_app, Hq1.
    destruct (fst (k a w')); [|now rewrite Hq2].
    destruct Hq2 as [Hq2 Hc]. split; [now apply prefix_app | exact Hc].
Qed.

Lemma items_loop_requests env o conn digit (items : list Z) :
  forall ps rc w,
    map_exc (fun i => format_path env (path o) digit (str i)) items = inr ps ->
    requests_upto env ps (for_fold items rc (download_item env o conn digit) w) w.
Proof.
  induction items as [|i items IH]; intros ps rc w Hm.
  - injection Hm as <-. exists []. split; [cbn; now rewrite app_nil_r | reflexivity].
  - apply map_exc_cons_inv in Hm as (p & ps' & Hp & Hm & ->).
    rewrite for_fold_cons.
    apply (requests_upto_seq env [p] ps' _
             (fun b w' => for_fold items b (download_item env o conn digit) w')).
    + now apply download_item_requests.
    + intros b w'. now apply IH.
Qed.

Lemma ranges_loop_requests env o conn (rs : list string) :
  forall pss rc w,
    map_exc (token_paths env o) rs = inr pss ->
    requests_upto env (concat pss) (for_fold rs rc (download_range env o conn) w) w.
Proof.
  induction rs as [|r rs IH]; intros pss rc w Hm.
  - injection Hm as <-. exists []. split; [cbn; now rewrite app_nil_r | reflexivity].
  - apply map_exc_cons_inv in Hm as (ps & pss' & Hp & Hm & ->).
    unfold token_paths in Hp.
    destruct (get_digit r) as [e|digit] eqn:Hd; [discriminate|].
    destruct (parse_range r) as [e|items] eqn:Hr; [discriminate|].
    rewrite for_fold_cons, download_range_eq, Hd, Hr. cbn [concat].
    apply (requests_upto_seq env ps (concat pss') _
             (fun b w' => for_fold rs b (download_range env o conn) w')).
    + now apply items_loop_requests.
    + intros b w'. now apply IH.
Qed.

(** X16.  In every run of an enumeration whose paths can be built,
    whatever the server and the reconnects do, the paths requested are a
    first part of the enumeration, in its order: no item is asked for
    twice, none is skipped, none is asked for out of turn.  They are the
    whole enumeration unless a connect of a reconnect raised. *)
Theorem requests_follow_the_enumeration
    (env : Env) (pu : ParseResult) (verbose : bool) (o : ParsedTarget)
    (conn : Connection) (paths : list string) (w0 w1 : World) :
  parse_url_of pu = inr o ->
  open_connection env o verbose w0 = (inr conn, w1) ->
  all_paths env o = inr paths ->
  let res := download_of env pu verbose w0 in
  requested (new_events w0 (snd res)) `prefix_of` paths /\
  (requested (new_events w0 (snd res)) = paths \/
   exists k e, env_connect env k = Some e /\
               last (events (snd res)) = Some ConnClose /\
               Stdout (exn_str e +:+ newline) ∈ events (snd res)).
Proof.
  intros Hp Ho Ha res. subst res.
  rewrite (download_of_eq _ _ _ _ _ _ _ Hp Ho), fetch_all_eq.
  unfold all_paths in Ha.
  destruct (map_exc (token_paths env o) (ranges o)) as [e|pss] eqn:Hm; [discriminate|].
  injection Ha as <-.
  destruct (ranges_loop_requests env o conn (ranges o) pss false w1 Hm) as (evs & Hev & Hq).
  destruct (open_connection_inv _ _ _ _ _ _ Ho) as (Hev1 & _).
  assert (forall extra w2,
            events w2 = events w1 ++ evs -> requested extra = [] ->
            requested (new_events w0 (emit_all extra w2)) = requested evs) as Hn.
  { intros extra w2 H2 Hx.
    erewrite new_events_app
      by (cbn [emit_all events]; rewrite H2, Hev1, <- !app_assoc; reflexivity).
    rewrite !requested_app, Hx. cbn. now rewrite app_nil_r. }
  destruct (for_fold (ranges o) false (download_range env o conn) w1) as [[e|b] w2];
    cbn [fst snd] in *.
  - destruct Hq as [Hq [k Hk]].
    rewrite (Hn [Stdout (exn_str e +:+ newline); ConnClose] _ Hev eq_refl).
    split; [exact Hq|].
    right. exists k, e. split; [exact Hk|]. cbn [emit_all events]. split.
    + change [Stdout (exn_str e +:+ newline); ConnClose]
        with ([Stdout (exn_str e +:+ newline)] ++ [ConnClose]).
      now rewrite app_assoc, last_snoc.
    + apply elem_of_app. right. left.
  - rewrite (Hn [ConnClose] _ Hev eq_refl), Hq. split; [reflexivity | now left].
Qed.

Lemma requests_follow_the_enumeration_witness :
  let env := scripted_env [ok_response 3 3; RequestRaises (socket_timeout "timed out");
                           ok_response 3 3]
                          [None; Some (OSError "[Errno 111] Connection refused")] in
  let res := download_of env (urlparse "http://www.example.com/a[1-3].jpg") false
                         (initial_world ∅) in
  requested (new_events (initial_world ∅) (snd res)) `prefix_of`
    ["/a1.jpg"; "/a2.jpg"; "/a3.jpg"] /\
  (requested (new_events (initial_world ∅) (snd res)) = ["/a1.jpg"; "/a2.jpg"; "/a3.jpg"] \/
   exists k e, env_connect env k = Some e /\
               last (events (snd res)) = Some ConnClose /\
               Stdout (exn_str e +:+ newline) ∈ events (snd res)).
Proof.
  intros env.
  apply (requests_follow_the_enumeration env
           (urlparse "http://www.example.com/a[1-3].jpg") false
           {| scheme := "http"; host := "www.example.com"; port := 0;
              path := "/a[*].jpg"; ranges := ["1-3"] |}
           (mkConnection HTTPConnection "www.example.com" 80 300 0)
           ["/a1.jpg"; "/a2.jpg"; "/a3.jpg"] (initial_world ∅)
           (emit_all [ConnConnect (mkConnection HTTPConnection "www.example.com" 80 300 0);
                      Stdout ("Connection: http://www.example.com:80/" +:+ newline)]
                     {| events := []; files := ∅; n_connect := 1; n_request := 0 |}));
    reflexivity.
Defined.

(** ** download: when it waits *)

Lemma no_wait_refl (w : World) : no_wait w w.
Proof. exists []. split; [now rewrite app_nil_r | constructor]. Qed.

Lemma no_wait_trans (w1 w2 w3 : World) : no_wait w1 w2 -> no_wait w2 w3 -> no_wait w1 w3.
Proof.
  intros (e1 & H1 & F1) (e2 & H2 & F2). exists (e1 ++ e2).
  split; [rewrite H2, H1; now rewrite app_assoc | now apply Forall_app].
Qed.

Section Quiet.

Variable env : Env.

(** No attempt of the environment ends as [FailedIncomplete] or
    [FailedConnection]. *)
Hypothesis no_flag : forall k fp,
  needs_reconnect (fetch_outcome (env_attempt env k) (env_open env k fp)) = false.

Lemma quiet_item o conn digit i w :
  let res := download_item env o conn digit false i w in
  (fst res = inr false \/ exists e, fst res = inl e) /\ no_wait w (snd res).
Proof.
  rewrite download_item_plain.
  destruct (format_path env (path o) digit (str i)) as [e|p].
  - cbn [fst snd]. split; [eauto | apply no_wait_refl].
  - destruct (get_content_spec env conn p (basename p) w)
      as (Hflag & (tail & Hev & Hloc & _) & _).
    cbv zeta. rewrite Hflag, no_flag. split; [now left|].
    eexists. split; [exact Hev|]. apply Forall_app.
    split; [repeat constructor | now apply local_not_wait].
Qed.

Lemma quiet_items o conn digit (items : list Z) :
  forall w,
    let res := for_fold items false (download_item env o conn digit) w in
    (fst res = inr false \/ exists e, fst res = inl e) /\ no_wait w (snd res).
Proof.
  induction items as [|i items IH]; intros w.
  - cbn. split; [now left | apply no_wait_refl].
  - cbv zeta. rewrite for_fold_cons.
    destruct (quiet_item o conn digit i w) as [Hr Hn].
    destruct (download_item env o conn digit false i w) as [[e|b] w']; cbn [fst snd] in *.
    + split; [eauto | exact Hn].
    + destruct Hr as [[= ->]|[e He]]; [|discriminate].
      destruct (IH w') as [Hr' Hn']. split; [exact Hr'|].
      eapply no_wait_trans; eauto.
Qed.

Lemma quiet_ranges o conn (rs : list string) :
  forall w,
    let res := for_fold rs false (download_range env o conn) w in
    (fst res = inr false \/ exists e, fst res = inl e) /\ no_wait w (snd res).
Proof.
  induction rs as [|r rs IH]; intros w.
  - cbn. split; [now left | apply no_wait_refl].
  - cbv zeta. rewrite for_fold_cons, download_range_eq.
    destruct (get_digit r) as [e|digit]; [cbn [fst snd]; split; [eauto | apply no_wait_refl]|].
    destruct (parse_range r) as [e|items]; [cbn [fst snd]; split; [eauto | apply no_wait_refl]|].
    destruct (quiet_items o conn digit items w) as [Hr Hn].
    destruct (for_fold items false (download_item env o conn digit) w) as [[e|b] w'];
      cbn [fst snd] in *.
    + split; [eauto | exact Hn].
    + destruct Hr as [[= ->]|[e He]]; [|discriminate].
      destruct (IH w') as [Hr' Hn']. split; [exact Hr'|].
      eapply no_wait_trans; eauto.
Qed.

End Quiet.

(** X17.  A run in which no attempt ends as [FailedIncomplete] or
    [FailedConnection] never waits and never reconnects: after the first
    connect there is no sleep and no other connect, whatever else fails
    (statuses of 300 or more, missing lengths, files that cannot be
    opened). *)
Theorem no_flag_no_wait
    (env : Env) (pu : ParseResult) (verbose : bool) (o : ParsedTarget)
    (conn : Connection) (w0 w1 : World) :
  parse_url_of pu = inr o ->
  open_connection env o verbose w0 = (inr conn, w1) ->
  (forall k fp,
     needs_reconnect (fetch_outcome (env_attempt env k) (env_open env k fp)) = false) ->
  exists evs,
    new_events w0 (snd (download_of env pu verbose w0)) = ConnConnect conn :: evs /\
    Forall (fun e => is_wait_or_connect e = false) evs /\
    seconds_slept (new_events w0 (snd (download_of env pu verbose w0))) = 0.
Proof.
  intros Hp Ho Hq.
  rewrite (download_of_eq _ _ _ _ _ _ _ Hp Ho), fetch_all_eq.
  destruct (open_connection_inv _ _ _ _ _ _ Ho) as (Hev1 & _).
  destruct (quiet_ranges env Hq o conn (ranges o) w1) as [_ (evs & Hev & Hf)].
  assert (forall l, Forall (fun e => is_wait_or_connect e = false) l -> seconds_slept l = 0)
    as Hs.
  { induction 1 as [|e l He _ IH]; [reflexivity|].
    unfold seconds_slept in *. cbn [foldr]. rewrite IH. now destruct e. }
  assert (forall extra w2,
            events w2 = events w1 ++ evs ->
            Forall (fun e => is_wait_or_connect e = false) extra ->
            exists evs',
              new_events w0 (emit_all extra w2) = ConnConnect conn :: evs' /\
              Forall (fun e => is_wait_or_connect e = false) evs' /\
              seconds_slept (new_events w0 (emit_all extra w2)) = 0) as Hn.
  { intros extra w2 H2 Hx. exists (connection_line o conn :: evs ++ extra).
    assert (new_events w0 (emit_all extra w2) =
            ConnConnect conn :: connection_line o conn :: evs ++ extra) as ->.
    { apply new_events_app. cbn [emit_all events]. rewrite H2, Hev1.
      now rewrite <- !app_assoc. }
    assert (Forall (fun e => is_wait_or_connect e = false)
                   (connection_line o conn :: evs ++ extra)) as Hall
      by (constructor; [reflexivity | now apply Forall_app]).
    split; [reflexivity|]. split; [exact Hall|].
    change (seconds_slept (ConnConnect conn :: connection_line o conn :: evs ++ extra))
      with (seconds_slept (connection_line o conn :: evs ++ extra)).
    now apply Hs. }
  destruct (for_fold (ranges o) false (download_range env o conn) w1) as [[e|b] w2];
    cbn [snd] in *; apply Hn; auto; repeat constructor.
Qed.

Lemma no_flag_no_wait_witness :
  let env := {| env_connect := fun _ => None;
                env_attempt := fun _ => not_found;
                env_open := fun _ _ => None;
                env_format := fun _ _ => inl (ValueError "Single '}' encountered in format string") |} in
  let conn := mkConnection HTTPConnection "www.example.com" 80 300 0 in
  let w0 := initial_world ∅ in
  exists evs,
    new_events w0 (snd (download_of env (urlparse "http://www.example.com/a[1-3].jpg") false w0)) =
      ConnConnect conn :: evs /\
    Forall (fun e => is_wait_or_connect e = false) evs /\
    seconds_slept
      (new_events w0 (snd (download_of env (urlparse "http://www.example.com/a[1-3].jpg") false w0))) = 0.
Proof.
  intros env conn w0.
  apply (no_flag_no_wait env (urlparse "http://www.example.com/a[1-3].jpg") false
           {| scheme := "http"; host := "www.example.com"; port := 0;
              path := "/a[*].jpg"; ranges := ["1-3"] |}
           conn w0
           (emit_all [ConnConnect conn;
                      Stdout ("Connection: http://www.example.com:80/" +:+ newline)]
                     {| events := []; files := ∅; n_connect := 1; n_request := 0 |}));
    [reflexivity | reflexivity | intros k fp; reflexivity].
Defined.

(** ** The names of the local files *)

Lemma rpartition_no_slash (s : string) :
  has_char "/" s = false -> rpartition_slash s = (EmptyString, s).
Proof.
  destruct s as [|c t]; [reflexivity|].
  intros H. pose proof H as H'. unfold has_char in H'. cbn [all_chars] in H'.
  apply negb_false_iff, andb_true_iff in H' as [Hc Ht]. apply negb_true_iff in Hc.
  cbn [rpartition_slash]. unfold has_char. now rewrite Ht, Hc.
Qed.

Lemma basename_append (a b : string) :
  has_char "/" b = false -> basename (a +:+ b) = basename a +:+ b.
Proof.
  intros Hb. unfold basename. induction a as [|c t IH].
  - simpl. now rewrite (rpartition_no_slash _ Hb).
  - change (String c t +:+ b) with (String c (t +:+ b)). cbn [rpartition_slash].
    rewrite has_char_append, Hb, orb_false_r.
    destruct (has_char "/" t).
    + destruct (rpartition_slash (t +:+ b)) as [d l].
      destruct (rpartition_slash t) as [d' l']. cbn [snd] in *. exact IH.
    + now destruct (Ascii.eqb c "/").
Qed.

Lemma basename_trailing_slash (x : string) : basename (x +:+ "/") = EmptyString.
Proof.
  unfold basename. induction x as [|c t IH]; [reflexivity|].
  change (String c t +:+ "/") with (String c (t +:+ "/")). cbn [rpartition_slash].
  rewrite has_char_append. change (has_char "/" "/") with true. rewrite orb_true_r.
  destruct (rpartition_slash (t +:+ "/")) as [d l]. exact IH.
Qed.

Lemma basename_after_slash (x y : string) :
  has_char "/" y = false -> basename (x +:+ "/" +:+ y) = y.
Proof.
  intros Hy. rewrite <- append_assoc, (basename_append _ _ Hy).
  now rewrite basename_trailing_slash.
Qed.

Lemma string_of_uint_no_slash (u : uint) :
  all_chars not_slash (NilEmpty.string_of_uint u) = true.
Proof. induction u; simpl; auto. Qed.

Lemma str_no_slash (i : Z) : all_chars not_slash (str i) = true.
Proof.
  unfold str. destruct (Z.to_int i) as [u|u]; cbn [NilZero.string_of_int].
  - destruct u; try reflexivity; apply (string_of_uint_no_slash (_ _)).
  - cbn [all_chars]. destruct u; try reflexivity; apply (string_of_uint_no_slash (_ _)).
Qed.

Lemma format_field_no_slash (digit : nat) (i : Z) :
  has_char "/" (format_field digit (str i)) = false.
Proof.
  unfold has_char. apply negb_false_iff. fold not_slash.
  unfold format_field, rjust. rewrite all_chars_append, str_no_slash, andb_true_r.
  induction (digit - String.length (str i))%nat as [|k IH]; [reflexivity | exact IH].
Qed.

(** X18.  The local file of an item is named after the last segment of
    its path.  When the text after the bracket has no slash, this is the
    last segment of the text before it, the padded number and the text
    after it.  When the bracket is in a directory of the path, the name is
    what follows the last slash and is the same for every item: each item
    is then written over the one before. *)
Theorem local_file_names
    (env : Env) (o : ParsedTarget) (before after : string) (digit : nat) (i : Z) :
  path o = before +:+ marker +:+ after ->
  plain before = true -> plain after = true ->
  let p := before +:+ format_field digit (str i) +:+ after in
  format_path env (path o) digit (str i) = inr p /\
  (has_char "/" after = false ->
   basename p = basename before +:+ format_field digit (str i) +:+ after) /\
  (forall d f, after = d +:+ "/" +:+ f -> has_char "/" f = false -> basename p = f).
Proof.
  intros Hp Hb Ha p. split; [rewrite Hp; now apply format_path_plain|]. split.
  - intros Hs. subst p. apply basename_append.
    now rewrite has_char_append, format_field_no_slash, Hs.
  - intros d f -> Hf. subst p.
    rewrite <- !append_assoc. rewrite (append_assoc _ "/" f).
    now apply basename_after_slash.
Qed.

Lemma local_file_names_witness :
  let env := scripted_env [] [] in
  let o := {| scheme := "http"; host := "www.example.com"; port := 0;
              path := "/d[*]/index.html"; ranges := ["1-2"] |} in
  let p := "/d" +:+ format_field 1 (str 2) +:+ "/index.html" in
  format_path env (path o) 1 (str 2) = inr p /\
  (has_char "/" "/index.html" = false ->
   basename p = basename "/d" +:+ format_field 1 (str 2) +:+ "/index.html") /\
  (forall d f, "/index.html" = d +:+ "/" +:+ f -> has_char "/" f = false -> basename p = f).
Proof.
  intros env o.
  apply (local_file_names env o "/d" "/index.html" 1 2); reflexivity.
Defined.

(** Two items of a range in a directory: one file, with the bytes of the
    second. *)
Example same_name_is_overwritten :
  let env := scripted_env [ok_response 3 3; ok_response 1 1] [] in
  let res := download env "http://www.example.com/d[1-2]/index.html" false (initial_world ∅) in
  requested (events (snd res)) = ["/d1/index.html"; "/d2/index.html"] /\
  files (snd res) = {[ "index.html" := [Byte.x00] ]}.
Proof. vm_compute. split; reflexivity. Qed.
